(** * libsmack: label table, access-code codec, rule store and CIPSO store

    A shallow embedding of [src/libsmack/libsmack.c] and the properties
    of its rule engine that the library's specification states.

    Conventions of the embedding.
    - A C string is a [list ascii]; the terminating NUL is implicit.  The
      functions that scan a [const char *] stop at the first NUL they meet,
      as the C loops do, so a list holding a NUL is read up to it ([c_str]).
    - [int] results (0 / -1) are values of [Z]; a function returning a
      pointer or NULL, or a length or -1, returns an [option].
    - Structures reached through pointers are modelled by the array that
      owns them: a [struct smack_label *] is the index of the label in
      [handle->labels] (the code stores a new label at index
      [labels_cnt], which is also its [id]); the linked list hanging off
      [first_rule] is a [list] in link order, and so is a hash chain.
    - [malloc], [calloc], [realloc], [dup] and [fdopen] are assumed to
      succeed, and reading the text source never reports an error. *)

From Stdlib Require Import ZArith Ascii String Lia Bool.
From stdpp Require Import base option list gmap strings.

(** ** Constants *)

(** Modelled from the spec: the constant [SMACK_LABEL_LEN] of
    [sys/smack.h], a header that is not among the sources; the spec bounds
    a label by 255 bytes. *)
Definition SMACK_LABEL_LEN : nat := 255.

Definition SHORT_LABEL_LEN : nat := 23.
Definition ACC_LEN : nat := 6.
Definition LOAD_LEN : nat := 2 * (SMACK_LABEL_LEN + 1) + 2 * ACC_LEN + 1.

Definition LEVEL_MAX : Z := 255.
Definition BUF_SIZE : nat := 512.
Definition CAT_MAX_COUNT : nat := 240.
Definition CAT_MAX_VALUE : Z := 63.

Definition ACCESS_TYPE_R : Z := 0x01.
Definition ACCESS_TYPE_W : Z := 0x02.
Definition ACCESS_TYPE_X : Z := 0x04.
Definition ACCESS_TYPE_A : Z := 0x08.
Definition ACCESS_TYPE_T : Z := 0x10.
Definition ACCESS_TYPE_L : Z := 0x20.
Definition ACCESS_TYPE_ALL : Z := Z.shiftl 1 (Z.of_nat ACC_LEN) - 1.

Definition DICT_HASH_SIZE : Z := 4096.
Definition UINT16_MAX : Z := 65535.
Definition MAX_LABELS_CNT : Z := UINT16_MAX + 1.

(** ** C strings *)

Definition NUL : ascii := "000"%char.
Definition LF : ascii := "010"%char.
Definition TAB : ascii := "009"%char.
Definition SP : ascii := " "%char.

(** The characters of a buffer up to its terminator. *)
Fixpoint c_str (s : list ascii) : list ascii :=
  match s with
  | [] => []
  | c :: rest => if decide (c = NUL) then [] else c :: c_str rest
  end.

(** [strcmp(a, b) == 0] *)
Definition strcmp_eq (a b : list ascii) : bool :=
  bool_decide (c_str a = c_str b).

Definition chr (c : ascii) : Z := Z.of_N (N_of_ascii c).

(** ** The access-code codec *)

(** The loop of [str_to_access_code], [code] being the bits gathered so
    far; [None] is the [return -1] of the [default] case. *)
Fixpoint str_to_access_code_from (str : list ascii) (code : Z) : option Z :=
  match str with
  | [] => Some code
  | c :: rest =>
      match c with
      | "000"%char => Some code
      | "r"%char | "R"%char =>
          str_to_access_code_from rest (Z.lor code ACCESS_TYPE_R)
      | "w"%char | "W"%char =>
          str_to_access_code_from rest (Z.lor code ACCESS_TYPE_W)
      | "x"%char | "X"%char =>
          str_to_access_code_from rest (Z.lor code ACCESS_TYPE_X)
      | "a"%char | "A"%char =>
          str_to_access_code_from rest (Z.lor code ACCESS_TYPE_A)
      | "t"%char | "T"%char =>
          str_to_access_code_from rest (Z.lor code ACCESS_TYPE_T)
      | "l"%char | "L"%char =>
          str_to_access_code_from rest (Z.lor code ACCESS_TYPE_L)
      | "-"%char => str_to_access_code_from rest code
      | _ => None
      end
  end.

Definition str_to_access_code (str : list ascii) : option Z :=
  str_to_access_code_from str 0.

Definition access_bit (code mask : Z) (c : ascii) : ascii :=
  if decide (Z.land code mask ≠ 0%Z) then c else "-"%char.

(** The six characters [access_code_to_str] stores before the NUL. *)
Definition access_code_to_str (code : Z) : list ascii :=
  [ access_bit code ACCESS_TYPE_R "r"; access_bit code ACCESS_TYPE_W "w";
    access_bit code ACCESS_TYPE_X "x"; access_bit code ACCESS_TYPE_A "a";
    access_bit code ACCESS_TYPE_T "t"; access_bit code ACCESS_TYPE_L "l" ].

(** *** The textual form of a permission set, in the spec's words *)

Definition tolower (c : ascii) : ascii :=
  let n := N_of_ascii c in
  if (65 <=? n)%N && (n <=? 90)%N then ascii_of_N (n + 32) else c.

Definition canonical_lowercase (s : list ascii) : list ascii := tolower <$> s.

(** One of the characters the codec knows. *)
Definition access_char (c : ascii) : bool :=
  bool_decide (tolower c ∈ [ "r"; "w"; "x"; "a"; "t"; "l"; "-" ]%char).

(** Column [letter] of a well-formed string holds the letter, in either
    case, or a dash. *)
Definition column_ok (letter c : ascii) : bool :=
  bool_decide (tolower c = letter) || bool_decide (c = "-"%char).

(** A well-formed permission string: exactly [ACC_LEN] characters, the
    columns in the fixed order r, w, x, a, t, l. *)
Definition well_formed_access (s : list ascii) : bool :=
  match s with
  | [c0; c1; c2; c3; c4; c5] =>
      column_ok "r" c0 && column_ok "w" c1 && column_ok "x" c2 &&
      column_ok "a" c3 && column_ok "t" c4 && column_ok "l" c5
  | _ => false
  end.

(** ** Label syntax: [get_label] *)

(** The [for] loop of [get_label]: [n] iterations are left before [i]
    reaches [SMACK_LABEL_LEN + 1], [h] is the DJB2 hash so far (an
    [unsigned int], hence the reduction modulo 2^32).  The range test is
    written on the character code of an [unsigned char]; with a signed
    [char] the codes above 127 are negative and fail the first comparison
    instead of the second, with the same result. *)
Fixpoint get_label_scan (n : nat) (src : list ascii) (i : nat) (h : Z)
  : option (nat * Z) :=
  match n, src with
  | O, _ => Some (i, h)
  | S _, [] => Some (i, h)
  | S n', c :: rest =>
      if decide (c = NUL) then Some (i, h)
      else if (chr c <=? chr SP)%Z || (chr "~" <? chr c)%Z then None
      else match c with
           | "/"%char | "034"%char | "\"%char | "'"%char => None
           | _ => get_label_scan n' rest (S i)
                    ((Z.shiftl h 5 + h + chr c) mod 2 ^ 32)%Z
           end
  end.

(** [get_label(dest, src, &hash)]: the length of the label and its hash
    bucket, or [None] for -1.  When [dest] is given it receives the first
    [i] characters of [src]. *)
Definition get_label (src : list ascii) : option (nat * Z) :=
  match src with
  | [] => None
  | c :: _ =>
      if decide (c = NUL) then None
      else if decide (c = "-"%char) then None
      else match get_label_scan (SMACK_LABEL_LEN + 1) src 0 5381 with
           | None => None
           | Some (i, h) =>
               if decide (i < SMACK_LABEL_LEN + 1)
               then Some (i, (h mod DICT_HASH_SIZE)%Z)
               else None
           end
  end.

(** *** Label syntax in the spec's words *)

(** Printable ASCII other than space, slash, double quote, backslash and
    single quote. *)
Definition label_char (c : ascii) : bool :=
  (33 <=? chr c)%Z && (chr c <=? 126)%Z &&
  negb (bool_decide (c ∈ [ "/"; "034"; "\"; "'" ]%char)).

(** 1 to 255 such characters, the first of them not a dash. *)
Definition valid_label (s : list ascii) : bool :=
  (1 <=? length s) && (length s <=? SMACK_LABEL_LEN) &&
  forallb label_char s &&
  negb (bool_decide (head s = Some "-"%char)).

(** ** The accesses engine *)

Record smack_rule := mk_rule {
  allow_code : Z;
  deny_code : Z;
  object_id : nat
}.

Record smack_label := mk_label {
  len : nat;
  id : nat;
  label : list ascii;
  rules : list smack_rule     (* first_rule ... last_rule *)
}.

(** [labels] is the used part of the array, so [labels_cnt] is its
    length; [label_hash] maps a bucket to its chain of label pointers (an
    absent bucket is the empty chain [calloc] leaves). *)
Record smack_accesses := mk_accesses {
  has_long : bool;
  labels_alloc : Z;
  labels : list smack_label;
  label_hash : gmap Z (list nat)
}.

Definition labels_cnt (handle : smack_accesses) : Z :=
  Z.of_nat (length (labels handle)).

Definition smack_accesses_new : smack_accesses :=
  {| has_long := false; labels_alloc := 128; labels := [];
     label_hash := ∅ |}.

Definition null_label : smack_label :=
  {| len := 0; id := 0; label := []; rules := [] |}.

(** Reading through a label pointer. *)
Definition deref (handle : smack_accesses) (p : nat) : smack_label :=
  default null_label (labels handle !! p).

Definition chain (handle : smack_accesses) (hash : Z) : list nat :=
  default [] (label_hash handle !! hash).

(** The [while] loop of [is_label_known] along one chain. *)
Fixpoint chain_find (ls : list smack_label) (lbl : list ascii)
    (ch : list nat) : option nat :=
  match ch with
  | [] => None
  | p :: rest =>
      match ls !! p with
      | Some lab =>
          if strcmp_eq lbl (label lab) then Some p
          else chain_find ls lbl rest
      | None => chain_find ls lbl rest
      end
  end.

Definition is_label_known (handle : smack_accesses) (lbl : list ascii)
    (hash : Z) : option nat :=
  chain_find (labels handle) lbl (chain handle hash).

(** [label_add]: the pointer it returns ([None] for NULL) and the
    handle it leaves. *)
Definition label_add (handle : smack_accesses) (lbl : list ascii)
  : option nat * smack_accesses :=
  if decide (labels_cnt handle = MAX_LABELS_CNT) then (None, handle)
  else
    match get_label lbl with
    | None => (None, handle)
    | Some (n, hash_value) =>
        match is_label_known handle lbl hash_value with
        | Some p => (Some p, handle)
        | None =>
            let cnt := length (labels handle) in
            let new_label :=
              {| len := n; id := cnt; label := take n lbl; rules := [] |} in
            (Some cnt,
             {| has_long := has_long handle;
                labels_alloc :=
                  if decide (labels_cnt handle = labels_alloc handle)
                  then (labels_alloc handle * 2)%Z
                  else labels_alloc handle;
                labels := labels handle ++ [new_label];
                label_hash :=
                  <[hash_value := chain handle hash_value ++ [cnt]]>
                    (label_hash handle) |})
        end
    end.

Definition set_has_long (handle : smack_accesses) : smack_accesses :=
  {| has_long := true; labels_alloc := labels_alloc handle;
     labels := labels handle; label_hash := label_hash handle |}.

Definition push_rule (rule : smack_rule) (lab : smack_label) : smack_label :=
  {| len := len lab; id := id lab; label := label lab;
     rules := rules lab ++ [rule] |}.

(** Linking [rule] at the end of the list of the label [p] points to. *)
Definition append_rule (handle : smack_accesses) (p : nat)
    (rule : smack_rule) : smack_accesses :=
  {| has_long := has_long handle; labels_alloc := labels_alloc handle;
     labels := alter (push_rule rule) p (labels handle);
     label_hash := label_hash handle |}.

(** [accesses_add]; [deny_access_type] is [None] for a NULL pointer.  The
    handle is returned on failure too: labels interned before the failure
    stay. *)
Definition accesses_add (handle : smack_accesses)
    (subject object allow_access_type : list ascii)
    (deny_access_type : option (list ascii)) : Z * smack_accesses :=
  match label_add handle subject with
  | (None, h1) => ((-1)%Z, h1)
  | (Some subject_label, h1) =>
      match label_add h1 object with
      | (None, h2) => ((-1)%Z, h2)
      | (Some object_label, h2) =>
          let h3 :=
            if bool_decide (SHORT_LABEL_LEN < len (deref h2 subject_label)) ||
               bool_decide (SHORT_LABEL_LEN < len (deref h2 object_label))
            then set_has_long h2 else h2 in
          let oid := id (deref h3 object_label) in
          match str_to_access_code allow_access_type with
          | None => ((-1)%Z, h3)
          | Some allow =>
              match deny_access_type with
              | Some deny_str =>
                  match str_to_access_code deny_str with
                  | None => ((-1)%Z, h3)
                  | Some deny =>
                      (0%Z, append_rule h3 subject_label
                              (mk_rule allow deny oid))
                  end
              | None =>
                  (0%Z, append_rule h3 subject_label
                          (mk_rule allow
                             (Z.land ACCESS_TYPE_ALL (Z.lnot allow)) oid))
              end
          end
      end
  end.

Definition smack_accesses_add (handle : smack_accesses)
    (subject object access_type : list ascii) : Z * smack_accesses :=
  accesses_add handle subject object access_type None.

Definition smack_accesses_add_modify (handle : smack_accesses)
    (subject object allow_access_type deny_access_type : list ascii)
  : Z * smack_accesses :=
  accesses_add handle subject object allow_access_type
    (Some deny_access_type).

(** ** Writing to a descriptor *)

(** What one call of [write] does: it takes the first [n] bytes offered
    (all of them when [n] is larger), is interrupted ([EINTR]), or fails
    with another error. *)
Inductive wres := WTake (n : nat) | WEintr | WError.

(** The world a serialization pass runs in: the outcomes of the calls of
    [write] still to come (once the script is used up every call takes
    all it is offered) and the chunks delivered so far, each with the
    descriptor it went to. *)
Record world := mk_world {
  script : list wres;
  wlog : list (Z * list ascii)
}.

Definition quiet : world := {| script := []; wlog := [] |}.

(** The bytes written, in order, each with its descriptor. *)
Definition bytes_of (log : list (Z * list ascii)) : list (Z * ascii) :=
  e ← log; pair e.1 <$> e.2.

(** The bytes a descriptor has received. *)
Definition delivered (fd : Z) (log : list (Z * list ascii)) : list ascii :=
  snd <$> filter (λ b, b.1 = fd) (bytes_of log).

(** The loop [for (i = 0; i < cnt; )] around [write]: [buf] is what is
    still to be written.  [false] is the [return -1]. *)
Fixpoint write_loop (fd : Z) (buf : list ascii) (sc : list wres)
    (log : list (Z * list ascii)) : bool * world :=
  match buf with
  | [] => (true, mk_world sc log)
  | _ :: _ =>
      match sc with
      | [] => (true, mk_world [] (log ++ [(fd, buf)]))
      | WEintr :: sc' => write_loop fd buf sc' log
      | WError :: sc' => (false, mk_world sc' log)
      | WTake n :: sc' =>
          write_loop fd (drop n buf) sc' (log ++ [(fd, take n buf)])
      end
  end.

(** ** The kernel formats *)

Definition pad_right (width : nat) (s : list ascii) : list ascii :=
  s ++ replicate (width - length s) SP.

Definition pad_left (width : nat) (s : list ascii) : list ascii :=
  replicate (width - length s) SP ++ s.

(** ["%s %s %s"] *)
Definition KERNEL_LONG_FORMAT (s o a : list ascii) : list ascii :=
  s ++ [SP] ++ o ++ [SP] ++ a.

(** ["%-23s %-23s %5.5s"] *)
Definition KERNEL_SHORT_FORMAT (s o a : list ascii) : list ascii :=
  pad_right 23 s ++ [SP] ++ pad_right 23 o ++ [SP] ++ pad_left 5 (take 5 a).

(** ["%s %s %s %s"] *)
Definition KERNEL_MODIFY_FORMAT (s o a d : list ascii) : list ascii :=
  s ++ [SP] ++ o ++ [SP] ++ a ++ [SP] ++ d.

(** [snprintf(buf, size, ...)] for the formatted [text]: the buffer it
    leaves, terminator included, and the length it returns. *)
Definition snprintf (size : nat) (text : list ascii) : list ascii * nat :=
  (take (size - 1) text ++ [NUL], length text).

(** ** Serialization: [accesses_print] *)

Definition is_modify (rule : smack_rule) : bool :=
  bool_decide (Z.lor (allow_code rule) (deny_code rule) ≠ ACCESS_TYPE_ALL).

(** The record one rule is formatted into and the descriptor chosen for
    it: the body of the inner loop up to the writing.  [None] is the
    [return -1] taken when a modify rule meets [change_fd < 0]. *)
Definition rule_record (handle : smack_accesses) (clear : bool)
    (load_fd change_fd : Z) (use_long add_lf : bool)
    (subject_label : smack_label) (rule : smack_rule)
  : option (Z * list ascii) :=
  let object_label := deref handle (object_id rule) in
  let allow_str :=
    access_code_to_str (if clear then 0%Z else allow_code rule) in
  if is_modify rule && negb clear then
    if decide (change_fd < 0)%Z then None
    else
      let deny_str := access_code_to_str (deny_code rule) in
      let '(buf, cnt) :=
        snprintf (LOAD_LEN + 1)
          (KERNEL_MODIFY_FORMAT (label subject_label) (label object_label)
             allow_str deny_str) in
      let '(buf, cnt) :=
        if add_lf then (<[cnt := LF]> buf, S cnt) else (buf, cnt) in
      Some (change_fd, take cnt buf)
  else
    let '(buf, cnt) :=
      snprintf (LOAD_LEN + 1)
        (if use_long
         then KERNEL_LONG_FORMAT (label subject_label) (label object_label)
                allow_str
         else KERNEL_SHORT_FORMAT (label subject_label) (label object_label)
                allow_str) in
    let '(buf, cnt) :=
      if add_lf then (<[cnt := LF]> buf, S cnt) else (buf, cnt) in
    Some (load_fd, take cnt buf).

(** The inner loop, over the rules of one subject. *)
Fixpoint print_rules (handle : smack_accesses) (clear : bool)
    (load_fd change_fd : Z) (use_long add_lf : bool)
    (subject_label : smack_label) (rs : list smack_rule) (w : world)
  : Z * world :=
  match rs with
  | [] => (0%Z, w)
  | rule :: rest =>
      match rule_record handle clear load_fd change_fd use_long add_lf
              subject_label rule with
      | None => ((-1)%Z, w)
      | Some (fd, buf) =>
          match write_loop fd buf (script w) (wlog w) with
          | (false, w') => ((-1)%Z, w')
          | (true, w') =>
              print_rules handle clear load_fd change_fd use_long add_lf
                subject_label rest w'
          end
      end
  end.

(** The outer loop, over the labels [ls] still to visit. *)
Fixpoint print_labels (handle : smack_accesses) (clear : bool)
    (load_fd change_fd : Z) (use_long add_lf : bool)
    (ls : list smack_label) (w : world) : Z * world :=
  match ls with
  | [] => (0%Z, w)
  | subject_label :: rest =>
      let '(ret, w') :=
        print_rules handle clear load_fd change_fd use_long add_lf
          subject_label (rules subject_label) w in
      if decide (ret = 0%Z)
      then print_labels handle clear load_fd change_fd use_long add_lf
             rest w'
      else (ret, w')
  end.

Definition accesses_print (handle : smack_accesses) (clear : bool)
    (load_fd change_fd : Z) (use_long add_lf : bool) (w : world)
  : Z * world :=
  if negb use_long && has_long handle then ((-1)%Z, w)
  else print_labels handle clear load_fd change_fd use_long add_lf
         (labels handle) w.

Definition smack_accesses_save (handle : smack_accesses) (fd : Z)
    (w : world) : Z * world :=
  accesses_print handle false fd fd true true w.

(** ** Pushing the rules to the kernel: [accesses_apply] *)

(** The outcome of [openat(..., O_WRONLY)]: a descriptor, [ENOENT], or
    another error. *)
Inductive open_result := Opened (fd : nat) | NoEntry | OtherError.

(** The policy filesystem as the library finds it: whether
    [init_smackfs_mnt] succeeds and what opening each interface gives. *)
Record smackfs := mk_smackfs {
  mnt_ok : bool;
  load2 : open_result;
  load : open_result;
  change_rule : open_result
}.

(** [open_smackfs_file]: the descriptor and [*use_long], or [None] for
    -1. *)
Definition open_smackfs_file (long_name short_name : open_result)
  : option (Z * bool) :=
  match long_name with
  | Opened fd => Some (Z.of_nat fd, true)
  | OtherError => None
  | NoEntry =>
      match short_name with
      | Opened fd => Some (Z.of_nat fd, false)
      | _ => None
      end
  end.

Definition accesses_apply (fs : smackfs) (handle : smack_accesses)
    (clear : bool) (w : world) : Z * world :=
  if negb (mnt_ok fs) then ((-1)%Z, w)
  else
    match open_smackfs_file (load2 fs) (load fs) with
    | None => ((-1)%Z, w)
    | Some (load_fd, use_long) =>
        match change_rule fs with
        | OtherError => ((-1)%Z, w)
        | NoEntry =>
            accesses_print handle clear load_fd (-1) use_long false w
        | Opened change_fd =>
            accesses_print handle clear load_fd (Z.of_nat change_fd)
              use_long false w
        end
    end.

Definition smack_accesses_apply (fs : smackfs) (handle : smack_accesses)
    (w : world) : Z * world :=
  accesses_apply fs handle false w.


(** ** Reading text: [fgets] and [strtok_r] *)

(** [fgets] reads at most [n] characters and stops after a line feed. *)
Fixpoint fgets_scan (n : nat) (file : list ascii)
  : list ascii * list ascii :=
  match n, file with
  | O, _ => ([], file)
  | S _, [] => ([], [])
  | S n', c :: rest =>
      if decide (c = LF) then ([c], rest)
      else let '(l, r) := fgets_scan n' rest in (c :: l, r)
  end.

(** [fgets(buf, size, file)]: the buffer and what is left of the file,
    or [None] for NULL at the end of the file. *)
Definition fgets (size : nat) (file : list ascii)
  : option (list ascii * list ascii) :=
  match file with
  | [] => None
  | _ :: _ => Some (fgets_scan (size - 1) file)
  end.

(** The delimiters [" \t\n"]. *)
Definition is_delim (c : ascii) : bool :=
  bool_decide (c = SP) || bool_decide (c = TAB) || bool_decide (c = LF).

Fixpoint skip_delims (s : list ascii) : list ascii :=
  match s with
  | [] => []
  | c :: rest => if is_delim c then skip_delims rest else s
  end.

(** The token at the head of [s] and what follows its delimiter. *)
Fixpoint span_token (s : list ascii) : list ascii * list ascii :=
  match s with
  | [] => ([], [])
  | c :: rest =>
      if is_delim c then ([], rest)
      else let '(t, r) := span_token rest in (c :: t, r)
  end.

(** One call of [strtok_r(..., " \t\n", &ptr)] on the text [ptr] points
    to: the token ([None] for NULL) and the new [ptr]. *)
Definition strtok_r (ptr : list ascii) : option (list ascii) * list ascii :=
  match skip_delims ptr with
  | [] => (None, [])
  | c :: rest => let '(t, r) := span_token (c :: rest) in (Some t, r)
  end.

(** ** Bulk loading: [smack_accesses_add_from_file] *)

(** The [while] loop over the lines; every turn consumes at least one
    character of [file], so [fuel] above its length is never used up
    ([None] stands for that). *)
Fixpoint add_from_file_loop (fuel : nat) (accesses : smack_accesses)
    (file : list ascii) : option (Z * smack_accesses) :=
  match fuel with
  | O => None
  | S fuel' =>
      match fgets (LOAD_LEN + 1) file with
      | None => Some (0%Z, accesses)
      | Some (buf, file') =>
          if strcmp_eq buf [LF] then add_from_file_loop fuel' accesses file'
          else
            let '(subject, ptr) := strtok_r (c_str buf) in
            let '(object, ptr) := strtok_r ptr in
            let '(access, ptr) := strtok_r ptr in
            let '(access2, ptr) := strtok_r ptr in
            match subject, object, access, fst (strtok_r ptr) with
            | Some subject, Some object, Some access, None =>
                let '(ret, accesses') :=
                  match access2 with
                  | None =>
                      smack_accesses_add accesses subject object access
                  | Some access2 =>
                      smack_accesses_add_modify accesses subject object
                        access access2
                  end in
                if decide (ret = 0%Z)
                then add_from_file_loop fuel' accesses' file'
                else Some ((-1)%Z, accesses')
            | _, _, _, _ => Some ((-1)%Z, accesses)
            end
      end
  end.

Definition smack_accesses_add_from_file (accesses : smack_accesses)
    (file : list ascii) : option (Z * smack_accesses) :=
  add_from_file_loop (S (length file)) accesses file.

(** ** The CIPSO store *)

(** [cats] is the array [int cats[CAT_MAX_VALUE]]: a list of that length
    in every mapping the code allocates. *)
Record cipso_mapping := mk_mapping {
  m_label : list ascii;
  cats : list Z;
  ncats : nat;
  level : Z
}.

Record smack_cipso := mk_cipso {
  cipso_has_long : bool;
  mappings : list cipso_mapping       (* first ... last *)
}.

Definition smack_cipso_new : smack_cipso :=
  {| cipso_has_long := false; mappings := [] |}.

(** A mapping as [calloc] returns it. *)
Definition calloc_mapping : cipso_mapping :=
  {| m_label := []; cats := replicate (Z.to_nat CAT_MAX_VALUE) 0%Z;
     ncats := 0; level := 0%Z |}.

(** *** [strtol(s, NULL, 10)] *)

Definition isspace (c : ascii) : bool :=
  bool_decide (c ∈ [ " "; "009"; "010"; "011"; "012"; "013" ]%char).

Definition digit_val (c : ascii) : option Z :=
  if (chr "0" <=? chr c)%Z && (chr c <=? chr "9")%Z
  then Some (chr c - chr "0")%Z else None.

Fixpoint skip_spaces (s : list ascii) : list ascii :=
  match s with
  | [] => []
  | c :: rest => if isspace c then skip_spaces rest else s
  end.

Fixpoint strtol_digits (s : list ascii) (acc : Z) : Z :=
  match s with
  | [] => acc
  | c :: rest =>
      match digit_val c with
      | Some d => strtol_digits rest (10 * acc + d)%Z
      | None => acc
      end
  end.

(** The range of [long], taken as 64 bits wide; the callers reject every
    value above 255, so the width does not show in their results. *)
Definition LONG_MAX : Z := 2 ^ 63 - 1.
Definition LONG_MIN : Z := - 2 ^ 63.

(** The value returned and whether [errno] was set ([ERANGE]). *)
Definition strtol (s : list ascii) : Z * bool :=
  let s := skip_spaces (c_str s) in
  let '(neg, s) :=
    match s with
    | "-"%char :: rest => (true, rest)
    | "+"%char :: rest => (false, rest)
    | _ => (false, s)
    end in
  let v := strtol_digits s 0 in
  let v := if neg then (- v)%Z else v in
  if decide (LONG_MAX < v)%Z then (LONG_MAX, true)
  else if decide (v < LONG_MIN)%Z then (LONG_MIN, true)
  else (v, false).

(** *** [smack_cipso_add_from_file] *)

Definition set_cat (m : cipso_mapping) (i : nat) (val : Z) : cipso_mapping :=
  {| m_label := m_label m; cats := <[i := val]> (cats m);
     ncats := ncats m; level := level m |}.

(** How the loop over the category tokens ends: normally, with the
    mapping filled and the final [i]; at [err_out]; or at a store
    [mapping->cats[i] = val] whose index lies past the end of the array,
    where the behaviour of the C program is undefined. *)
Inductive cats_result :=
  | CatsDone (m : cipso_mapping) (i : nat)
  | CatsError
  | CatsOverrun (i : nat).

(** The loop [for (i = 0; i < CAT_MAX_COUNT && cat != NULL; i++)]; [n]
    is [CAT_MAX_COUNT - i]. *)
Fixpoint cipso_cats (n : nat) (i : nat) (cat : option (list ascii))
    (ptr : list ascii) (m : cipso_mapping) : cats_result :=
  match n, cat with
  | O, _ => CatsDone m i
  | S _, None => CatsDone m i
  | S n', Some tok =>
      let '(val, errno) := strtol tok in
      if errno then CatsError
      else if bool_decide (val < 0)%Z || bool_decide (CAT_MAX_VALUE < val)%Z
      then CatsError
      else if decide (i < length (cats m)) then
        let '(cat', ptr') := strtok_r ptr in
        cipso_cats n' (S i) cat' ptr' (set_cat m i val)
      else CatsOverrun i
  end.

(** The result of the whole call: the value returned and the store it
    leaves, or the index of a store past the end of [cats]. *)
Inductive cipso_result :=
  | CipsoRet (ret : Z) (cipso : smack_cipso)
  | CipsoOverrun (i : nat).

Fixpoint cipso_add_loop (fuel : nat) (cipso : smack_cipso)
    (file : list ascii) : option cipso_result :=
  match fuel with
  | O => None
  | S fuel' =>
      match fgets BUF_SIZE file with
      | None => Some (CipsoRet 0 cipso)
      | Some (buf, file') =>
          let '(lbl, ptr) := strtok_r (c_str buf) in
          let '(lvl, ptr) := strtok_r ptr in
          let '(cat, ptr) := strtok_r ptr in
          match lbl, lvl with
          | Some lbl, Some lvl =>
              match get_label lbl with
              | None => Some (CipsoRet (-1) cipso)
              | Some (n, _) =>
                  let cipso1 :=
                    if decide (SHORT_LABEL_LEN < n)
                    then {| cipso_has_long := true;
                            mappings := mappings cipso |}
                    else cipso in
                  let '(val, errno) := strtol lvl in
                  if errno then Some (CipsoRet (-1) cipso1)
                  else if bool_decide (val < 0)%Z || bool_decide (LEVEL_MAX < val)%Z
                  then Some (CipsoRet (-1) cipso1)
                  else
                    let mapping :=
                      {| m_label := take n lbl; cats := cats calloc_mapping;
                         ncats := 0; level := val |} in
                    match cipso_cats CAT_MAX_COUNT 0 cat ptr mapping with
                    | CatsError => Some (CipsoRet (-1) cipso1)
                    | CatsOverrun i => Some (CipsoOverrun i)
                    | CatsDone m i =>
                        cipso_add_loop fuel'
                          {| cipso_has_long := cipso_has_long cipso1;
                             mappings :=
                               mappings cipso1 ++
                               [ {| m_label := m_label m; cats := cats m;
                                    ncats := i; level := level m |} ] |}
                          file'
                    end
              end
          | _, _ => Some (CipsoRet (-1) cipso)
          end
      end
  end.

Definition smack_cipso_add_from_file (cipso : smack_cipso)
    (file : list ascii) : option cipso_result :=
  cipso_add_loop (S (length file)) cipso file.

(** ** Pushing the mappings to the kernel: [smack_cipso_apply] *)

Definition NUM_LEN : nat := 4.
Definition CIPSO_POS (i : nat) : nat :=
  SMACK_LABEL_LEN + 1 + NUM_LEN + NUM_LEN + i * NUM_LEN.
Definition CIPSO_MAX_SIZE : nat := CIPSO_POS CAT_MAX_COUNT.

(** The decimal digits of a number that is not negative; an [int] has
    ten of them at most. *)
Fixpoint decimal_digits (fuel : nat) (n : Z) : list ascii :=
  match fuel with
  | O => []
  | S fuel' =>
      let d := ascii_of_N (Z.to_N (chr "0" + n mod 10)) in
      if (n <? 10)%Z then [d] else decimal_digits fuel' (n / 10) ++ [d]
  end.

(** ["%d"] *)
Definition decimal (v : Z) : list ascii :=
  if (v <? 0)%Z then "-"%char :: decimal_digits 10 (- v)
  else decimal_digits 10 v.

(** ["%-4d"] *)
Definition CIPSO_NUM_LEN_STR (v : Z) : list ascii :=
  pad_right NUM_LEN (decimal v).

(** [sprintf(&buf[offset], ...)]: the text and its terminator are stored
    from [offset] on.  A store past the end of the buffer, undefined in C,
    is left out. *)
Definition sprintf_at (buf : list ascii) (offset : nat)
    (text : list ascii) : list ascii :=
  list_inserts offset (text ++ [NUL]) buf.

(** The loop [for (i = 0; i < m->ncats; i++)]; [k] is [m->ncats - i].
    Reading [m->cats[i]] past the end of the array, undefined in C, gives
    0 here. *)
Fixpoint cipso_pack_cats (m : cipso_mapping) (k i : nat)
    (buf : list ascii) (offset : nat) : list ascii * nat :=
  match k with
  | O => (buf, offset)
  | S k' =>
      cipso_pack_cats m k' (S i)
        (sprintf_at buf offset
           (CIPSO_NUM_LEN_STR (default 0%Z (cats m !! i))))
        (offset + NUM_LEN)
  end.

(** One call of [write] that is not repeated: [false] when it returns a
    negative value, be it for [EINTR]; a short count goes unnoticed. *)
Definition write_once (fd : Z) (buf : list ascii) (w : world)
  : bool * world :=
  match script w with
  | [] => (true, mk_world [] (wlog w ++ [(fd, buf)]))
  | WTake n :: sc => (true, mk_world sc (wlog w ++ [(fd, take n buf)]))
  | WEintr :: sc => (false, mk_world sc (wlog w))
  | WError :: sc => (false, mk_world sc (wlog w))
  end.

(** The loop over the mappings; [buf] is cleared once, before the loop,
    and used again for every mapping. *)
Fixpoint cipso_apply_loop (fd : Z) (use_long : bool)
    (ms : list cipso_mapping) (buf : list ascii) (w : world) : Z * world :=
  match ms with
  | [] => (0%Z, w)
  | m :: rest =>
      let '(text, _) :=
        snprintf (SMACK_LABEL_LEN + 1)
          (if use_long then m_label m else pad_right 23 (m_label m)) in
      let buf := list_inserts 0 text buf in
      let offset := length (c_str buf) + 1 in
      let buf := sprintf_at buf offset (CIPSO_NUM_LEN_STR (level m)) in
      let offset := offset + NUM_LEN in
      let buf :=
        sprintf_at buf offset (CIPSO_NUM_LEN_STR (Z.of_nat (ncats m))) in
      let offset := offset + NUM_LEN in
      let '(buf, offset) := cipso_pack_cats m (ncats m) 0 buf offset in
      match write_once fd (take offset buf) w with
      | (false, w') => ((-1)%Z, w')
      | (true, w') => cipso_apply_loop fd use_long rest buf w'
      end
  end.

(** The CIPSO interfaces of the policy filesystem. *)
Record cipsofs := mk_cipsofs {
  cipso_mnt_ok : bool;
  cipso2 : open_result;
  cipso : open_result
}.

Definition smack_cipso_apply (fs : cipsofs) (c : smack_cipso) (w : world)
  : Z * world :=
  if negb (cipso_mnt_ok fs) then ((-1)%Z, w)
  else
    match open_smackfs_file (cipso2 fs) (cipso fs) with
    | None => ((-1)%Z, w)
    | Some (fd, use_long) =>
        if negb use_long && cipso_has_long c then ((-1)%Z, w)
        else cipso_apply_loop fd use_long (mappings c)
               (replicate CIPSO_MAX_SIZE NUL) w
    end.

(** ** Asking the kernel: [smack_have_access] *)

(** The outcome of [read(fd, buf, 1)]: an error, or the bytes read, one
    at most. *)
Inductive read_result := ReadError | ReadBytes (bytes : list ascii).

(** The access interfaces of the policy filesystem and what reading the
    answer gives. *)
Record accessfs := mk_accessfs {
  access_mnt_ok : bool;
  access2 : open_result;
  access : open_result;
  answer : read_result
}.

(** The value returned (-1, 0 or 1) and the world left. *)
Definition smack_have_access (fs : accessfs)
    (subject object access_type : list ascii) (w : world) : Z * world :=
  if negb (access_mnt_ok fs) then ((-1)%Z, w)
  else
    match get_label subject, get_label object with
    | Some (slen, _), Some (olen, _) =>
        match open_smackfs_file (access2 fs) (access fs) with
        | None => ((-1)%Z, w)
        | Some (fd, use_long) =>
            if negb use_long &&
               (bool_decide (SHORT_LABEL_LEN < slen) ||
                bool_decide (SHORT_LABEL_LEN < olen))
            then ((-1)%Z, w)
            else
              match str_to_access_code access_type with
              | None => ((-1)%Z, w)
              | Some code =>
                  let str := access_code_to_str code in
                  let '(buf, _) :=
                    snprintf (LOAD_LEN + 1)
                      (if use_long
                       then KERNEL_LONG_FORMAT (c_str subject)
                              (c_str object) str
                       else KERNEL_SHORT_FORMAT (c_str subject)
                              (c_str object) str) in
                  match write_once fd (c_str buf) w with
                  | (false, w') => ((-1)%Z, w')
                  | (true, w') =>
                      match answer fs with
                      | ReadError => ((-1)%Z, w')
                      | ReadBytes bytes =>
                          let buf := list_inserts 0 (take 1 bytes) buf in
                          (if bool_decide (head buf = Some "1"%char)
                           then 1%Z else 0%Z, w')
                      end
                  end
              end
        end
    | _, _ => ((-1)%Z, w)
    end.

(** ** Writing a label: [smack_set_label_for_self], [smack_revoke_subject] *)

(** [open(SELF_LABEL_FILE, O_WRONLY)] gives [self_attr]. *)
Definition smack_set_label_for_self (self_attr : open_result)
    (lbl : list ascii) (w : world) : Z * world :=
  match get_label lbl with
  | None => ((-1)%Z, w)
  | Some (n, _) =>
      match self_attr with
      | Opened fd =>
          match write_once (Z.of_nat fd) (take n lbl) w with
          | (false, w') => ((-1)%Z, w')
          | (true, w') => (0%Z, w')
          end
      | _ => ((-1)%Z, w)
      end
  end.

(** [mnt] tells whether [init_smackfs_mnt] succeeds, [revoke] what
    opening [revoke-subject] gives. *)
Definition smack_revoke_subject (mnt : bool) (revoke : open_result)
    (subject : list ascii) (w : world) : Z * world :=
  if negb mnt then ((-1)%Z, w)
  else
    match get_label subject with
    | None => ((-1)%Z, w)
    | Some (n, _) =>
        match revoke with
        | Opened fd =>
            match write_once (Z.of_nat fd) (take n subject) w with
            | (false, w') => ((-1)%Z, w')
            | (true, w') => (0%Z, w')
            end
        | _ => ((-1)%Z, w)
        end
    end.

(** * The vocabulary of the properties *)

(** ** Label syntax and the label table *)

(** The hash of [get_label] as a fold, and the bucket it selects. *)
Definition djb2_step (h : Z) (c : ascii) : Z :=
  ((Z.shiftl h 5 + h + chr c) mod 2 ^ 32)%Z.

Definition bucket (s : list ascii) : Z :=
  (foldl djb2_step 5381%Z s mod DICT_HASH_SIZE)%Z.

(** The strings interned in an engine, in the order of their
    identifiers. *)
Definition names (h : smack_accesses) : list (list ascii) :=
  label <$> labels h.

Definition rule_ok (h : smack_accesses) (r : smack_rule) : Prop :=
  object_id r < length (labels h) ∧
  (0 ≤ allow_code r ≤ 63)%Z ∧ (0 ≤ deny_code r ≤ 63)%Z.

(** What holds of every engine the library builds. *)
Record wf (h : smack_accesses) : Prop := mk_wf {
  wf_label : ∀ i lab, labels h !! i = Some lab →
    id lab = i ∧ len lab = length (label lab) ∧
    valid_label (label lab) = true ∧ i ∈ chain h (bucket (label lab));
  wf_nodup : NoDup (names h);
  wf_rules : ∀ lab r, lab ∈ labels h → r ∈ rules lab → rule_ok h r;
  wf_count : (labels_cnt h ≤ MAX_LABELS_CNT)%Z;
  wf_long_sound : has_long h = true →
    ∃ lab, lab ∈ labels h ∧ SHORT_LABEL_LEN < len lab;
  wf_long_rules : ∀ lab r, lab ∈ labels h → r ∈ rules lab →
    SHORT_LABEL_LEN < len lab ∨
    SHORT_LABEL_LEN < len (deref h (object_id r)) →
    has_long h = true
}.

(** The label [label_add] creates for a string. *)
Definition fresh_label (h : smack_accesses) (lbl : list ascii) : smack_label :=
  {| len := length (c_str lbl); id := length (labels h);
     label := c_str lbl; rules := [] |}.

(** ** Rules as the callers see them *)

(** A rule as the callers see it: the two label strings and the two
    masks, without identifiers. *)
Record arule := mk_arule {
  r_subject : list ascii;
  r_object : list ascii;
  r_allow : Z;
  r_deny : Z
}.

Global Instance arule_eq_dec : EqDecision arule.
Proof. solve_decision. Defined.

Definition rule_view (h : smack_accesses) (subject : smack_label)
    (r : smack_rule) : arule :=
  {| r_subject := label subject; r_object := label (deref h (object_id r));
     r_allow := allow_code r; r_deny := deny_code r |}.

Definition rules_from (h : smack_accesses) (ls : list smack_label)
  : list arule :=
  lab ← ls; rule_view h lab <$> rules lab.

(** The rules of an engine in the order serialization visits them:
    subjects by identifier, the rules of a subject in insertion order. *)
Definition rules_of (h : smack_accesses) : list arule :=
  rules_from h (labels h).

(** The rules of one subject, in that order. *)
Definition rules_for (h : smack_accesses) (t : list ascii) : list arule :=
  filter (λ r, r_subject r = t) (rules_of h).

(** The deny mask [accesses_add] stores next to the allow mask [allow]. *)
Definition deny_for (deny_access_type : option (list ascii)) (allow : Z)
  : option Z :=
  match deny_access_type with
  | Some deny_str => str_to_access_code deny_str
  | None => Some (Z.land ACCESS_TYPE_ALL (Z.lnot allow))
  end.

(** ** Engines the library can build *)

(** One call of an operation that changes an engine.  The engine is the
    one the call leaves, whether it succeeds or not. *)
Inductive op_step : smack_accesses → smack_accesses → Prop :=
  | step_add h s o a :
      op_step h (smack_accesses_add h s o a).2
  | step_add_modify h s o a d :
      op_step h (smack_accesses_add_modify h s o a d).2
  | step_add_from_file h file ret h' :
      smack_accesses_add_from_file h file = Some (ret, h') →
      op_step h h'.

(** The engines reached from [smack_accesses_new]. *)
Definition reachable (h : smack_accesses) : Prop :=
  rtc op_step smack_accesses_new h.

(** Bulk loading is a sequence of calls of [accesses_add]. *)
Definition add_step (h h' : smack_accesses) : Prop :=
  ∃ s o a d, h' = (accesses_add h s o a d).2.

(** ** The records of a serialization pass *)

(** What the two loops of [accesses_print] do with the records they
    format, one after the other. *)
Fixpoint emit (recs : list (option (Z * list ascii))) (w : world)
  : Z * world :=
  match recs with
  | [] => (0%Z, w)
  | None :: _ => ((-1)%Z, w)
  | Some (fd, buf) :: rest =>
      match write_loop fd buf (script w) (wlog w) with
      | (false, w') => ((-1)%Z, w')
      | (true, w') => emit rest w'
      end
  end.

(** The records of the rules of the labels [ls], in traversal order. *)
Definition records (handle : smack_accesses) (clear : bool)
    (load_fd change_fd : Z) (use_long add_lf : bool)
    (ls : list smack_label) : list (option (Z * list ascii)) :=
  lab ← ls;
  rule_record handle clear load_fd change_fd use_long add_lf lab <$> rules lab.

(** The records before the first one that cannot be formatted. *)
Fixpoint until_none {A} (l : list (option A)) : list A :=
  match l with
  | Some x :: l' => x :: until_none l'
  | _ => []
  end.

Definition line_end (add_lf : bool) : list ascii :=
  if add_lf then [LF] else [].

(** The three-field record carrying the access code [allow]. *)
Definition load_text (use_long : bool) (r : arule) (allow : Z) : list ascii :=
  if use_long
  then KERNEL_LONG_FORMAT (r_subject r) (r_object r)
         (access_code_to_str allow)
  else KERNEL_SHORT_FORMAT (r_subject r) (r_object r)
         (access_code_to_str allow).

(** The four-field record. *)
Definition modify_text (r : arule) : list ascii :=
  KERNEL_MODIFY_FORMAT (r_subject r) (r_object r)
    (access_code_to_str (r_allow r)) (access_code_to_str (r_deny r)).

Definition is_modify_rule (r : arule) : bool :=
  bool_decide (Z.lor (r_allow r) (r_deny r) ≠ ACCESS_TYPE_ALL).

(** What [rule_record] gives for the rules of a well-formed engine, whose
    labels are short enough for the text to fit the buffer. *)
Definition arule_record (clear : bool) (load_fd change_fd : Z)
    (use_long add_lf : bool) (r : arule) : option (Z * list ascii) :=
  if is_modify_rule r && negb clear then
    if decide (change_fd < 0)%Z then None
    else Some (change_fd, modify_text r ++ line_end add_lf)
  else
    Some (load_fd,
          load_text use_long r (if clear then 0%Z else r_allow r)
          ++ line_end add_lf).

(** The rules met before the first modify rule. *)
Fixpoint load_prefix (rs : list arule) : list arule :=
  match rs with
  | [] => []
  | r :: rs' => if is_modify_rule r then [] else r :: load_prefix rs'
  end.

(** The load records of [rs] on the descriptor and in the format the
    filesystem [fs] leads to, each carrying the code [allow r]. *)
Definition load_records (fs : smackfs) (allow : arule → Z)
    (rs : list arule) : list (Z * list ascii) :=
  match open_smackfs_file (load2 fs) (load fs) with
  | Some (load_fd, use_long) =>
      (λ r, (load_fd, load_text use_long r (allow r))) <$> rs
  | None => []
  end.

(** The line [smack_accesses_save] writes for a rule. *)
Definition save_line (r : arule) : list ascii :=
  (if is_modify_rule r then modify_text r
   else load_text true r (r_allow r)) ++ [LF].

(** The text [smack_accesses_save] writes for a list of rules. *)
Definition save_text (rs : list arule) : list ascii :=
  concat (save_line <$> rs).

(** ** The text of saved rules *)

(** A token: not empty and free of delimiters and of NUL. *)
Definition token (t : list ascii) : Prop :=
  t ≠ [] ∧ Forall (λ c, is_delim c = false ∧ c ≠ NUL) t.

(** What [smack_accesses_add_from_file] does with the buffer of one
    line, [K] being the rest of the loop. *)
Definition line_step (K : smack_accesses → option (Z * smack_accesses))
    (accesses : smack_accesses) (buf : list ascii)
  : option (Z * smack_accesses) :=
  let '(subject, ptr) := strtok_r (c_str buf) in
  let '(object, ptr) := strtok_r ptr in
  let '(access, ptr) := strtok_r ptr in
  let '(access2, ptr) := strtok_r ptr in
  match subject, object, access, fst (strtok_r ptr) with
  | Some subject, Some object, Some access, None =>
      let '(ret, accesses') :=
        match access2 with
        | None => smack_accesses_add accesses subject object access
        | Some access2 =>
            smack_accesses_add_modify accesses subject object access access2
        end in
      if decide (ret = 0%Z) then K accesses' else Some ((-1)%Z, accesses')
  | _, _, _, _ => Some ((-1)%Z, accesses)
  end.

Definition rule_valid (r : arule) : Prop :=
  valid_label (r_subject r) = true ∧ valid_label (r_object r) = true ∧
  (0 ≤ r_allow r ≤ 63)%Z ∧ (0 ≤ r_deny r ≤ 63)%Z.

(** The line of a rule without its line feed, and the deny field it
    carries, if any. *)
Definition line_body (r : arule) : list ascii :=
  if is_modify_rule r then modify_text r else load_text true r (r_allow r).

Definition line_deny (r : arule) : option (list ascii) :=
  if is_modify_rule r then Some (access_code_to_str (r_deny r)) else None.

(** The turns of the loop the line of a rule takes: one, or two when
    the line fills the buffer and leaves its line feed to the next
    [fgets]. *)
Definition line_turns (r : arule) : nat :=
  if decide (length (line_body r) < LOAD_LEN) then 1 else 2.

(** A rule as it comes back: a rule saved as a load record returns with
    the deny mask [smack_accesses_add] derives from its allow mask. *)
Definition reload (r : arule) : arule :=
  {| r_subject := r_subject r; r_object := r_object r;
     r_allow := r_allow r;
     r_deny := if is_modify_rule r then r_deny r
               else Z.land ACCESS_TYPE_ALL (Z.lnot (r_allow r)) |}.

(** ** Two statements that do not hold *)


(** The reloaded rules are the saved ones, deny masks included. *)
Definition roundtrip_exact : Prop :=
  ∀ h fd w' h',
    reachable h →
    smack_accesses_save h fd quiet = (0%Z, w') →
    smack_accesses_add_from_file smack_accesses_new (delivered fd (wlog w'))
    = Some (0%Z, h') →
    ∀ t, rules_for h' t = rules_for h t.

(** ** Sample engines, filesystems and lines *)

Definition str (s : string) : list ascii := list_ascii_of_string s.

(** One load rule, then one modify rule, of the same subject. *)
Definition modify_engine : smack_accesses :=
  (smack_accesses_add_modify
     (smack_accesses_add smack_accesses_new (str "a") (str "b") (str "r")).2
     (str "a") (str "c") (str "rw") (str "x")).2.

(** One rule whose object is 24 bytes long. *)
Definition long_engine : smack_accesses :=
  (smack_accesses_add smack_accesses_new (str "a")
     (str "BBBBBBBBBBBBBBBBBBBBBBBB") (str "rx")).2.

(** A rule whose masks overlap and together give all bits: allow [rw],
    deny [rwxatl]. *)
Definition overlap_engine : smack_accesses :=
  (smack_accesses_add_modify smack_accesses_new
     (str "a") (str "b") (str "rw") (str "rwxatl")).2.

(** An engine left by a failed call: the subject, 25 bytes long, was
    interned before the object was rejected. *)
Definition long_subject_engine : smack_accesses :=
  (smack_accesses_add smack_accesses_new
     (str "AAAAAAAAAAAAAAAAAAAAAAAAA") (str "-") (str "r")).2.

(** The long load interface is there; change-rule is missing, or there
    but failing to open. *)
Definition fs_no_change_rule : smackfs :=
  {| mnt_ok := true; load2 := Opened 3; load := NoEntry;
     change_rule := NoEntry |}.


(** A line with the label [L], the level 7 and [n] categories, all 1. *)
Definition cipso_line (n : nat) : list ascii :=
  str "L 7" ++ concat (replicate n (str " 1")) ++ [LF].

(** ** The fields of a line *)

(** The maximal runs of characters other than the delimiters
    [" \t\n"], in order; [cur] is the run being read. *)
Fixpoint split_fields (s cur : list ascii) : list (list ascii) :=
  match s with
  | [] => match cur with [] => [] | _ :: _ => [cur] end
  | c :: rest =>
      if is_delim c then
        match cur with
        | [] => split_fields rest []
        | _ :: _ => cur :: split_fields rest []
        end
      else split_fields rest (cur ++ [c])
  end.

Definition fields (s : list ascii) : list (list ascii) := split_fields s [].


(** The record [smack_accesses_apply] writes for a rule and the
    descriptor it goes to when both interfaces are open. *)
Definition apply_record (load_fd change_fd : Z) (use_long : bool)
    (r : arule) : Z * list ascii :=
  if is_modify_rule r then (change_fd, modify_text r)
  else (load_fd, load_text use_long r (r_allow r)).

(** A mapping as [smack_cipso_add_from_file] stores them. *)
Definition mapping_ok (m : cipso_mapping) : Prop :=
  valid_label (m_label m) = true ∧
  (0 ≤ level m ≤ LEVEL_MAX)%Z ∧
  length (cats m) = Z.to_nat CAT_MAX_VALUE ∧
  ncats m ≤ length (cats m) ∧
  Forall (λ v, 0 ≤ v ≤ CAT_MAX_VALUE)%Z (cats m).

(** The mappings are such, and [has_long] is set when one of the labels
    is longer than the short format holds. *)
Definition cipso_wf (c : smack_cipso) : Prop :=
  Forall mapping_ok (mappings c) ∧
  (Exists (λ m, SHORT_LABEL_LEN < length (m_label m)) (mappings c) →
   cipso_has_long c = true).

(** The record of one mapping: the label, padded to 23 columns for the
    short interface, a NUL, then the level, the number of categories and
    the categories, each in a field of four columns. *)
Definition cipso_record (use_long : bool) (m : cipso_mapping) : list ascii :=
  (if use_long then m_label m else pad_right 23 (m_label m)) ++ [NUL] ++
  CIPSO_NUM_LEN_STR (level m) ++
  CIPSO_NUM_LEN_STR (Z.of_nat (ncats m)) ++
  mjoin (CIPSO_NUM_LEN_STR <$> take (ncats m) (cats m)).

(** One [write] for each record, stopping at the first that fails. *)
Fixpoint write_each (fd : Z) (recs : list (list ascii)) (w : world)
  : Z * world :=
  match recs with
  | [] => (0%Z, w)
  | r :: rest =>
      match write_once fd r w with
      | (false, w') => ((-1)%Z, w')
      | (true, w') => write_each fd rest w'
      end
  end.

(** What the body of the loop of [smack_cipso_apply] leaves in the
    buffer for one mapping, and the offset it reaches. *)
Definition cipso_fill (use_long : bool) (m : cipso_mapping)
    (buf : list ascii) : list ascii * nat :=
  let '(text, _) :=
    snprintf (SMACK_LABEL_LEN + 1)
      (if use_long then m_label m else pad_right 23 (m_label m)) in
  let buf := list_inserts 0 text buf in
  let offset := length (c_str buf) + 1 in
  let buf := sprintf_at buf offset (CIPSO_NUM_LEN_STR (level m)) in
  let offset := offset + NUM_LEN in
  let buf :=
    sprintf_at buf offset (CIPSO_NUM_LEN_STR (Z.of_nat (ncats m))) in
  let offset := offset + NUM_LEN in
  cipso_pack_cats m (ncats m) 0 buf offset.

(** * Properties *)

(** ** C strings *)

Lemma c_str_no_NUL (s : list ascii) : NUL ∉ c_str s.
Proof.
  induction s as [|c s IH]; simpl; [apply not_elem_of_nil|].
  destruct (decide (c = NUL)); [apply not_elem_of_nil|].
  apply not_elem_of_cons; split; [congruence | exact IH].
Qed.

Lemma c_str_id (s : list ascii) : NUL ∉ s → c_str s = s.
Proof.
  induction s as [|c s IH]; simpl; [done|].
  intros [Hc Hs]%not_elem_of_cons.
  destruct (decide (c = NUL)); [congruence|]. by rewrite IH.
Qed.

Lemma c_str_idemp (s : list ascii) : c_str (c_str s) = c_str s.
Proof. apply c_str_id, c_str_no_NUL. Qed.

Lemma take_length_c_str (s : list ascii) : take (length (c_str s)) s = c_str s.
Proof.
  induction s as [|c s IH]; simpl; [done|].
  destruct (decide (c = NUL)); simpl; [done | by rewrite IH].
Qed.

(** ** The codec *)

(** Every case analysis on a character below is over its eight bits. *)
Ltac each_char c := destruct c as [[] [] [] [] [] [] [] []].

(** Membership in a list written out. *)
Ltac in_list :=
  repeat first [apply list_elem_of_here | apply list_elem_of_further].

Lemma column_ok_cases (letter c : ascii) :
  column_ok letter c = true → tolower c = letter ∨ c = "-"%char.
Proof.
  unfold column_ok. intros [H|H]%orb_true_iff.
  - left. by apply bool_decide_eq_true in H.
  - right. by apply bool_decide_eq_true in H.
Qed.

Lemma tolower_cases (c : ascii) (l : ascii) :
  l ∈ [ "r"; "w"; "x"; "a"; "t"; "l" ]%char → tolower c = l →
  c = l ∨ c = ascii_of_N (N_of_ascii l - 32).
Proof.
  intros Hl Hc. subst l. revert Hl.
  each_char c; vm_compute; intros Hl;
    try (left; reflexivity); try (right; reflexivity);
    exfalso; repeat (apply elem_of_cons in Hl as [Hl|Hl]; [discriminate Hl|]);
    by apply elem_of_nil in Hl.
Qed.

(** One turn of the loop of [str_to_access_code]. *)
Lemma str_to_access_code_step (c : ascii) (rest : list ascii) (code : Z) :
  c ≠ NUL →
  (access_char c = false ∧ str_to_access_code_from (c :: rest) code = None) ∨
  (access_char c = true ∧
   ∃ m, (0 ≤ m ≤ 63)%Z ∧
        str_to_access_code_from (c :: rest) code
        = str_to_access_code_from rest (Z.lor code m)).
Proof.
  intros Hc.
  each_char c; try (exfalso; apply Hc; reflexivity);
    first [ left; split; reflexivity
          | right; split; [reflexivity|];
            first [ refine (ex_intro _ _ (conj _ eq_refl)); by vm_compute
                  | exists 0%Z; rewrite Z.lor_0_r; by split ] ].
Qed.

Lemma str_to_access_code_from_None (s : list ascii) (code : Z) :
  str_to_access_code_from s code = None ↔
  Exists (λ c, access_char c = false) (c_str s).
Proof.
  revert code. induction s as [|c s IH]; intros code.
  - simpl. split; [discriminate | intros H; inversion H].
  - destruct (decide (c = NUL)) as [->|Hc].
    + simpl. split; [discriminate | intros H; inversion H].
    + cbn [c_str]. rewrite decide_False by done. rewrite Exists_cons.
      destruct (str_to_access_code_step c s code Hc)
        as [[Hbad ->]|[Hok (m & _ & ->)]].
      * split; [by left | done].
      * rewrite IH. split; [by right|]. intros [H|H]; [congruence | done].
Qed.

(** Facts about six-bit masks, checked on all of them. *)
Lemma six_bits (P : Z → bool) :
  forallb P (seqZ 0 64) = true → ∀ a, (0 ≤ a ≤ 63)%Z → P a = true.
Proof.
  intros H a Ha. apply (proj1 (List.forallb_forall _ _) H).
  apply list_elem_of_In, elem_of_seqZ. lia.
Qed.

Lemma lor_six_bits (a b : Z) :
  (0 ≤ a ≤ 63)%Z → (0 ≤ b ≤ 63)%Z → (0 ≤ Z.lor a b ≤ 63)%Z.
Proof.
  intros Ha Hb.
  pose proof (six_bits
    (λ a, forallb (λ b, bool_decide (0 ≤ Z.lor a b ≤ 63)%Z) (seqZ 0 64))
    eq_refl a Ha) as H.
  cbv beta in H.
  exact (proj1 (bool_decide_eq_true _) (six_bits _ H b Hb)).
Qed.

Lemma complement_six_bits (a : Z) :
  (0 ≤ a ≤ 63)%Z →
  (0 ≤ Z.land ACCESS_TYPE_ALL (Z.lnot a) ≤ 63)%Z ∧
  Z.lor a (Z.land ACCESS_TYPE_ALL (Z.lnot a)) = ACCESS_TYPE_ALL ∧
  Z.land a (Z.land ACCESS_TYPE_ALL (Z.lnot a)) = 0%Z.
Proof.
  intros Ha.
  exact (proj1 (bool_decide_eq_true _)
    (six_bits (λ a, bool_decide
       ((0 ≤ Z.land ACCESS_TYPE_ALL (Z.lnot a) ≤ 63)%Z ∧
        Z.lor a (Z.land ACCESS_TYPE_ALL (Z.lnot a)) = ACCESS_TYPE_ALL ∧
        Z.land a (Z.land ACCESS_TYPE_ALL (Z.lnot a)) = 0%Z))
       eq_refl a Ha)).
Qed.

Lemma str_to_access_code_from_range (s : list ascii) (code a : Z) :
  (0 ≤ code ≤ 63)%Z → str_to_access_code_from s code = Some a →
  (0 ≤ a ≤ 63)%Z.
Proof.
  revert code. induction s as [|c s IH]; intros code Hcode.
  - by intros [= <-].
  - destruct (decide (c = NUL)) as [->|Hc]; [by intros [= <-]|].
    destruct (str_to_access_code_step c s code Hc)
      as [[_ ->]|[_ (m & Hm & ->)]]; [done|].
    apply IH. by apply lor_six_bits.
Qed.

Lemma str_to_access_code_range (s : list ascii) (a : Z) :
  str_to_access_code s = Some a → (0 ≤ a ≤ 63)%Z.
Proof. by apply str_to_access_code_from_range. Qed.

Lemma column_ok_inv (letter c : ascii) :
  letter ∈ [ "r"; "w"; "x"; "a"; "t"; "l" ]%char →
  column_ok letter c = true →
  c = letter ∨ c = ascii_of_N (N_of_ascii letter - 32) ∨ c = "-"%char.
Proof.
  intros Hl [H|H]%column_ok_cases; [|by right; right].
  destruct (tolower_cases c letter Hl H); [by left | by right; left].
Qed.

(** What formatting gives for every six-bit code: a well-formed string,
    in lower case already, that parses back to the code. *)
Lemma access_code_to_str_canonical (code : Z) :
  (0 ≤ code ≤ 63)%Z →
  well_formed_access (access_code_to_str code) = true ∧
  canonical_lowercase (access_code_to_str code) = access_code_to_str code ∧
  str_to_access_code (access_code_to_str code) = Some code.
Proof.
  intros H.
  exact (proj1 (bool_decide_eq_true _)
    (six_bits (λ c, bool_decide
       (well_formed_access (access_code_to_str c) = true ∧
        canonical_lowercase (access_code_to_str c) = access_code_to_str c ∧
        str_to_access_code (access_code_to_str c) = Some c))
       eq_refl code H)).
Qed.

(** C6.  For a well-formed six-character permission string (each column
    holding its letter of r, w, x, a, t, l in either case, or a dash),
    formatting the parsed code gives the string in lower case; parsing
    fails exactly when the string holds a character other than those
    letters and the dash; and whatever string was parsed, in whatever
    order and length, formatting the code gives a well-formed lower-case
    string that parses to the same code. *)
Theorem access_codec_roundtrip (s : list ascii) :
  (well_formed_access s = true →
   access_code_to_str <$> str_to_access_code s
   = Some (canonical_lowercase s)) ∧
  (str_to_access_code s = None ↔
   Exists (λ c, access_char c = false) (c_str s)) ∧
  (∀ code, str_to_access_code s = Some code →
     well_formed_access (access_code_to_str code) = true ∧
     canonical_lowercase (access_code_to_str code)
     = access_code_to_str code ∧
     str_to_access_code (access_code_to_str code) = Some code).
Proof.
  split; [|split; [apply str_to_access_code_from_None|]].
  2: { intros code Hcode.
       by apply access_code_to_str_canonical, (str_to_access_code_range s). }
  destruct s as [|c0 [|c1 [|c2 [|c3 [|c4 [|c5 [|c6 s]]]]]]];
    try discriminate.
  cbn [well_formed_access]. rewrite !andb_true_iff.
  intros [[[[[H0 H1] H2] H3] H4] H5].
  apply column_ok_inv in H0; [|in_list].
  apply column_ok_inv in H1; [|in_list].
  apply column_ok_inv in H2; [|in_list].
  apply column_ok_inv in H3; [|in_list].
  apply column_ok_inv in H4; [|in_list].
  apply column_ok_inv in H5; [|in_list].
  destruct H0 as [->|[->| ->]], H1 as [->|[->| ->]], H2 as [->|[->| ->]],
    H3 as [->|[->| ->]], H4 as [->|[->| ->]], H5 as [->|[->| ->]];
    vm_compute; reflexivity.
Qed.

Lemma access_codec_roundtrip_witness :
  let s := list_ascii_of_string "rW-a-L" in
  well_formed_access s = true ∧
  access_code_to_str <$> str_to_access_code s = Some (canonical_lowercase s).
Proof.
  split; [reflexivity|].
  apply (access_codec_roundtrip (list_ascii_of_string "rW-a-L")).
  reflexivity.
Defined.

(** ** Label syntax *)

Lemma get_label_scan_step (n : nat) (c : ascii) (rest : list ascii)
    (i : nat) (h : Z) :
  get_label_scan (S n) (c :: rest) i h =
  if label_char c then get_label_scan n rest (S i) (djb2_step h c)
  else if decide (c = NUL) then Some (i, h) else None.
Proof. each_char c; reflexivity. Qed.

Lemma label_char_not_NUL (c : ascii) : label_char c = true → c ≠ NUL.
Proof. intros H ->. discriminate H. Qed.

Lemma label_chars_no_NUL (s : list ascii) :
  forallb label_char s = true → NUL ∉ s.
Proof.
  induction s as [|c s IH]; simpl; [intros _; apply not_elem_of_nil|].
  intros [Hc Hs]%andb_true_iff. apply not_elem_of_cons. split; [|by apply IH].
  intros <-. discriminate Hc.
Qed.

Lemma get_label_scan_spec (n : nat) (s : list ascii) (i : nat) (h : Z) :
  get_label_scan n s i h =
  if forallb label_char (take n (c_str s))
  then Some (i + min n (length (c_str s)),
             foldl djb2_step h (take n (c_str s)))
  else None.
Proof.
  revert s i h. induction n as [|n IH]; intros s i h.
  - rewrite take_0. cbn. by rewrite Nat.add_0_r.
  - destruct s as [|c rest]; [cbn; by rewrite Nat.add_0_r|].
    rewrite get_label_scan_step. cbn [c_str].
    destruct (label_char c) eqn:Hc.
    + rewrite decide_False by by apply label_char_not_NUL.
      rewrite IH. cbn [take forallb length foldl]. rewrite Hc. cbn [andb].
      destruct (forallb label_char (take n (c_str rest))); [|done].
      do 2 f_equal. lia.
    + destruct (decide (c = NUL)); [cbn; by rewrite Nat.add_0_r|].
      cbn [take forallb]. by rewrite Hc.
Qed.

(** [get_label] accepts exactly the labels the spec calls valid, and
    reports their length and bucket. *)
Lemma get_label_spec (s : list ascii) :
  get_label s =
  if valid_label (c_str s)
  then Some (length (c_str s), bucket (c_str s)) else None.
Proof.
  destruct s as [|c rest]; [done|].
  unfold get_label. destruct (decide (c = NUL)) as [->|Hnul]; [done|].
  destruct (decide (c = "-"%char)) as [->|Hdash].
  { cbn [c_str]. rewrite decide_False by done.
    unfold valid_label. cbn [head]. rewrite bool_decide_eq_true_2 by done.
    by rewrite andb_false_r. }
  rewrite get_label_scan_spec.
  assert (Hcs : c_str (c :: rest) = c :: c_str rest)
    by (cbn [c_str]; by rewrite decide_False).
  set (cs := c_str (c :: rest)) in *.
  assert (Hlen : 1 ≤ length cs) by (rewrite Hcs; cbn; lia).
  assert (Hhd : negb (bool_decide (head cs = Some "-"%char)) = true).
  { rewrite Hcs. cbn [head]. rewrite bool_decide_eq_false_2; [done|congruence]. }
  unfold valid_label. rewrite Hhd, andb_true_r.
  rewrite (proj2 (Nat.leb_le 1 (length cs)) Hlen). cbn [andb].
  destruct (decide (length cs ≤ SMACK_LABEL_LEN)) as [Hle|Hgt].
  - rewrite (proj2 (Nat.leb_le _ _) Hle). cbn [andb].
    rewrite take_ge by lia.
    destruct (forallb label_char cs); [|done].
    rewrite decide_True by lia.
    unfold bucket. do 2 f_equal. lia.
  - rewrite (proj2 (Nat.leb_gt _ _)) by lia. cbn [andb].
    destruct (forallb label_char (take (SMACK_LABEL_LEN + 1) cs)); [|done].
    rewrite decide_False; [done|lia].
Qed.

Lemma valid_label_c_str (s : list ascii) : valid_label s = true → c_str s = s.
Proof.
  unfold valid_label. rewrite !andb_true_iff. intros [[_ H] _].
  by apply c_str_id, label_chars_no_NUL.
Qed.

Lemma valid_label_length (s : list ascii) :
  valid_label s = true → 1 ≤ length s ≤ SMACK_LABEL_LEN.
Proof.
  unfold valid_label. rewrite !andb_true_iff.
  intros [[[H1 H2] _] _]. apply Nat.leb_le in H1, H2. lia.
Qed.

Lemma get_label_valid (s : list ascii) :
  valid_label s = true → get_label s = Some (length s, bucket s).
Proof.
  intros H. rewrite get_label_spec, (valid_label_c_str s H). by rewrite H.
Qed.

Lemma get_label_Some (s : list ascii) (n : nat) (hv : Z) :
  get_label s = Some (n, hv) →
  valid_label (c_str s) = true ∧ n = length (c_str s) ∧
  hv = bucket (c_str s) ∧ take n s = c_str s.
Proof.
  rewrite get_label_spec. destruct (valid_label (c_str s)); [|done].
  intros [= <- <-]. by rewrite take_length_c_str.
Qed.

(** ** The label table *)

Lemma wf_new : wf smack_accesses_new.
Proof.
  split; cbn.
  - intros i lab H. by rewrite lookup_nil in H.
  - apply NoDup_nil_2.
  - intros lab r H. by apply elem_of_nil in H.
  - done.
  - done.
  - intros lab r H. by apply elem_of_nil in H.
Qed.

Lemma chain_find_Some (ls : list smack_label) (lbl : list ascii)
    (ch : list nat) (p : nat) :
  chain_find ls lbl ch = Some p →
  ∃ lab, ls !! p = Some lab ∧ c_str lbl = c_str (label lab).
Proof.
  induction ch as [|q ch IH]; cbn; [done|].
  destruct (ls !! q) as [lab|] eqn:Hq; [|exact IH].
  unfold strcmp_eq. case_bool_decide as Heq; [|exact IH].
  intros [= <-]. eauto.
Qed.

Lemma chain_find_None (ls : list smack_label) (lbl : list ascii)
    (ch : list nat) :
  chain_find ls lbl ch = None →
  ∀ p lab, p ∈ ch → ls !! p = Some lab → c_str lbl ≠ c_str (label lab).
Proof.
  induction ch as [|q ch IH]; cbn; intros Hf p lab Hp Hlab.
  - by apply elem_of_nil in Hp.
  - destruct (ls !! q) as [lab'|] eqn:Hq.
    + unfold strcmp_eq in Hf. case_bool_decide as Heq; [done|].
      apply elem_of_cons in Hp as [->|Hp]; [|by eapply IH].
      rewrite Hq in Hlab. by injection Hlab as <-.
    + apply elem_of_cons in Hp as [->|Hp]; [congruence | by eapply IH].
Qed.

(** The outcomes of [label_add] on a well-formed engine: NULL and the
    engine untouched; a label met before; or a new label, stored at the
    end of the array and of its hash chain. *)
Lemma label_add_cases (h : smack_accesses) (lbl : list ascii) :
  wf h →
  match label_add h lbl with
  | (None, h') =>
      h' = h ∧
      (labels_cnt h = MAX_LABELS_CNT ∨ valid_label (c_str lbl) = false)
  | (Some p, h') =>
      labels_cnt h ≠ MAX_LABELS_CNT ∧ valid_label (c_str lbl) = true ∧
      ((h' = h ∧ ∃ lab, labels h !! p = Some lab ∧ label lab = c_str lbl) ∨
       (p = length (labels h) ∧ (c_str lbl ∉ names h) ∧
        has_long h' = has_long h ∧
        labels h' = labels h ++ [fresh_label h lbl] ∧
        label_hash h' =
          <[bucket (c_str lbl) :=
              chain h (bucket (c_str lbl)) ++ [length (labels h)]]>
            (label_hash h)))
  end.
Proof.
  intros Hwf. unfold label_add.
  destruct (decide (labels_cnt h = MAX_LABELS_CNT)) as [Hmax|Hmax]; [by auto|].
  rewrite get_label_spec.
  destruct (valid_label (c_str lbl)) eqn:Hvalid; [|by auto].
  unfold is_label_known.
  destruct (chain_find _ _ _) as [p|] eqn:Hfind.
  - apply chain_find_Some in Hfind as (lab & Hp & Heq).
    split; [done|]. split; [done|]. left. split; [done|].
    exists lab. split; [done|].
    destruct (wf_label h Hwf p lab Hp) as (_ & _ & Hv & _).
    by rewrite Heq, (valid_label_c_str _ Hv).
  - split; [done|]. split; [done|]. right. cbn.
    rewrite take_length_c_str. repeat split; try done.
    intros (lab & Hl & Hin)%list_elem_of_fmap.
    apply list_elem_of_lookup in Hin as [i Hi].
    destruct (wf_label h Hwf i lab Hi) as (_ & _ & Hv & Hch).
    eapply (chain_find_None _ _ _ Hfind i lab); [|done|].
    + by rewrite Hl.
    + by rewrite Hl at 1; rewrite (valid_label_c_str _ Hv).
Qed.

Lemma chain_insert (h h' : smack_accesses) (hv hv' : Z) (p : nat) :
  label_hash h' = <[hv := chain h hv ++ [p]]> (label_hash h) →
  ∀ i, i ∈ chain h hv' → i ∈ chain h' hv'.
Proof.
  intros Hh i Hi. unfold chain in *. rewrite Hh.
  destruct (decide (hv = hv')) as [->|Hne].
  - rewrite lookup_insert_eq. cbn. apply elem_of_app. by left.
  - by rewrite lookup_insert_ne.
Qed.

Lemma deref_app (h h' : smack_accesses) (k : list smack_label) (p : nat) :
  labels h' = labels h ++ k → p < length (labels h) → deref h' p = deref h p.
Proof. intros Hl Hp. unfold deref. by rewrite Hl, lookup_app_l. Qed.

(** Interning a new label keeps the engine well formed. *)
Lemma label_add_fresh_wf (h h' : smack_accesses) (lbl : list ascii) :
  wf h → labels_cnt h ≠ MAX_LABELS_CNT → valid_label (c_str lbl) = true →
  c_str lbl ∉ names h → has_long h' = has_long h →
  labels h' = labels h ++ [fresh_label h lbl] →
  label_hash h' =
    <[bucket (c_str lbl) :=
        chain h (bucket (c_str lbl)) ++ [length (labels h)]]> (label_hash h) →
  wf h'.
Proof.
  intros Hwf Hmax Hvalid Hnew Hlong Hlabels Hhash. split.
  - intros i lab. rewrite Hlabels. intros Hi.
    apply lookup_app_Some in Hi as [Hi|[Hge Hi]].
    + destruct (wf_label h Hwf i lab Hi) as (? & ? & ? & ?).
      repeat split; try done. by eapply chain_insert.
    + apply list_lookup_singleton_Some in Hi as [Hi <-].
      cbn. repeat split; try done; [lia|].
      unfold chain. rewrite Hhash, lookup_insert_eq. cbn.
      apply elem_of_app. right. apply list_elem_of_singleton. lia.
  - unfold names. rewrite Hlabels, fmap_app. cbn.
    apply NoDup_app. split; [apply (wf_nodup h Hwf)|]. split.
    + intros x Hx ->%list_elem_of_singleton. done.
    + apply NoDup_singleton.
  - intros lab r. rewrite Hlabels. intros [Hlab|Hlab]%elem_of_app Hr.
    + destruct (wf_rules h Hwf lab r Hlab Hr) as (? & ? & ?).
      split; [|done]. rewrite Hlabels, length_app. lia.
    + apply list_elem_of_singleton in Hlab as ->. by apply elem_of_nil in Hr.
  - pose proof (wf_count h Hwf). unfold labels_cnt in *.
    rewrite Hlabels, length_app. cbn. lia.
  - rewrite Hlong. intros Hl.
    destruct (wf_long_sound h Hwf Hl) as (lab & Hlab & Hlen).
    exists lab. split; [|done]. rewrite Hlabels. apply elem_of_app. by left.
  - intros lab r. rewrite Hlabels. intros [Hlab|Hlab]%elem_of_app Hr.
    + rewrite Hlong.
      destruct (wf_rules h Hwf lab r Hlab Hr) as (Hid & _).
      rewrite (deref_app h h' _ _ Hlabels Hid).
      by apply (wf_long_rules h Hwf).
    + apply list_elem_of_singleton in Hlab as ->. by apply elem_of_nil in Hr.
Qed.

Lemma label_add_wf (h : smack_accesses) (lbl : list ascii) :
  wf h → wf (label_add h lbl).2.
Proof.
  intros Hwf. pose proof (label_add_cases h lbl Hwf) as Hc.
  destruct (label_add h lbl) as [[p|] h']; cbn.
  - destruct Hc as (Hmax & Hvalid & [[-> _]|(_ & Hnew & Hl & Hls & Hh)]);
      [done|]. by eapply label_add_fresh_wf.
  - by destruct Hc as [-> _].
Qed.

(** The pointer [label_add] returns is the index of a label holding the
    string, and the labels interned before keep their places. *)
Lemma label_add_Some (h h' : smack_accesses) (lbl : list ascii) (p : nat) :
  wf h → label_add h lbl = (Some p, h') →
  (∃ k, labels h' = labels h ++ k ∧ ∀ lab, lab ∈ k → rules lab = []) ∧
  has_long h' = has_long h ∧
  ∃ lab, labels h' !! p = Some lab ∧ label lab = c_str lbl.
Proof.
  intros Hwf Heq. pose proof (label_add_cases h lbl Hwf) as Hc.
  rewrite Heq in Hc.
  destruct Hc as (Hmax & Hvalid &
    [[-> (lab & Hp & Hl)]|(-> & Hnew & Hl & Hls & Hh)]).
  - split; [|by eauto]. exists []. split; [by rewrite app_nil_r|].
    intros lab' H. by apply elem_of_nil in H.
  - split; [|split; [done|]].
    + exists [fresh_label h lbl]. split; [done|].
      by intros lab ->%list_elem_of_singleton.
    + exists (fresh_label h lbl). split; [|done].
      rewrite Hls. by apply list_lookup_middle.
Qed.

(** ** The rule store *)

Lemma rules_from_app (h : smack_accesses) (l1 l2 : list smack_label) :
  rules_from h (l1 ++ l2) = rules_from h l1 ++ rules_from h l2.
Proof. unfold rules_from. apply bind_app. Qed.

Lemma rules_from_cons (h : smack_accesses) (lab : smack_label)
    (l : list smack_label) :
  rules_from h (lab :: l) = (rule_view h lab <$> rules lab) ++ rules_from h l.
Proof. done. Qed.

Lemma rules_from_ext (h h' : smack_accesses) (ls : list smack_label) :
  (∀ lab r, lab ∈ ls → r ∈ rules lab →
     label (deref h' (object_id r)) = label (deref h (object_id r))) →
  rules_from h' ls = rules_from h ls.
Proof.
  induction ls as [|lab ls IH]; intros Hext; [done|].
  rewrite !rules_from_cons. f_equal.
  - apply list_fmap_ext. intros i r Hr. unfold rule_view. f_equal.
    apply (Hext lab); [apply list_elem_of_here | by eapply list_elem_of_lookup_2].
  - apply IH. intros lab' r Hl Hr. apply (Hext lab'); [|done].
    by apply list_elem_of_further.
Qed.

Lemma rules_from_no_rules (h : smack_accesses) (ls : list smack_label) :
  (∀ lab, lab ∈ ls → rules lab = []) → rules_from h ls = [].
Proof.
  induction ls as [|lab ls IH]; intros Hnil; [done|].
  rewrite rules_from_cons, (Hnil lab) by apply list_elem_of_here.
  cbn. apply IH. intros lab' H. apply Hnil. by apply list_elem_of_further.
Qed.

Lemma rules_from_subject (h : smack_accesses) (ls : list smack_label)
    (r : arule) :
  r ∈ rules_from h ls → r_subject r ∈ label <$> ls.
Proof.
  unfold rules_from. intros (lab & Hr & Hlab)%list_elem_of_bind.
  apply list_elem_of_fmap in Hr as (r' & -> & _). cbn.
  apply list_elem_of_fmap. eauto.
Qed.

Lemma filter_none {A} (P : A → Prop) `{∀ x, Decision (P x)} (l : list A) :
  (∀ x, x ∈ l → ¬ P x) → filter P l = [].
Proof.
  induction l as [|x l IH]; intros Hl; [done|].
  rewrite filter_cons, decide_False by (apply Hl, list_elem_of_here).
  apply IH. intros y Hy. by apply Hl, list_elem_of_further.
Qed.

Lemma rules_from_filter_other (h : smack_accesses) (ls : list smack_label)
    (t : list ascii) :
  t ∉ label <$> ls → filter (λ r, r_subject r = t) (rules_from h ls) = [].
Proof.
  intros Ht. apply filter_none. intros r Hr <-.
  by apply Ht, (rules_from_subject h).
Qed.

(** Interning labels does not change the rules. *)
Lemma rules_of_app (h h' : smack_accesses) (k : list smack_label) :
  wf h → labels h' = labels h ++ k → (∀ lab, lab ∈ k → rules lab = []) →
  rules_of h' = rules_of h.
Proof.
  intros Hwf Hl Hk. unfold rules_of.
  rewrite Hl, rules_from_app, (rules_from_no_rules h' k Hk), app_nil_r.
  apply rules_from_ext. intros lab r Hlab Hr. f_equal.
  apply (deref_app h h' k); [done|].
  by destruct (wf_rules h Hwf lab r Hlab Hr).
Qed.

(** *** Appending a rule *)

Lemma lookup_append_rule (h : smack_accesses) (p i : nat) (r : smack_rule)
    (lab : smack_label) :
  labels (append_rule h p r) !! i = Some lab →
  ∃ lab0, labels h !! i = Some lab0 ∧ label lab = label lab0 ∧
    id lab = id lab0 ∧ len lab = len lab0 ∧
    (rules lab = rules lab0 ∨ (i = p ∧ rules lab = rules lab0 ++ [r])).
Proof.
  cbn. rewrite list_lookup_alter. destruct (decide (p = i)) as [->|Hne].
  - destruct (labels h !! i) as [lab0|]; [|done]. intros [= <-].
    exists lab0. cbn. by auto 10.
  - intros Hi. exists lab. by auto 10.
Qed.

Lemma deref_append_rule (h : smack_accesses) (p x : nat) (r : smack_rule) :
  label (deref (append_rule h p r) x) = label (deref h x) ∧
  len (deref (append_rule h p r) x) = len (deref h x) ∧
  id (deref (append_rule h p r) x) = id (deref h x).
Proof.
  unfold deref. cbn. rewrite list_lookup_alter.
  destruct (decide (p = x)) as [->|Hne]; [|done].
  by destruct (labels h !! x).
Qed.

Lemma names_append_rule (h : smack_accesses) (p : nat) (r : smack_rule) :
  names (append_rule h p r) = names h.
Proof.
  unfold names. cbn. apply list_eq. intros i.
  rewrite !list_lookup_fmap, list_lookup_alter.
  destruct (decide (p = i)) as [->|]; [|done].
  by destruct (labels h !! i).
Qed.

Lemma append_rule_wf (h : smack_accesses) (p : nat) (slab : smack_label)
    (r : smack_rule) :
  wf h → labels h !! p = Some slab → rule_ok h r →
  (SHORT_LABEL_LEN < len slab ∨
   SHORT_LABEL_LEN < len (deref h (object_id r)) → has_long h = true) →
  wf (append_rule h p r).
Proof.
  intros Hwf Hp Hr Hlong. split.
  - intros i lab Hi.
    apply lookup_append_rule in Hi as (lab0 & Hi & -> & -> & -> & _).
    apply (wf_label h Hwf i lab0 Hi).
  - rewrite names_append_rule. apply (wf_nodup h Hwf).
  - intros lab r' [i Hi]%list_elem_of_lookup Hr'.
    apply lookup_append_rule in Hi as (lab0 & Hi & _ & _ & _ & Hrules).
    assert (rule_ok h r') as (? & ? & ?).
    { destruct Hrules as [Hrules|[_ Hrules]]; rewrite Hrules in Hr'.
      - eapply (wf_rules h Hwf); [by eapply list_elem_of_lookup_2 | done].
      - apply elem_of_app in Hr' as [Hr'| ->%list_elem_of_singleton]; [|done].
        eapply (wf_rules h Hwf); [by eapply list_elem_of_lookup_2 | done]. }
    split; [|done]. cbn. by rewrite length_alter.
  - unfold labels_cnt. cbn. rewrite length_alter. apply (wf_count h Hwf).
  - cbn. intros Hl.
    destruct (wf_long_sound h Hwf Hl) as (lab & [i Hi]%list_elem_of_lookup & ?).
    destruct (decide (p = i)) as [->|Hne].
    + exists (push_rule r lab). split; [|done].
      apply list_elem_of_lookup. exists i.
      by rewrite list_lookup_alter_eq, Hi.
    + exists lab. split; [|done]. apply list_elem_of_lookup. exists i.
      by rewrite list_lookup_alter_ne.
  - intros lab r' [i Hi]%list_elem_of_lookup Hr'.
    apply lookup_append_rule in Hi as (lab0 & Hi & _ & _ & -> & Hrules).
    destruct (deref_append_rule h p (object_id r') r) as (_ & -> & _).
    change (has_long (append_rule h p r)) with (has_long h).
    destruct Hrules as [Hrules|[-> Hrules]]; rewrite Hrules in Hr'.
    + eapply (wf_long_rules h Hwf); [by eapply list_elem_of_lookup_2 | done].
    + apply elem_of_app in Hr' as [Hr'| ->%list_elem_of_singleton].
      * eapply (wf_long_rules h Hwf); [by eapply list_elem_of_lookup_2|done].
      * rewrite Hp in Hi. by injection Hi as <-.
Qed.

Lemma alter_middle {A} (f : A → A) (l1 : list A) (x : A) (l2 : list A) :
  alter f (length l1) (l1 ++ x :: l2) = l1 ++ f x :: l2.
Proof. by rewrite <-(Nat.add_0_r (length l1)), alter_app_r. Qed.

(** The new rule comes last among the rules of its subject and leaves
    the other subjects' rules alone. *)
Lemma append_rule_rules_for (h : smack_accesses) (p : nat)
    (slab : smack_label) (r : smack_rule) (t : list ascii) :
  wf h → labels h !! p = Some slab →
  rules_for (append_rule h p r) t =
  rules_for h t ++
    (if decide (t = label slab) then [rule_view h slab r] else []).
Proof.
  intros Hwf Hp. unfold rules_for, rules_of.
  assert (Hext : ∀ ls, rules_from (append_rule h p r) ls = rules_from h ls).
  { intros ls. apply rules_from_ext. intros lab r' _ _.
    by destruct (deref_append_rule h p (object_id r') r) as (-> & _). }
  rewrite Hext. cbn [labels append_rule].
  pose proof (wf_nodup h Hwf) as Hnd. unfold names in Hnd.
  assert (∃ l1 l2, labels h = l1 ++ slab :: l2 ∧ p = length l1)
    as (l1 & l2 & Hsplit & ->).
  { exists (take p (labels h)), (drop (S p) (labels h)).
    split; [by rewrite take_drop_middle|].
    rewrite length_take. apply lookup_lt_Some in Hp. lia. }
  rewrite Hsplit in Hnd |- *. rewrite alter_middle.
  rewrite !rules_from_app, !rules_from_cons, !filter_app.
  cbn [rules push_rule]. rewrite fmap_app, filter_app. cbn [fmap list_fmap].
  change (rule_view h (push_rule r slab)) with (rule_view h slab).
  rewrite <-!app_assoc. do 2 f_equal.
  rewrite (filter_cons _ (rule_view h slab r)), filter_nil. cbn [r_subject rule_view].
  destruct (decide (label slab = t)) as [<-|Hne].
  - rewrite decide_True by done.
    rewrite rules_from_filter_other; [done|].
    rewrite fmap_app, fmap_cons in Hnd.
    apply NoDup_app in Hnd as (_ & _ & Hnd).
    by apply NoDup_cons in Hnd as [Hnd _].
  - rewrite decide_False by done. by rewrite app_nil_r.
Qed.

(** *** [label_add] and [accesses_add] on a well-formed engine *)

Lemma label_add_spec (h : smack_accesses) (lbl : list ascii) :
  wf h →
  ∃ res h', label_add h lbl = (res, h') ∧ wf h' ∧
    has_long h' = has_long h ∧ rules_of h' = rules_of h ∧
    (∃ k, labels h' = labels h ++ k ∧
          ∀ lab, lab ∈ k → rules lab = [] ∧ label lab = c_str lbl) ∧
    match res with
    | None =>
        h' = h ∧
        (labels_cnt h = MAX_LABELS_CNT ∨ valid_label (c_str lbl) = false)
    | Some p =>
        labels_cnt h ≠ MAX_LABELS_CNT ∧ valid_label (c_str lbl) = true ∧
        ∃ lab, labels h' !! p = Some lab ∧ label lab = c_str lbl
    end.
Proof.
  intros Hwf. pose proof (label_add_cases h lbl Hwf) as Hc.
  pose proof (label_add_wf h lbl Hwf) as Hwf'.
  destruct (label_add h lbl) as [[p|] h'] eqn:Heq; cbn in Hwf'.
  - exists (Some p), h'. split; [done|]. split; [done|].
    destruct Hc as (Hmax & Hvalid &
      [[-> (lab & Hp & Hl)]|(-> & Hnew & Hl & Hls & Hh)]).
    + split; [done|]. split; [done|]. split; [|by eauto].
      exists []. split; [by rewrite app_nil_r|].
      intros lab' H. by apply elem_of_nil in H.
    + assert (∀ lab, lab ∈ [fresh_label h lbl] →
                rules lab = [] ∧ label lab = c_str lbl) as Hk
        by by intros lab ->%list_elem_of_singleton.
      split; [done|]. split; [|split; [by eauto|]].
      * apply (rules_of_app h h' [fresh_label h lbl]); [done|done|].
        intros lab Hlab. by apply Hk.
      * split; [done|]. split; [done|]. exists (fresh_label h lbl).
        split; [|done]. rewrite Hls. by apply list_lookup_middle.
  - destruct Hc as [-> Hc]. exists None, h.
    split; [done|]. split; [done|]. split; [done|]. split; [done|].
    split; [|done]. exists []. split; [by rewrite app_nil_r|].
    intros lab' H. by apply elem_of_nil in H.
Qed.

Lemma rules_of_labels (h h' : smack_accesses) :
  labels h' = labels h → rules_of h' = rules_of h.
Proof.
  intros Hl. unfold rules_of. rewrite Hl. apply rules_from_ext.
  intros lab r _ _. unfold deref. by rewrite Hl.
Qed.

Lemma set_has_long_wf (h : smack_accesses) (lab : smack_label) :
  wf h → lab ∈ labels h → SHORT_LABEL_LEN < len lab → wf (set_has_long h).
Proof.
  intros Hwf Hlab Hlen. split; try apply Hwf; [by eauto | done].
Qed.

Lemma deref_long (h : smack_accesses) (p : nat) :
  SHORT_LABEL_LEN < len (deref h p) →
  ∃ lab, lab ∈ labels h ∧ SHORT_LABEL_LEN < len lab.
Proof.
  unfold deref. destruct (labels h !! p) as [lab|] eqn:Hp; cbn.
  - intros H. exists lab. split; [by eapply list_elem_of_lookup_2 | done].
  - unfold SHORT_LABEL_LEN. lia.
Qed.

Lemma deny_for_range (d : option (list ascii)) (allow deny : Z) :
  (0 ≤ allow ≤ 63)%Z → deny_for d allow = Some deny → (0 ≤ deny ≤ 63)%Z.
Proof.
  intros Ha. destruct d as [ds|]; cbn.
  - apply str_to_access_code_range.
  - intros [= <-]. by apply complement_six_bits.
Qed.

Lemma names_app (h h' : smack_accesses) (k : list smack_label)
    (s : list ascii) :
  labels h' = labels h ++ k → (∀ lab, lab ∈ k → label lab = s) →
  names h `prefix_of` names h' ∧
  ∀ x, x ∈ names h' → x ∈ names h ∨ x = s.
Proof.
  intros Hl Hk. unfold names. rewrite Hl, fmap_app. split.
  - by apply prefix_app_r.
  - intros x [Hx|Hx]%elem_of_app; [by left|]. right.
    apply list_elem_of_fmap in Hx as (lab & -> & Hlab). by apply Hk.
Qed.

Lemma accesses_add_finish (h : smack_accesses) (sp op : nat)
    (slab olab : smack_label) (ac dc : Z) :
  wf h → labels h !! sp = Some slab → labels h !! op = Some olab →
  (0 ≤ ac ≤ 63)%Z → (0 ≤ dc ≤ 63)%Z →
  (SHORT_LABEL_LEN < len slab ∨ SHORT_LABEL_LEN < len olab →
   has_long h = true) →
  let h' := append_rule h sp (mk_rule ac dc (id (deref h op))) in
  wf h' ∧ names h' = names h ∧ has_long h' = has_long h ∧
  ∀ t, rules_for h' t =
       rules_for h t ++
       (if decide (t = label slab)
        then [mk_arule (label slab) (label olab) ac dc] else []).
Proof.
  intros Hwf Hsp Hop Hac Hdc Hlong h'.
  assert (Hd : deref h op = olab) by (unfold deref; by rewrite Hop).
  assert (Hid : id olab = op) by by destruct (wf_label h Hwf op olab Hop).
  split; [|split; [apply names_append_rule|split; [done|]]].
  - apply (append_rule_wf h sp slab); [done|done| |].
    + split; [|done]. cbn. rewrite Hd, Hid. by eapply lookup_lt_Some.
    + cbn. by rewrite Hd, Hid, Hd.
  - intros t. unfold h'. rewrite (append_rule_rules_for h sp slab); [|done..].
    do 2 f_equal. unfold rule_view. cbn. by rewrite Hd, Hid, Hd.
Qed.

(** [accesses_add] on a well-formed engine: it keeps the engine well
    formed and the interned strings in place; when it returns -1 the
    rules are those of before, and when it returns 0 the new rule is the
    last rule of its subject. *)
Lemma accesses_add_spec (h : smack_accesses) (s o a : list ascii)
    (d : option (list ascii)) :
  wf h →
  ∃ ret h', accesses_add h s o a d = (ret, h') ∧ wf h' ∧
    names h `prefix_of` names h' ∧
    (∀ x, x ∈ names h' → x ∈ names h ∨ x = c_str s ∨ x = c_str o) ∧
    (has_long h = true → has_long h' = true) ∧
    ((ret = (-1)%Z ∧ rules_of h' = rules_of h ∧
      (labels_cnt h = MAX_LABELS_CNT ∨ valid_label (c_str s) = false ∨
       (∃ h1, wf h1 ∧ labels_cnt h1 = MAX_LABELS_CNT ∧
              ∀ x, x ∈ names h1 → x ∈ names h ∨ x = c_str s) ∨
       valid_label (c_str o) = false ∨ str_to_access_code a = None ∨
       ∃ ac, str_to_access_code a = Some ac ∧ deny_for d ac = None)) ∨
     (ret = 0%Z ∧ valid_label (c_str s) = true ∧
      valid_label (c_str o) = true ∧
      ∃ ac dc, str_to_access_code a = Some ac ∧ deny_for d ac = Some dc ∧
        ∀ t, rules_for h' t =
             rules_for h t ++
             (if decide (t = c_str s)
              then [mk_arule (c_str s) (c_str o) ac dc] else []))).
Proof.
  intros Hwf. unfold accesses_add.
  destruct (label_add_spec h s Hwf)
    as (res1 & h1 & -> & Hwf1 & Hl1 & Hr1 & (k1 & Hk1 & Hk1') & Hres1).
  destruct (names_app h h1 k1 (c_str s) Hk1) as [Hp1 Hn1];
    [intros lab Hlab; by apply Hk1'|].
  destruct res1 as [sp|]; cycle 1.
  { destruct Hres1 as [-> Hc]. exists (-1)%Z, h.
    split; [done|]. split; [done|]. split; [done|]. split; [by auto|].
    split; [done|]. left. split; [done|]. split; [done|].
    destruct Hc; by auto. }
  destruct Hres1 as (Hmax1 & Hv1 & slab & Hsp & Hslab).
  destruct (label_add_spec h1 o Hwf1)
    as (res2 & h2 & -> & Hwf2 & Hl2 & Hr2 & (k2 & Hk2 & Hk2') & Hres2).
  destruct (names_app h1 h2 k2 (c_str o) Hk2) as [Hp2 Hn2];
    [intros lab Hlab; by apply Hk2'|].
  assert (Hpre : names h `prefix_of` names h2) by by etrans.
  assert (Hsub : ∀ x, x ∈ names h2 → x ∈ names h ∨ x = c_str s ∨ x = c_str o).
  { intros x [Hx|Hx]%Hn2; [|by auto]. apply Hn1 in Hx as [Hx|Hx]; by auto. }
  destruct res2 as [op|]; cycle 1.
  { destruct Hres2 as [-> Hc]. exists (-1)%Z, h1.
    split; [done|]. split; [done|]. split; [done|]. split; [done|].
    split; [congruence|]. left. split; [done|]. split; [done|].
    destruct Hc; [|by auto 10]. right; right; left. by exists h1. }
  destruct Hres2 as (Hmax2 & Hv2 & olab & Hop & Holab).
  assert (Hsp2 : labels h2 !! sp = Some slab)
    by (rewrite Hk2; by apply lookup_app_l_Some).
  assert (Hds : deref h2 sp = slab) by (unfold deref; by rewrite Hsp2).
  assert (Hdo : deref h2 op = olab) by (unfold deref; by rewrite Hop).
  rewrite Hds, Hdo.
  set (long := bool_decide (SHORT_LABEL_LEN < len slab) ||
               bool_decide (SHORT_LABEL_LEN < len olab)).
  set (h3 := if long then set_has_long h2 else h2).
  assert (Hlab3 : labels h3 = labels h2) by (unfold h3; by destruct long).
  assert (Hwf3 : wf h3).
  { unfold h3. destruct long eqn:Hc; [|done].
    apply orb_true_iff in Hc as [Hc|Hc]; apply bool_decide_eq_true in Hc.
    - apply (set_has_long_wf h2 slab); [done| |done].
      by eapply list_elem_of_lookup_2.
    - apply (set_has_long_wf h2 olab); [done| |done].
      by eapply list_elem_of_lookup_2. }
  assert (Hlong3 : has_long h = true → has_long h3 = true).
  { unfold h3. destruct long; [done|congruence]. }
  assert (Hcond : SHORT_LABEL_LEN < len slab ∨ SHORT_LABEL_LEN < len olab →
                  has_long h3 = true).
  { unfold h3. destruct long eqn:Hc; [done|].
    apply orb_false_iff in Hc as [Hc1 Hc2].
    apply bool_decide_eq_false in Hc1, Hc2. tauto. }
  assert (Hnames3 : names h3 = names h2) by (unfold names; by rewrite Hlab3).
  assert (Hrules3 : rules_of h3 = rules_of h).
  { rewrite (rules_of_labels h2 h3 Hlab3). congruence. }
  assert (Hfail : ∀ reason : Prop, reason →
    ∃ ret h', ((-1)%Z, h3) = (ret, h') ∧ wf h' ∧
      names h `prefix_of` names h' ∧
      (∀ x, x ∈ names h' → x ∈ names h ∨ x = c_str s ∨ x = c_str o) ∧
      (has_long h = true → has_long h' = true) ∧
      ((ret = (-1)%Z ∧ rules_of h' = rules_of h ∧ reason) ∨ False)).
  { intros reason Hreason. exists (-1)%Z, h3. rewrite Hnames3. by auto 10. }
  destruct (str_to_access_code a) as [ac|] eqn:Ea; cycle 1.
  { destruct (Hfail (str_to_access_code a = None) Ea)
      as (ret & h' & [= <- <-] & ? & ? & ? & ? & [(? & ? & ?)|[]]).
    exists (-1)%Z, h3. by auto 15. }
  pose proof (str_to_access_code_range a ac Ea) as Hac.
  assert (Hok : ∀ dc, deny_for d ac = Some dc →
    ∃ ret h', (0%Z, append_rule h3 sp (mk_rule ac dc (id (deref h3 op))))
              = (ret, h') ∧ wf h' ∧
      names h `prefix_of` names h' ∧
      (∀ x, x ∈ names h' → x ∈ names h ∨ x = c_str s ∨ x = c_str o) ∧
      (has_long h = true → has_long h' = true) ∧
      (False ∨
       (ret = 0%Z ∧ valid_label (c_str s) = true ∧
        valid_label (c_str o) = true ∧
        ∃ ac' dc', Some ac = Some ac' ∧ deny_for d ac' = Some dc' ∧
          ∀ t, rules_for h' t =
               rules_for h t ++
               (if decide (t = c_str s)
                then [mk_arule (c_str s) (c_str o) ac' dc'] else [])))).
  { intros dc Hdc.
    pose proof (deny_for_range d ac dc Hac Hdc) as Hdcr.
    destruct (accesses_add_finish h3 sp op slab olab ac dc)
      as (Hwf' & Hn' & Hl' & Hr'); [done|by rewrite Hlab3..|done|done|done|].
    eexists _, _. split; [done|]. split; [done|]. rewrite Hn', Hnames3, Hl'.
    split; [done|]. split; [done|]. split; [done|]. right.
    split; [done|]. split; [done|]. split; [done|].
    exists ac, dc. split; [done|]. split; [done|].
    intros t. rewrite Hr', Hslab, Holab. unfold rules_for.
    by rewrite Hrules3. }
  destruct d as [ds|]; cbn [deny_for] in *.
  - destruct (str_to_access_code ds) as [dc|] eqn:Ed.
    + destruct (Hok dc eq_refl)
        as (ret & h' & [= <- <-] & ? & ? & ? & ? & [[]|Hfin]).
      eexists _, _. split; [done|]. by auto 10.
    + destruct (Hfail (∃ ac', Some ac = Some ac' ∧
                        str_to_access_code ds = None))
        as (ret & h' & [= <- <-] & ? & ? & ? & ? & [(? & ? & ?)|[]]);
        [by eauto|].
      exists (-1)%Z, h3. do 5 (split; [done|]). left.
      do 2 (split; [done|]). do 5 right. by exists ac.
  - destruct (Hok _ eq_refl)
      as (ret & h' & [= <- <-] & ? & ? & ? & ? & [[]|Hfin]).
    eexists _, _. split; [done|]. by auto 10.
Qed.

(** ** Engines the library can build *)

Lemma add_from_file_loop_steps (fuel : nat) (h : smack_accesses)
    (file : list ascii) (ret : Z) (h' : smack_accesses) :
  add_from_file_loop fuel h file = Some (ret, h') → rtc add_step h h'.
Proof.
  revert h file. induction fuel as [|fuel IH]; intros h file; [done|].
  cbn [add_from_file_loop].
  destruct (fgets (LOAD_LEN + 1) file) as [[buf file']|];
    [|by intros [= _ <-]].
  destruct (strcmp_eq buf [LF]); [apply IH|].
  destruct (strtok_r (c_str buf)) as [subject ptr1].
  destruct (strtok_r ptr1) as [object ptr2].
  destruct (strtok_r ptr2) as [access ptr3].
  destruct (strtok_r ptr3) as [access2 ptr4].
  destruct subject as [subject|]; [|by intros [= _ <-]].
  destruct object as [object|]; [|by intros [= _ <-]].
  destruct access as [access|]; [|by intros [= _ <-]].
  destruct (strtok_r ptr4).1; [by intros [= _ <-]|].
  assert (∀ d, (let '(ret0, accesses') :=
                  accesses_add h subject object access d in
                if decide (ret0 = 0%Z)
                then add_from_file_loop fuel accesses' file'
                else Some ((-1)%Z, accesses')) = Some (ret, h') →
               rtc add_step h h') as Hd.
  { intros d. destruct (accesses_add h subject object access d)
      as [ret0 h1] eqn:E.
    assert (add_step h h1) as Hstep
      by (exists subject, object, access, d; by rewrite E).
    destruct (decide (ret0 = 0%Z)).
    - intros H. eapply rtc_l; [done|]. by eapply IH.
    - intros [= _ <-]. by apply rtc_once. }
  destruct access2 as [access2|]; apply Hd.
Qed.

Lemma op_step_adds (h h' : smack_accesses) :
  op_step h h' → rtc add_step h h'.
Proof.
  intros [h0 s o a|h0 s o a d|h0 file ret h1 H].
  - apply rtc_once. by exists s, o, a, None.
  - apply rtc_once. by exists s, o, a, (Some d).
  - by eapply add_from_file_loop_steps.
Qed.

Lemma add_step_wf (h h' : smack_accesses) :
  wf h → add_step h h' →
  wf h' ∧ names h `prefix_of` names h' ∧
  (has_long h = true → has_long h' = true).
Proof.
  intros Hwf (s & o & a & d & ->).
  destruct (accesses_add_spec h s o a d Hwf)
    as (ret & h' & -> & ? & ? & _ & ? & _). done.
Qed.

Lemma add_steps_wf (h h' : smack_accesses) :
  wf h → rtc add_step h h' →
  wf h' ∧ names h `prefix_of` names h' ∧
  (has_long h = true → has_long h' = true).
Proof.
  intros Hwf Hsteps. induction Hsteps as [h|h h1 h2 Hstep _ IH]; [done|].
  destruct (add_step_wf h h1 Hwf Hstep) as (Hwf1 & Hp1 & Hl1).
  destruct (IH Hwf1) as (Hwf2 & Hp2 & Hl2).
  split; [done|]. split; [by etrans | by auto].
Qed.

Lemma op_steps_wf (h h' : smack_accesses) :
  wf h → rtc op_step h h' →
  wf h' ∧ names h `prefix_of` names h' ∧
  (has_long h = true → has_long h' = true).
Proof.
  intros Hwf Hsteps. apply add_steps_wf; [done|].
  clear Hwf. induction Hsteps as [h|h h1 h2 Hstep _ IH]; [done|].
  etrans; [by apply op_step_adds | done].
Qed.

Lemma reachable_wf (h : smack_accesses) : reachable h → wf h.
Proof. intros H. by apply (op_steps_wf _ _ wf_new H). Qed.

Lemma names_lookup (h : smack_accesses) (p : nat) (lab : smack_label) :
  labels h !! p = Some lab → names h !! p = Some (label lab).
Proof. intros H. unfold names. by rewrite list_lookup_fmap, H. Qed.

(** C9.  In an engine the library has built, [label_add] returns NULL
    exactly when the string is not a valid label or the table already
    holds 65,536 labels; the identifier it returns for a string is the one
    every later interning of that string returns, whatever was added in
    between, and is returned for no other string. *)
Theorem label_add_intern (h h1 h2 h3 : smack_accesses)
    (s1 s2 : list ascii) (i1 i2 : nat) :
  reachable h →
  ((label_add h s1).1 = None ↔
   valid_label (c_str s1) = false ∨ labels_cnt h = MAX_LABELS_CNT) ∧
  (label_add h s1 = (Some i1, h1) →
   (labels_cnt h1 ≠ MAX_LABELS_CNT → label_add h1 s1 = (Some i1, h1)) ∧
   (rtc op_step h1 h2 → label_add h2 s2 = (Some i2, h3) →
    (i1 = i2 ↔ c_str s1 = c_str s2))).
Proof.
  intros Hwf%reachable_wf. split.
  - pose proof (label_add_cases h s1 Hwf) as Hc.
    destruct (label_add h s1) as [[p|] h']; cbn.
    + destruct Hc as (Hmax & Hvalid & _). split; [done|].
      intros [H|H]; congruence.
    + destruct Hc as [_ Hc]. split; [|done]. intros _. tauto.
  - intros E1.
    destruct (label_add_spec h s1 Hwf)
      as (res & h' & E & Hwf1 & _ & _ & _ & Hres).
    rewrite E1 in E. injection E as <- <-.
    destruct Hres as (_ & Hv1 & lab1 & Hi1 & Hl1). split.
    + intros Hmax. pose proof (label_add_cases h1 s1 Hwf1) as Hc.
      destruct (label_add h1 s1) as [[p|] h'].
      * destruct Hc as (_ & _ & [[-> (lab & Hp & Hl)]|(_ & Hnew & _)]).
        -- do 2 f_equal.
           apply (NoDup_lookup (names h1) p i1 (c_str s1));
             [apply (wf_nodup h1 Hwf1)| |].
           ++ rewrite <-Hl. by apply names_lookup.
           ++ rewrite <-Hl1. by apply names_lookup.
        -- exfalso. apply Hnew. rewrite <-Hl1.
           eapply list_elem_of_lookup_2. by apply names_lookup.
      * destruct Hc as [_ [Hc|Hc]]; congruence.
    + intros Hsteps E2.
      destruct (op_steps_wf h1 h2 Hwf1 Hsteps) as (Hwf2 & Hpre & _).
      destruct (label_add_spec h2 s2 Hwf2)
        as (res & h' & E & Hwf3 & _ & _ & (k & Hk & Hk') & Hres).
      rewrite E2 in E. injection E as <- <-.
      destruct Hres as (_ & Hv2 & lab2 & Hi2 & Hl2).
      destruct (names_app h2 h3 k (c_str s2) Hk) as [Hpre3 _];
        [intros lab Hlab; by apply Hk'|].
      assert (Hn1 : names h3 !! i1 = Some (c_str s1)).
      { apply (prefix_lookup_Some (names h1)); [|by etrans].
        rewrite <-Hl1. by apply names_lookup. }
      assert (Hn2 : names h3 !! i2 = Some (c_str s2)).
      { rewrite <-Hl2. by apply names_lookup. }
      split.
      * intros <-. congruence.
      * intros Heq. rewrite <-Heq in Hn2.
        by apply (NoDup_lookup (names h3) i1 i2 (c_str s1));
          [apply (wf_nodup h3 Hwf3)|..].
Qed.

Lemma label_add_intern_witness :
  let a := list_ascii_of_string "System" in
  let b := list_ascii_of_string "User" in
  let h1 := (label_add smack_accesses_new a).2 in
  let h3 := (label_add h1 b).2 in
  reachable smack_accesses_new ∧
  label_add smack_accesses_new a = (Some 0, h1) ∧
  label_add h1 a = (Some 0, h1) ∧
  label_add h1 b = (Some 1, h3) ∧
  (0 = 1 ↔ c_str a = c_str b).
Proof.
  intros a b h1 h3.
  assert (reachable smack_accesses_new) as Hr by apply rtc_refl.
  destruct (label_add_intern smack_accesses_new h1 h1 h3 a b 0 1 Hr)
    as [_ H].
  destruct (H eq_refl) as [Hsame Hother].
  split; [exact Hr|]. split; [reflexivity|].
  split; [apply Hsame; vm_compute; discriminate|].
  split; [reflexivity|].
  apply Hother; [apply rtc_refl | reflexivity].
Defined.

(** ** Writing *)

Lemma bytes_of_app (l1 l2 : list (Z * list ascii)) :
  bytes_of (l1 ++ l2) = bytes_of l1 ++ bytes_of l2.
Proof. unfold bytes_of. apply bind_app. Qed.

Lemma bytes_of_cons (fd : Z) (buf : list ascii) (l : list (Z * list ascii)) :
  bytes_of ((fd, buf) :: l) = (pair fd <$> buf) ++ bytes_of l.
Proof. done. Qed.

Lemma bytes_of_snoc (log : list (Z * list ascii)) (fd : Z)
    (buf : list ascii) :
  bytes_of (log ++ [(fd, buf)]) = bytes_of log ++ (pair fd <$> buf).
Proof. by rewrite bytes_of_app, bytes_of_cons, app_nil_r. Qed.

(** Whatever the calls of [write] do, the loop delivers a prefix of the
    buffer to the descriptor and nothing else; it delivers all of it when
    it succeeds, and it succeeds when no call fails. *)
Lemma write_loop_spec (fd : Z) (buf : list ascii) (sc : list wres)
    (log : list (Z * list ascii)) :
  ∃ ok sc' log' p,
    write_loop fd buf sc log = (ok, mk_world sc' log') ∧
    bytes_of log' = bytes_of log ++ (pair fd <$> p) ∧
    p `prefix_of` buf ∧ (ok = true → p = buf) ∧
    (WError ∉ sc → ok = true ∧ WError ∉ sc').
Proof.
  revert buf log. induction sc as [|r sc IH]; intros buf log.
  - destruct buf as [|c buf].
    + exists true, [], log, []. cbn. rewrite app_nil_r. by auto.
    + exists true, [], (log ++ [(fd, c :: buf)]), (c :: buf).
      cbn [write_loop]. rewrite bytes_of_snoc. by auto.
  - destruct buf as [|c buf].
    { exists true, (r :: sc), log, []. cbn. rewrite app_nil_r. by auto. }
    destruct r as [n| |]; cbn [write_loop].
    + destruct (IH (drop n (c :: buf)) (log ++ [(fd, take n (c :: buf))]))
        as (ok & sc' & log' & p & -> & Hb & Hp & Hok & Herr).
      exists ok, sc', log', (take n (c :: buf) ++ p).
      split; [done|]. split; [|split; [|split]].
      * by rewrite Hb, bytes_of_snoc, fmap_app, app_assoc.
      * rewrite <-(take_drop n (c :: buf)) at 2. by apply prefix_app.
      * intros ->%Hok. apply take_drop.
      * intros [_ H]%not_elem_of_cons. by apply Herr.
    + destruct (IH (c :: buf) log)
        as (ok & sc' & log' & p & -> & Hb & Hp & Hok & Herr).
      exists ok, sc', log', p. split; [done|]. split; [done|].
      split; [done|]. split; [done|].
      intros [_ H]%not_elem_of_cons. by apply Herr.
    + exists false, sc, log, []. cbn. rewrite app_nil_r.
      split; [done|]. split; [done|]. split; [apply prefix_nil|].
      split; [done|]. intros []%not_elem_of_cons. done.
Qed.

(** *** The records of a pass *)

Lemma emit_ret (recs : list (option (Z * list ascii))) (w : world) :
  (emit recs w).1 = 0%Z ∨ (emit recs w).1 = (-1)%Z.
Proof.
  revert w. induction recs as [|[[fd buf]|] recs IH]; intros w; cbn;
    [by left| |by right].
  destruct (write_loop _ _ _ _) as [[] w']; [apply IH | by right].
Qed.

Lemma emit_app (a b : list (option (Z * list ascii))) (w : world) :
  emit (a ++ b) w =
  let '(ret, w') := emit a w in
  if decide (ret = 0%Z) then emit b w' else (ret, w').
Proof.
  revert w. induction a as [|[[fd buf]|] a IH]; intros w; cbn; [done| |done].
  destruct (write_loop _ _ _ _) as [[] w']; [apply IH | done].
Qed.

Lemma print_rules_emit handle clear load_fd change_fd use_long add_lf
    (subject_label : smack_label) (rs : list smack_rule) (w : world) :
  print_rules handle clear load_fd change_fd use_long add_lf
    subject_label rs w =
  emit (rule_record handle clear load_fd change_fd use_long add_lf
          subject_label <$> rs) w.
Proof.
  revert w. induction rs as [|r rs IH]; intros w; cbn; [done|].
  destruct (rule_record _ _ _ _ _ _ _ _) as [[fd buf]|]; [|done].
  destruct (write_loop _ _ _ _) as [[] w']; [apply IH | done].
Qed.

Lemma print_labels_emit handle clear load_fd change_fd use_long add_lf
    (ls : list smack_label) (w : world) :
  print_labels handle clear load_fd change_fd use_long add_lf ls w =
  emit (records handle clear load_fd change_fd use_long add_lf ls) w.
Proof.
  revert w. induction ls as [|lab ls IH]; intros w; [done|].
  cbn [print_labels]. unfold records. cbn [mbind list_bind].
  rewrite emit_app, print_rules_emit.
  destruct (emit _ w) as [ret w']. destruct (decide (ret = 0%Z)); [|done].
  apply IH.
Qed.

(** A pass delivers a prefix of the bytes of the records that come
    before the first unformattable one; when it returns 0 there was no
    such record and everything was delivered; and it returns 0 when
    there is no such record and no call of [write] fails. *)
Lemma emit_spec (recs : list (option (Z * list ascii))) (w : world) :
  ∃ ret w' p,
    emit recs w = (ret, w') ∧
    bytes_of (wlog w') = bytes_of (wlog w) ++ p ∧
    p `prefix_of` bytes_of (until_none recs) ∧
    (ret = 0%Z ∨ ret = (-1)%Z) ∧
    (ret = 0%Z → p = bytes_of (until_none recs) ∧ None ∉ recs) ∧
    (WError ∉ script w → None ∉ recs → ret = 0%Z).
Proof.
  revert w. induction recs as [|[[fd buf]|] recs IH]; intros w.
  - exists 0%Z, w, []. cbn. rewrite app_nil_r.
    split; [done|]. split; [done|]. split; [done|]. split; [by left|].
    split; [|done]. intros _. split; [done|]. apply not_elem_of_nil.
  - cbn [emit until_none]. rewrite bytes_of_cons.
    destruct (write_loop_spec fd buf (script w) (wlog w))
      as (ok & sc' & log' & q & -> & Hb & Hq & Hok & Herr).
    destruct ok.
    + destruct (IH (mk_world sc' log'))
        as (ret & w' & p & -> & Hb' & Hp & Hret & Hzero & Hgood).
      cbn [wlog script] in Hb', Hgood. rewrite (Hok eq_refl) in Hb.
      exists ret, w', ((pair fd <$> buf) ++ p).
      split; [done|]. split; [by rewrite Hb', Hb, app_assoc|].
      split; [by apply prefix_app|]. split; [done|]. split.
      * intros [-> Hn]%Hzero. split; [done|].
        apply not_elem_of_cons. done.
      * intros Hs [_ Hn]%not_elem_of_cons. apply Hgood; [|done].
        by apply Herr.
    + exists (-1)%Z, (mk_world sc' log'), (pair fd <$> q).
      split; [done|]. split; [done|]. split.
      { apply prefix_app_r. destruct Hq as [k ->].
        rewrite fmap_app. by apply prefix_app_r. }
      split; [by right|]. split; [done|].
      intros Hs _. by destruct (Herr Hs).
  - exists (-1)%Z, w, []. cbn. rewrite app_nil_r.
    split; [done|]. split; [done|]. split; [done|]. split; [by right|].
    split; [done|]. intros _ Hn. exfalso. apply Hn. apply list_elem_of_here.
Qed.

(** *** The record of a rule *)

Lemma snprintf_fits (text : list ascii) :
  length text ≤ LOAD_LEN →
  snprintf (LOAD_LEN + 1) text = (text ++ [NUL], length text).
Proof.
  intros H. unfold snprintf. f_equal. f_equal.
  apply take_ge. lia.
Qed.

Lemma insert_middle {A} (l1 : list A) (x y : A) (l2 : list A) :
  <[length l1 := y]> (l1 ++ x :: l2) = l1 ++ y :: l2.
Proof. rewrite insert_app_r_alt by lia. by rewrite Nat.sub_diag. Qed.

Lemma buffer_lf (text : list ascii) :
  take (S (length text)) (<[length text := LF]> (text ++ [NUL]))
  = text ++ [LF].
Proof. rewrite insert_middle. apply take_ge. rewrite length_app. cbn. lia. Qed.

Lemma buffer_plain (text : list ascii) :
  take (length text) (text ++ [NUL]) = text ++ [].
Proof. by rewrite take_app_length, app_nil_r. Qed.

Lemma access_code_to_str_length (code : Z) :
  length (access_code_to_str code) = ACC_LEN.
Proof. done. Qed.

Lemma pad_right_length (width : nat) (s : list ascii) :
  length (pad_right width s) = max width (length s).
Proof. unfold pad_right. rewrite length_app, length_replicate. lia. Qed.

Lemma short_access_length (code : Z) :
  length (pad_left 5 (take 5 (access_code_to_str code))) = 5.
Proof. done. Qed.

Lemma rule_record_wf (h : smack_accesses) (clear : bool)
    (load_fd change_fd : Z) (use_long add_lf : bool)
    (lab : smack_label) (r : smack_rule) :
  wf h → lab ∈ labels h → r ∈ rules lab →
  rule_record h clear load_fd change_fd use_long add_lf lab r =
  arule_record clear load_fd change_fd use_long add_lf (rule_view h lab r).
Proof.
  intros Hwf Hlab Hr.
  assert (Hs : length (label lab) ≤ SMACK_LABEL_LEN).
  { apply list_elem_of_lookup in Hlab as [i Hi].
    destruct (wf_label h Hwf i lab Hi) as (_ & _ & Hv & _).
    by apply valid_label_length in Hv as [_ ?]. }
  assert (Ho : length (label (deref h (object_id r))) ≤ SMACK_LABEL_LEN).
  { unfold deref. destruct (labels h !! object_id r) as [olab|] eqn:Hi;
      [|cbn; lia].
    destruct (wf_label h Hwf _ olab Hi) as (_ & _ & Hv & _).
    by apply valid_label_length in Hv as [_ ?]. }
  unfold rule_record, arule_record.
  change (is_modify_rule (rule_view h lab r)) with (is_modify r).
  unfold modify_text, load_text. cbn [rule_view r_subject r_object r_allow r_deny].
  set (s := label lab) in *. set (o := label (deref h (object_id r))) in *.
  destruct (is_modify r && negb clear) eqn:Hm.
  - apply andb_true_iff in Hm as [_ Hm]. destruct clear; [done|].
    destruct (decide (change_fd < 0)%Z); [done|].
    rewrite snprintf_fits.
    + destruct add_lf; cbn [line_end];
        [by rewrite buffer_lf | by rewrite buffer_plain].
    + unfold KERNEL_MODIFY_FORMAT. rewrite !length_app.
      rewrite !access_code_to_str_length. cbn [length].
      unfold LOAD_LEN, ACC_LEN in *. lia.
  - rewrite snprintf_fits.
    + destruct add_lf; cbn [line_end];
        [by rewrite buffer_lf | by rewrite buffer_plain].
    + destruct use_long.
      * unfold KERNEL_LONG_FORMAT. rewrite !length_app.
        rewrite !access_code_to_str_length. cbn [length].
        unfold LOAD_LEN, ACC_LEN in *. lia.
      * unfold KERNEL_SHORT_FORMAT. rewrite !length_app.
        rewrite !pad_right_length, short_access_length. cbn [length].
        unfold LOAD_LEN, ACC_LEN, SMACK_LABEL_LEN in *. lia.
Qed.

Lemma records_from_wf (h : smack_accesses) (clear : bool)
    (load_fd change_fd : Z) (use_long add_lf : bool)
    (ls : list smack_label) :
  wf h → (∀ lab, lab ∈ ls → lab ∈ labels h) →
  records h clear load_fd change_fd use_long add_lf ls =
  arule_record clear load_fd change_fd use_long add_lf <$> rules_from h ls.
Proof.
  intros Hwf. induction ls as [|lab ls IH]; intros Hls; [done|].
  rewrite rules_from_cons, fmap_app, <-IH
    by (intros lab' H; by apply Hls, list_elem_of_further).
  unfold records. cbn [mbind list_bind]. f_equal.
  rewrite <-list_fmap_compose. apply list_fmap_ext. intros i r Hi.
  cbn. apply rule_record_wf; [done|apply Hls, list_elem_of_here|].
  by eapply list_elem_of_lookup_2.
Qed.

Lemma records_wf (h : smack_accesses) (clear : bool)
    (load_fd change_fd : Z) (use_long add_lf : bool) :
  wf h →
  records h clear load_fd change_fd use_long add_lf (labels h) =
  arule_record clear load_fd change_fd use_long add_lf <$> rules_of h.
Proof. intros Hwf. by apply records_from_wf. Qed.

Lemma accesses_print_spec (h : smack_accesses) (clear : bool)
    (load_fd change_fd : Z) (use_long add_lf : bool) (w : world) :
  wf h →
  accesses_print h clear load_fd change_fd use_long add_lf w =
  if negb use_long && has_long h then ((-1)%Z, w)
  else emit (arule_record clear load_fd change_fd use_long add_lf
               <$> rules_of h) w.
Proof.
  intros Hwf. unfold accesses_print.
  destruct (negb use_long && has_long h); [done|].
  by rewrite print_labels_emit, records_wf.
Qed.

(** ** Modify rules without the change-rule interface (C1) *)

Lemma until_none_no_change (load_fd : Z) (use_long : bool)
    (rs : list arule) :
  until_none (arule_record false load_fd (-1) use_long false <$> rs) =
  (λ r, (load_fd, load_text use_long r (r_allow r))) <$> load_prefix rs.
Proof.
  induction rs as [|r rs IH]; [done|].
  cbn [fmap list_fmap load_prefix]. unfold arule_record at 1.
  rewrite andb_true_r. destruct (is_modify_rule r); [done|].
  cbn [until_none line_end fmap list_fmap]. rewrite app_nil_r. f_equal.
  apply IH.
Qed.

Lemma none_no_change (load_fd : Z) (use_long : bool) (rs : list arule)
    (r : arule) :
  r ∈ rs → is_modify_rule r = true →
  None ∈ arule_record false load_fd (-1) use_long false <$> rs.
Proof.
  intros Hr Hm. apply list_elem_of_fmap. exists r. split; [|done].
  unfold arule_record. by rewrite Hm.
Qed.

(** C1.  When an engine holds a modify rule and the change-rule interface
    cannot be opened, [smack_accesses_apply] returns -1, and all it has
    written by then is a prefix of the load records of the rules that come
    before the first modify rule: the modify rule is written in no form and
    no rule after it is written at all. *)
Theorem apply_without_change_rule (fs : smackfs) (h : smack_accesses)
    (w : world) (r : arule) :
  reachable h → r ∈ rules_of h → is_modify_rule r = true →
  (∀ fd, change_rule fs ≠ Opened fd) →
  ∃ w' p,
    smack_accesses_apply fs h w = ((-1)%Z, w') ∧
    bytes_of (wlog w') = bytes_of (wlog w) ++ p ∧
    p `prefix_of`
      bytes_of (load_records fs r_allow (load_prefix (rules_of h))).
Proof.
  intros Hwf%reachable_wf Hr Hm Hfs.
  assert (Hstop : ∀ target, ∃ w' p, ((-1)%Z, w) = ((-1)%Z, w') ∧
    bytes_of (wlog w') = bytes_of (wlog w) ++ p ∧ p `prefix_of` target).
  { intros target. exists w, []. rewrite app_nil_r.
    split; [done|]. split; [done|]. apply prefix_nil. }
  unfold smack_accesses_apply, accesses_apply, load_records.
  destruct (mnt_ok fs); [|apply Hstop]. cbn [negb].
  destruct (open_smackfs_file (load2 fs) (load fs)) as [[load_fd use_long]|]
    eqn:Hopen; [|apply Hstop].
  destruct (change_rule fs) as [fd| |] eqn:Hch;
    [by destruct (Hfs fd)| |apply Hstop].
  rewrite accesses_print_spec by done.
  destruct (negb use_long && has_long h); [apply Hstop|].
  destruct (emit_spec
    (arule_record false load_fd (-1) use_long false <$> rules_of h) w)
    as (ret & w' & p & -> & Hb & Hp & Hret & Hzero & _).
  rewrite until_none_no_change in Hp.
  exists w', p. split; [|done].
  destruct Hret as [->| ->]; [|done].
  destruct (Hzero eq_refl) as [_ Hnone]. exfalso. apply Hnone.
  by apply (none_no_change load_fd use_long (rules_of h) r).
Qed.

(** ** Plain rules are load rules (C5) *)




(** ** Clearing (C8) *)

Lemma until_none_all {A B} (f : A → B) (l : list A) :
  until_none ((λ x, Some (f x)) <$> l) = f <$> l.
Proof. induction l as [|x l IH]; [done|]. cbn. by rewrite <-IH. Qed.


(** ** The long-label flag (C4) *)

Lemma rules_of_elem (h : smack_accesses) (r : arule) :
  r ∈ rules_of h →
  ∃ lab r0, lab ∈ labels h ∧ r0 ∈ rules lab ∧ r = rule_view h lab r0.
Proof.
  unfold rules_of, rules_from.
  intros (lab & (r0 & -> & Hr0)%list_elem_of_fmap & Hlab)%list_elem_of_bind.
  by exists lab, r0.
Qed.

Lemma wf_len (h : smack_accesses) (lab : smack_label) :
  wf h → lab ∈ labels h → len lab = length (label lab).
Proof.
  intros Hwf [i Hi]%list_elem_of_lookup.
  by destruct (wf_label h Hwf i lab Hi) as (_ & ? & _).
Qed.

Lemma wf_deref_len (h : smack_accesses) (p : nat) :
  wf h → len (deref h p) = length (label (deref h p)).
Proof.
  intros Hwf. unfold deref. destruct (labels h !! p) as [lab|] eqn:Hp; [|done].
  cbn. apply (wf_len h); [done | by eapply list_elem_of_lookup_2].
Qed.

(** C4, as the code has it.  In every engine the library builds:
    [has_long] is set only if some interned label is longer than 23
    bytes; it is set whenever the subject or the object of a stored rule
    is longer than 23 bytes; once set it stays set under every operation;
    and while it is set a serialization pass in the short format returns
    -1 without writing anything. *)
Theorem has_long_invariant (h : smack_accesses) :
  reachable h →
  (has_long h = true →
   ∃ lab, lab ∈ labels h ∧ SHORT_LABEL_LEN < length (label lab)) ∧
  (∀ r, r ∈ rules_of h →
     SHORT_LABEL_LEN < length (r_subject r) ∨
     SHORT_LABEL_LEN < length (r_object r) →
     has_long h = true) ∧
  (∀ h', rtc op_step h h' → has_long h = true → has_long h' = true) ∧
  (has_long h = true →
   ∀ clear load_fd change_fd add_lf w,
     accesses_print h clear load_fd change_fd false add_lf w
     = ((-1)%Z, w)).
Proof.
  intros Hwf%reachable_wf. split; [|split; [|split]].
  - intros Hl. destruct (wf_long_sound h Hwf Hl) as (lab & Hlab & Hlen).
    exists lab. split; [done|]. by rewrite <-(wf_len h lab).
  - intros r (lab & r0 & Hlab & Hr0 & ->)%rules_of_elem. cbn.
    rewrite <-(wf_len h lab), <-wf_deref_len by done.
    by apply (wf_long_rules h Hwf).
  - intros h' Hsteps. by apply (op_steps_wf h h' Hwf Hsteps).
  - intros Hl clear load_fd change_fd add_lf w.
    unfold accesses_print. by rewrite Hl.
Qed.

(** C4 as stated fails: a label longer than 23 bytes can be interned in
    an engine whose [has_long] is not set. *)
Lemma has_long_misses_failed_add :
  reachable long_subject_engine ∧
  ¬ (has_long long_subject_engine = true ↔
     ∃ lab, lab ∈ labels long_subject_engine ∧
            SHORT_LABEL_LEN < length (label lab)).
Proof.
  split; [unfold long_subject_engine; apply rtc_once, step_add|].
  assert (has_long long_subject_engine = false) as Hflag
    by (vm_compute; reflexivity).
  assert (∃ lab, labels long_subject_engine !! 0 = Some lab ∧
                 length (label lab) = 25) as (lab & Hlab & Hlen)
    by (eexists; split; vm_compute; reflexivity).
  intros [_ H]. rewrite H in Hflag; [discriminate Hflag|].
  exists lab. split; [by eapply list_elem_of_lookup_2|].
  rewrite Hlen. unfold SHORT_LABEL_LEN. lia.
Qed.

(** ** The CIPSO category array (C2, C3) *)

(** C3 fails on the code: the array holds [CAT_MAX_VALUE] = 63 entries
    and the loop runs up to [CAT_MAX_COUNT] = 240, so the 64th category of
    a line is stored at index 63, past the end of [cats]. *)
Theorem cipso_store_past_cats :
  length (cats calloc_mapping) = 63 ∧
  length (cipso_line 64) < BUF_SIZE ∧
  smack_cipso_add_from_file smack_cipso_new (cipso_line 64)
  = Some (CipsoOverrun 63).
Proof. split; [reflexivity|]. split; [apply Nat.ltb_lt; vm_compute; reflexivity | vm_compute; reflexivity]. Qed.

(** C2 fails on the code for the same reason: a line of 245 categories,
    which fits the line buffer, does not give a mapping of 240
    categories; the call stores past the end of [cats] at index 63. *)
Theorem cipso_245_categories :
  length (cipso_line 245) < BUF_SIZE ∧
  smack_cipso_add_from_file smack_cipso_new (cipso_line 245)
  = Some (CipsoOverrun 63).
Proof. split; [apply Nat.ltb_lt; vm_compute; reflexivity | vm_compute; reflexivity]. Qed.

(** ** Saving *)

Lemma delivered_app (fd : Z) (l1 l2 : list (Z * list ascii)) :
  delivered fd (l1 ++ l2) = delivered fd l1 ++ delivered fd l2.
Proof. unfold delivered. by rewrite bytes_of_app, filter_app, fmap_app. Qed.

Lemma delivered_same_fd (fd : Z) (texts : list (list ascii)) :
  snd <$> filter (λ b, b.1 = fd) (bytes_of (pair fd <$> texts))
  = concat texts.
Proof.
  induction texts as [|t texts IH]; [done|].
  cbn [fmap list_fmap concat]. rewrite bytes_of_cons, filter_app, fmap_app.
  rewrite IH. f_equal. clear IH.
  induction t as [|c t IH]; [done|].
  cbn [fmap list_fmap]. rewrite filter_cons, decide_True by done.
  cbn. by rewrite IH.
Qed.

(** With a valid descriptor and no failing [write], saving returns 0
    and the descriptor receives the lines of the rules in traversal
    order. *)
Lemma save_spec (h : smack_accesses) (fd : Z) (w : world) :
  wf h → (0 ≤ fd)%Z → WError ∉ script w →
  ∃ w', smack_accesses_save h fd w = (0%Z, w') ∧
    delivered fd (wlog w') = delivered fd (wlog w) ++ save_text (rules_of h).
Proof.
  intros Hwf Hfd Hsc. unfold smack_accesses_save.
  rewrite accesses_print_spec by done. cbn [negb andb].
  assert (Hrecs : arule_record false fd fd true true <$> rules_of h =
                  (λ r, Some ((λ r, (fd, save_line r)) r)) <$> rules_of h).
  { apply list_fmap_ext. intros i r _. unfold arule_record, save_line.
    rewrite andb_true_r. destruct (is_modify_rule r); [|done].
    by rewrite decide_False by lia. }
  rewrite Hrecs.
  destruct (emit_spec
    ((λ r, Some ((λ r, (fd, save_line r)) r)) <$> rules_of h) w)
    as (ret & w' & p & -> & Hb & _ & _ & Hzero & Hgood).
  assert (ret = 0%Z) as ->.
  { apply Hgood; [done|]. intros (r & ? & _)%list_elem_of_fmap. done. }
  destruct (Hzero eq_refl) as [-> _].
  exists w'. split; [done|]. unfold delivered. rewrite Hb.
  rewrite filter_app, fmap_app. f_equal.
  rewrite (until_none_all (λ r, (fd, save_line r))).
  rewrite (list_fmap_compose save_line (pair fd)).
  apply delivered_same_fd.
Qed.

(** C10.  After [add("Unconfined", "Unconfined", "rwxat")] on a new
    engine, saving to a descriptor on which no [write] fails returns 0
    and the descriptor receives exactly the line
    ["Unconfined Unconfined rwxat-"] followed by a line feed. *)
Theorem save_unconfined (fd : Z) (sc : list wres) :
  (0 ≤ fd)%Z → WError ∉ sc →
  ∃ h w',
    smack_accesses_add smack_accesses_new
      (list_ascii_of_string "Unconfined") (list_ascii_of_string "Unconfined")
      (list_ascii_of_string "rwxat") = (0%Z, h) ∧
    smack_accesses_save h fd (mk_world sc []) = (0%Z, w') ∧
    delivered fd (wlog w')
    = list_ascii_of_string "Unconfined Unconfined rwxat-" ++ [LF].
Proof.
  intros Hfd Hsc.
  set (u := list_ascii_of_string "Unconfined").
  set (h := (smack_accesses_add smack_accesses_new u u
               (list_ascii_of_string "rwxat")).2).
  assert (Hwf : wf h) by (apply reachable_wf, rtc_once, step_add).
  destruct (save_spec h fd (mk_world sc []) Hwf Hfd Hsc) as (w' & Hs & Hd).
  exists h, w'. split; [by vm_compute|]. split; [done|].
  rewrite Hd. by vm_compute.
Qed.

Lemma save_unconfined_witness :
  ∃ h w',
    smack_accesses_add smack_accesses_new
      (list_ascii_of_string "Unconfined") (list_ascii_of_string "Unconfined")
      (list_ascii_of_string "rwxat") = (0%Z, h) ∧
    smack_accesses_save h 3 (mk_world [WEintr; WTake 4; WTake 0] [])
    = (0%Z, w') ∧
    delivered 3 (wlog w')
    = list_ascii_of_string "Unconfined Unconfined rwxat-" ++ [LF].
Proof.
  apply (save_unconfined 3 [WEintr; WTake 4; WTake 0]); [lia|].
  intros H. repeat (apply elem_of_cons in H as [H|H]; [discriminate H|]).
  by apply elem_of_nil in H.
Defined.

(** ** The theorems at sample inputs *)

Lemma modify_engine_reachable : reachable modify_engine.
Proof.
  unfold modify_engine.
  eapply rtc_l; [apply step_add | apply rtc_once, step_add_modify].
Defined.

Lemma long_engine_reachable : reachable long_engine.
Proof. unfold long_engine. apply rtc_once, step_add. Defined.

Lemma apply_without_change_rule_witness :
  ∃ w' p,
    smack_accesses_apply fs_no_change_rule modify_engine quiet
    = ((-1)%Z, w') ∧
    bytes_of (wlog w') = bytes_of (wlog quiet) ++ p ∧
    p `prefix_of`
      bytes_of (load_records fs_no_change_rule r_allow
                  (load_prefix (rules_of modify_engine))).
Proof.
  apply (apply_without_change_rule fs_no_change_rule modify_engine quiet
           (mk_arule (str "a") (str "c") 3 4)).
  - exact modify_engine_reachable.
  - apply (bool_decide_unpack _). vm_compute. exact I.
  - reflexivity.
  - intros fd. discriminate.
Defined.

Lemma has_long_invariant_witness :
  has_long long_engine = true ∧
  (∃ lab, lab ∈ labels long_engine ∧
          SHORT_LABEL_LEN < length (label lab)) ∧
  ∀ clear load_fd change_fd add_lf w,
    accesses_print long_engine clear load_fd change_fd false add_lf w
    = ((-1)%Z, w).
Proof.
  destruct (has_long_invariant long_engine long_engine_reachable)
    as (Hsound & _ & _ & Hshort).
  assert (has_long long_engine = true) as Hl by reflexivity.
  split; [exact Hl|]. split; [exact (Hsound Hl) | exact (Hshort Hl)].
Defined.




(** ** Reading back what was saved (C7) *)

(** *** Lines and tokens *)

Lemma fgets_scan_line (n : nat) (body rest : list ascii) :
  LF ∉ body → length body < n →
  fgets_scan n (body ++ LF :: rest) = (body ++ [LF], rest).
Proof.
  revert n. induction body as [|c body IH]; intros n Hlf Hn.
  - destruct n; [cbn in Hn; lia|]. cbn. by rewrite decide_True.
  - destruct n; [cbn in Hn; lia|].
    apply not_elem_of_cons in Hlf as [Hc Hlf].
    cbn [app fgets_scan]. rewrite decide_False by done.
    rewrite IH; [done|done|cbn in Hn; lia].
Qed.

Lemma fgets_scan_full (body rest : list ascii) :
  LF ∉ body → fgets_scan (length body) (body ++ rest) = (body, rest).
Proof.
  induction body as [|c body IH]; intros Hlf; [done|].
  apply not_elem_of_cons in Hlf as [Hc Hlf].
  cbn [app length fgets_scan]. rewrite decide_False by done.
  by rewrite IH.
Qed.

Lemma fgets_nonempty (size : nat) (file : list ascii) :
  file ≠ [] → fgets size file = Some (fgets_scan (size - 1) file).
Proof. by destruct file. Qed.

Lemma span_token_delim (t : list ascii) (d : ascii) (rest : list ascii) :
  Forall (λ c, is_delim c = false ∧ c ≠ NUL) t → is_delim d = true →
  span_token (t ++ d :: rest) = (t, rest).
Proof.
  intros Ht Hd. induction Ht as [|c t [Hc _] _ IH]; cbn.
  - by rewrite Hd.
  - by rewrite Hc, IH.
Qed.

Lemma span_token_end (t : list ascii) :
  Forall (λ c, is_delim c = false ∧ c ≠ NUL) t → span_token t = (t, []).
Proof.
  intros Ht. induction Ht as [|c t [Hc _] _ IH]; cbn; [done|].
  by rewrite Hc, IH.
Qed.

Lemma strtok_r_delim (t : list ascii) (d : ascii) (rest : list ascii) :
  token t → is_delim d = true → strtok_r (t ++ d :: rest) = (Some t, rest).
Proof.
  intros [Hne Ht] Hd. unfold strtok_r.
  destruct t as [|c t]; [done|].
  pose proof (Forall_inv Ht) as [Hc _].
  rewrite <-app_comm_cons. cbn [skip_delims]. rewrite Hc.
  by rewrite app_comm_cons, (span_token_delim (c :: t) d rest Ht Hd).
Qed.

Lemma strtok_r_end (t : list ascii) : token t → strtok_r t = (Some t, []).
Proof.
  intros [Hne Ht]. unfold strtok_r.
  destruct t as [|c t]; [done|].
  pose proof (Forall_inv Ht) as [Hc _].
  cbn [skip_delims]. rewrite Hc.
  by rewrite (span_token_end (c :: t) Ht).
Qed.

Lemma token_no_NUL (t : list ascii) : token t → NUL ∉ t.
Proof.
  intros [_ Ht] Hin. rewrite Forall_forall in Ht.
  by destruct (Ht NUL Hin) as [_ ?].
Qed.

Lemma token_no_LF (t : list ascii) : token t → LF ∉ t.
Proof.
  intros [_ Ht] Hin. rewrite Forall_forall in Ht.
  by destruct (Ht LF Hin) as [? _].
Qed.

Lemma label_char_token (c : ascii) :
  label_char c = true → is_delim c = false ∧ c ≠ NUL.
Proof. each_char c; intros H; try discriminate H; by split. Qed.

Lemma valid_label_token (s : list ascii) : valid_label s = true → token s.
Proof.
  intros Hv. split.
  - intros ->. discriminate Hv.
  - unfold valid_label in Hv. rewrite !andb_true_iff in Hv.
    destruct Hv as [[_ Hall] _]. apply Forall_forall. intros c Hc.
    apply label_char_token.
    apply (proj1 (List.forallb_forall _ _) Hall). by apply list_elem_of_In.
Qed.

Lemma access_code_to_str_token (code : Z) : token (access_code_to_str code).
Proof.
  split; [done|]. unfold access_code_to_str, access_bit.
  repeat (apply Forall_cons; split; [by destruct (decide _)|]).
  apply Forall_nil_2.
Qed.

(** Parsing inverts formatting on the six-bit codes. *)
Lemma str_to_access_code_to_str (code : Z) :
  (0 ≤ code ≤ 63)%Z →
  str_to_access_code (access_code_to_str code) = Some code.
Proof.
  intros H.
  exact (proj1 (bool_decide_eq_true _)
    (six_bits (λ c, bool_decide
       (str_to_access_code (access_code_to_str c) = Some c)) eq_refl code H)).
Qed.

(** *** One line *)

Lemma add_from_file_loop_unfold (fuel : nat) (h : smack_accesses)
    (file : list ascii) :
  add_from_file_loop (S fuel) h file =
  match fgets (LOAD_LEN + 1) file with
  | None => Some (0%Z, h)
  | Some (buf, file') =>
      if strcmp_eq buf [LF] then add_from_file_loop fuel h file'
      else line_step (λ a, add_from_file_loop fuel a file') h buf
  end.
Proof. done. Qed.

Lemma strtok_r_last (t tail : list ascii) :
  token t → tail = [] ∨ tail = [LF] → strtok_r (t ++ tail) = (Some t, []).
Proof.
  intros Ht [-> | ->].
  - rewrite app_nil_r. by apply strtok_r_end.
  - by apply strtok_r_delim.
Qed.

Lemma line_body_facts (r : arule) :
  rule_valid r →
  (NUL ∉ line_body r) ∧ (LF ∉ line_body r) ∧
  1 < length (line_body r) ≤ LOAD_LEN.
Proof.
  intros (Hs & Ho & _ & _).
  pose proof (valid_label_token _ Hs) as Hts.
  pose proof (valid_label_token _ Ho) as Hto.
  pose proof (valid_label_length _ Hs) as Hls.
  pose proof (valid_label_length _ Ho) as Hlo.
  pose proof (token_no_NUL _ Hts). pose proof (token_no_NUL _ Hto).
  pose proof (token_no_LF _ Hts). pose proof (token_no_LF _ Hto).
  pose proof (λ c, token_no_NUL _ (access_code_to_str_token c)) as Hna.
  pose proof (λ c, token_no_LF _ (access_code_to_str_token c)) as Hla.
  assert (NUL ∉ [SP]) by by intros ?%list_elem_of_singleton.
  assert (LF ∉ [SP]) by by intros ?%list_elem_of_singleton.
  unfold line_body, modify_text, load_text, KERNEL_MODIFY_FORMAT,
    KERNEL_LONG_FORMAT.
  destruct (is_modify_rule r);
    rewrite !not_elem_of_app, !length_app, !access_code_to_str_length;
    cbn [length]; unfold LOAD_LEN, ACC_LEN, SMACK_LABEL_LEN in *;
    (split; [by auto 10|]); (split; [by auto 10|]); lia.
Qed.

Lemma line_step_fields (K : smack_accesses → option (Z * smack_accesses))
    (h : smack_accesses) (r : arule) (tail : list ascii) :
  rule_valid r → tail = [] ∨ tail = [LF] →
  line_step K h (line_body r ++ tail) =
  let '(ret, h1) :=
    accesses_add h (r_subject r) (r_object r)
      (access_code_to_str (r_allow r)) (line_deny r) in
  if decide (ret = 0%Z) then K h1 else Some ((-1)%Z, h1).
Proof.
  intros Hv Htail.
  destruct (line_body_facts r Hv) as (Hnul & _ & _).
  destruct Hv as (Hs & Ho & _ & _).
  pose proof (valid_label_token _ Hs) as Hts.
  pose proof (valid_label_token _ Ho) as Hto.
  pose proof (access_code_to_str_token (r_allow r)) as Hta.
  pose proof (access_code_to_str_token (r_deny r)) as Htd.
  assert (Hsp : is_delim SP = true) by done.
  unfold line_step. rewrite c_str_id.
  2: { apply not_elem_of_app. split; [done|].
       destruct Htail as [-> | ->]; [apply not_elem_of_nil|].
       by intros ?%list_elem_of_singleton. }
  unfold line_body, line_deny, modify_text, load_text, KERNEL_MODIFY_FORMAT,
    KERNEL_LONG_FORMAT, smack_accesses_add, smack_accesses_add_modify.
  destruct (is_modify_rule r); rewrite <-!app_assoc; cbn [app].
  - rewrite (strtok_r_delim _ SP _ Hts Hsp). cbv beta iota zeta.
    rewrite (strtok_r_delim _ SP _ Hto Hsp). cbv beta iota zeta.
    rewrite (strtok_r_delim _ SP _ Hta Hsp). cbv beta iota zeta.
    rewrite (strtok_r_last _ tail Htd Htail). cbv beta iota zeta.
    done.
  - rewrite (strtok_r_delim _ SP _ Hts Hsp). cbv beta iota zeta.
    rewrite (strtok_r_delim _ SP _ Hto Hsp). cbv beta iota zeta.
    rewrite (strtok_r_last _ tail Hta Htail). cbv beta iota zeta.
    done.
Qed.

Lemma save_line_body (r : arule) : save_line r = line_body r ++ [LF].
Proof. done. Qed.

Lemma strcmp_eq_body (r : arule) (tail : list ascii) :
  rule_valid r → tail = [] ∨ tail = [LF] →
  strcmp_eq (line_body r ++ tail) [LF] = false.
Proof.
  intros Hv Htail. destruct (line_body_facts r Hv) as (Hnul & _ & Hlen).
  unfold strcmp_eq. apply bool_decide_eq_false_2.
  rewrite !c_str_id.
  - intros H. apply (f_equal length) in H. rewrite length_app in H.
    cbn in H. lia.
  - by intros ?%list_elem_of_singleton.
  - apply not_elem_of_app. split; [done|].
    destruct Htail as [-> | ->]; [apply not_elem_of_nil|].
    by intros ?%list_elem_of_singleton.
Qed.

(** The loop reads the line of a rule in [line_turns] turns and hands
    the rule to [accesses_add]. *)
Lemma loop_line (h : smack_accesses) (r : arule) (rest : list ascii)
    (fuel : nat) :
  rule_valid r →
  add_from_file_loop (line_turns r + fuel) h (save_line r ++ rest) =
  let '(ret, h1) :=
    accesses_add h (r_subject r) (r_object r)
      (access_code_to_str (r_allow r)) (line_deny r) in
  if decide (ret = 0%Z) then add_from_file_loop fuel h1 rest
  else Some ((-1)%Z, h1).
Proof.
  intros Hv. destruct (line_body_facts r Hv) as (Hnul & Hlf & Hlen).
  rewrite save_line_body.
  assert (Hne : ∃ c body', line_body r = c :: body').
  { destruct (line_body r) as [|c body']; [cbn in Hlen; lia | by eauto]. }
  unfold line_turns.
  destruct (decide (length (line_body r) < LOAD_LEN)) as [Hshort|Hfull].
  - change (1 + fuel) with (S fuel). rewrite add_from_file_loop_unfold.
    assert (fgets (LOAD_LEN + 1) ((line_body r ++ [LF]) ++ rest)
            = Some (line_body r ++ [LF], rest)) as ->.
    { rewrite <-app_assoc. cbn [app]. rewrite fgets_nonempty.
      - replace (LOAD_LEN + 1 - 1) with LOAD_LEN by lia.
        by rewrite fgets_scan_line.
      - destruct Hne as (c & body' & ->). done. }
    rewrite strcmp_eq_body by auto.
    by rewrite line_step_fields by auto.
  - change (2 + fuel) with (S (S fuel)). rewrite add_from_file_loop_unfold.
    assert (fgets (LOAD_LEN + 1) ((line_body r ++ [LF]) ++ rest)
            = Some (line_body r, LF :: rest)) as ->.
    { rewrite <-app_assoc. cbn [app]. rewrite fgets_nonempty.
      - replace (LOAD_LEN + 1 - 1) with (length (line_body r)) by lia.
        by rewrite fgets_scan_full.
      - destruct Hne as (c & body' & ->). done. }
    pose proof (strcmp_eq_body r [] Hv (or_introl eq_refl)) as Hcmp.
    pose proof (λ K, line_step_fields K h r [] Hv (or_introl eq_refl))
      as Hfields.
    rewrite app_nil_r in Hcmp. setoid_rewrite app_nil_r in Hfields.
    rewrite Hcmp, Hfields.
    destruct (accesses_add _ _ _ _ _) as [ret h1].
    destruct (decide (ret = 0%Z)); [|done].
    by rewrite add_from_file_loop_unfold.
Qed.

(** *** The whole text *)

Lemma capacity (h : smack_accesses) (U : list (list ascii)) :
  wf h → (∀ x, x ∈ names h → x ∈ U) →
  (Z.of_nat (length U) < MAX_LABELS_CNT)%Z →
  labels_cnt h ≠ MAX_LABELS_CNT.
Proof.
  intros Hwf Hsub HU.
  pose proof (submseteq_length _ _
    (NoDup_submseteq _ _ (wf_nodup h Hwf) Hsub)) as Hlen.
  unfold names in Hlen. rewrite length_fmap in Hlen.
  unfold labels_cnt. lia.
Qed.

Lemma save_text_cons (r : arule) (rs : list arule) :
  save_text (r :: rs) = save_line r ++ save_text rs.
Proof. done. Qed.

(** Loading the saved text of valid rules into a well-formed engine with
    room for their labels succeeds and appends each rule, as reloaded, to
    the rules of its subject. *)
Lemma load_saved (rs : list arule) :
  ∀ (h0 : smack_accesses) (fuel : nat) (U : list (list ascii)),
    wf h0 → Forall rule_valid rs →
    (∀ x, x ∈ names h0 → x ∈ U) →
    (∀ r, r ∈ rs → r_subject r ∈ U ∧ r_object r ∈ U) →
    (Z.of_nat (length U) < MAX_LABELS_CNT)%Z →
    length (save_text rs) < fuel →
    ∃ h', add_from_file_loop fuel h0 (save_text rs) = Some (0%Z, h') ∧
      wf h' ∧
      ∀ t, rules_for h' t =
           rules_for h0 t ++ filter (λ r, r_subject r = t) (reload <$> rs).
Proof.
  induction rs as [|r rs IH]; intros h0 fuel U Hwf Hvalid Hnames Hrs HU Hfuel.
  - destruct fuel as [|fuel]; [cbn in Hfuel; lia|].
    exists h0. split; [done|]. split; [done|].
    intros t. by rewrite app_nil_r.
  - apply Forall_cons in Hvalid as [Hv Hvalid].
    destruct (Hrs r) as [HsU HoU]; [apply list_elem_of_here|].
    rewrite save_text_cons in Hfuel |- *.
    destruct (line_body_facts r Hv) as (_ & _ & Hlen).
    rewrite length_app, save_line_body, length_app in Hfuel.
    cbn [length] in Hfuel.
    assert (Hturns : 1 ≤ line_turns r ≤ 2)
      by (unfold line_turns; destruct (decide _); lia).
    replace fuel with (line_turns r + (fuel - line_turns r)) by lia.
    rewrite loop_line by done.
    destruct Hv as (Hs & Ho & Hallow & Hdeny).
    pose proof (valid_label_c_str _ Hs) as Hcs.
    pose proof (valid_label_c_str _ Ho) as Hco.
    destruct (accesses_add_spec h0 (r_subject r) (r_object r)
                (access_code_to_str (r_allow r)) (line_deny r) Hwf)
      as (ret & h1 & -> & Hwf1 & _ & Hsub & _ & Hcases).
    rewrite Hcs, Hco in Hsub, Hcases.
    rewrite (str_to_access_code_to_str _ Hallow) in Hcases.
    assert (Hd : deny_for (line_deny r) (r_allow r) = Some (r_deny (reload r))).
    { unfold line_deny, reload, deny_for. cbn [r_deny].
      destruct (is_modify_rule r); [|done].
      by apply str_to_access_code_to_str. }
    destruct Hcases as [(_ & _ & Hfail)|(-> & _ & _ & ac & dc & Hac & Hdc & Hr)].
    { exfalso.
      destruct Hfail as [Hf|[Hf|[(h' & Hwf' & Hf & Hsub')|[Hf|[Hf|Hf]]]]].
      - by apply (capacity h0 U Hwf Hnames HU).
      - congruence.
      - apply (capacity h' U Hwf'); [|done..].
        intros x [Hx| ->]%Hsub'; by auto.
      - congruence.
      - done.
      - destruct Hf as (ac & [= <-] & Hf). congruence. }
    injection Hac as <-. rewrite Hd in Hdc. injection Hdc as <-.
    rewrite decide_True by done.
    destruct (IH h1 (fuel - line_turns r) U) as (h' & -> & Hwf' & Hr');
      [done|done| | |done|lia|].
    { intros x [Hx|[-> | ->]]%Hsub; by auto. }
    { intros r' Hr''. by apply Hrs, list_elem_of_further. }
    exists h'. split; [done|]. split; [done|].
    intros t. rewrite Hr', Hr, <-app_assoc. f_equal.
    cbn [fmap list_fmap]. rewrite filter_cons.
    change (r_subject (reload r)) with (r_subject r).
    destruct (decide (t = r_subject r)) as [->|Hne].
    + by rewrite decide_True.
    + by rewrite decide_False by congruence.
Qed.

Lemma filter_reload (t : list ascii) (rs : list arule) :
  filter (λ r, r_subject r = t) (reload <$> rs) =
  reload <$> filter (λ r, r_subject r = t) rs.
Proof.
  induction rs as [|r rs IH]; [done|].
  cbn [fmap list_fmap]. rewrite !filter_cons.
  change (r_subject (reload r)) with (r_subject r).
  destruct (decide (r_subject r = t)); [|done].
  cbn [fmap list_fmap]. by rewrite IH.
Qed.

(** Reloading changes nothing in a modify rule, nor in a rule whose deny
    mask is the complement of its allow mask, as plain [add] makes them. *)
Lemma reload_fixed (r : arule) :
  is_modify_rule r = true ∨
  r_deny r = Z.land ACCESS_TYPE_ALL (Z.lnot (r_allow r)) →
  reload r = r.
Proof.
  destruct r as [s o a d]. unfold reload. cbn [r_subject r_object r_allow r_deny].
  intros [-> | ->]; [done|]. by destruct (is_modify_rule _).
Qed.

Lemma wf_rules_valid (h : smack_accesses) (r : arule) :
  wf h → r ∈ rules_of h →
  rule_valid r ∧ r_subject r ∈ names h ∧ r_object r ∈ names h.
Proof.
  intros Hwf (lab & r0 & Hlab & Hr0 & ->)%rules_of_elem.
  destruct (wf_rules h Hwf lab r0 Hlab Hr0) as (Hid & Ha & Hd).
  pose proof Hlab as [i Hi]%list_elem_of_lookup.
  destruct (wf_label h Hwf i lab Hi) as (_ & _ & Hv & _).
  destruct (lookup_lt_is_Some_2 (labels h) (object_id r0) Hid) as [olab Ho].
  destruct (wf_label h Hwf _ olab Ho) as (_ & _ & Hvo & _).
  unfold rule_valid, rule_view, deref. cbn. rewrite Ho. cbn.
  split; [done|]. split.
  - apply list_elem_of_fmap. by exists lab.
  - apply list_elem_of_fmap. exists olab. split; [done|].
    by eapply list_elem_of_lookup_2.
Qed.

(** C7, as the code has it.  For an engine the library has built that
    holds fewer than 65,536 labels: saving it to a descriptor on which no
    [write] fails returns 0, loading the saved text into a new engine
    returns 0, and for every subject string the new engine holds the rules
    of the old one in the same order, each with the same object string and
    allow mask, and with the same deny mask if it is a modify rule; a rule
    saved as a load record comes back with the complement of its allow mask
    as deny mask. *)
Theorem save_load_roundtrip (h : smack_accesses) (fd : Z) (sc : list wres) :
  reachable h → (labels_cnt h < MAX_LABELS_CNT)%Z → (0 ≤ fd)%Z →
  WError ∉ sc →
  ∃ w' h',
    smack_accesses_save h fd (mk_world sc []) = (0%Z, w') ∧
    smack_accesses_add_from_file smack_accesses_new (delivered fd (wlog w'))
    = Some (0%Z, h') ∧
    ∀ t, rules_for h' t = reload <$> rules_for h t.
Proof.
  intros Hwf%reachable_wf Hcnt Hfd Hsc.
  destruct (save_spec h fd (mk_world sc []) Hwf Hfd Hsc) as (w' & Hsave & Hd).
  change (delivered fd (wlog (mk_world sc []))) with (@nil ascii) in Hd.
  cbn [app] in Hd.
  destruct (load_saved (rules_of h) smack_accesses_new
              (S (length (save_text (rules_of h)))) (names h))
    as (h' & Hload & _ & Hrules).
  - apply wf_new.
  - apply Forall_forall. intros r Hr. by apply (wf_rules_valid h r Hwf Hr).
  - intros x Hx. by apply elem_of_nil in Hx.
  - intros r Hr. by apply (wf_rules_valid h r Hwf Hr).
  - unfold names. rewrite length_fmap. exact Hcnt.
  - lia.
  - exists w', h'. split; [done|]. rewrite Hd. split; [exact Hload|].
    intros t. rewrite Hrules, filter_reload. done.
Qed.

Lemma save_load_roundtrip_witness :
  ∃ w' h',
    smack_accesses_save modify_engine 3 (mk_world [WTake 5; WEintr] [])
    = (0%Z, w') ∧
    smack_accesses_add_from_file smack_accesses_new (delivered 3 (wlog w'))
    = Some (0%Z, h') ∧
    ∀ t, rules_for h' t = reload <$> rules_for modify_engine t.
Proof.
  apply (save_load_roundtrip modify_engine 3 [WTake 5; WEintr]).
  - exact modify_engine_reachable.
  - vm_compute. reflexivity.
  - lia.
  - intros H. repeat (apply elem_of_cons in H as [H|H]; [discriminate H|]).
    by apply elem_of_nil in H.
Defined.

(** C7 as stated fails: the rule of [overlap_engine] is saved as the
    load record ["a b rw----"] and comes back with the deny mask
    [--xatl]. *)
Lemma roundtrip_loses_deny : ¬ roundtrip_exact.
Proof.
  intros H.
  pose (w' := (smack_accesses_save overlap_engine 3 quiet).2).
  assert (smack_accesses_save overlap_engine 3 quiet = (0%Z, w')) as Hsave
    by (vm_compute; reflexivity).
  destruct (smack_accesses_add_from_file smack_accesses_new
              (delivered 3 (wlog w'))) as [[ret h']|] eqn:Hload;
    [|vm_compute in Hload; discriminate Hload].
  assert (ret = 0%Z) as ->
    by (vm_compute in Hload; by injection Hload as <- _).
  assert (reachable overlap_engine) as Hreach
    by (unfold overlap_engine; apply rtc_once, step_add_modify).
  specialize (H overlap_engine 3%Z w' h' Hreach Hsave Hload (str "a")).
  vm_compute in Hload. injection Hload as <-.
  vm_compute in H. discriminate H.
Qed.

(** ** The loops over a text end *)

Lemma fgets_scan_shorter (n : nat) (file : list ascii) :
  0 < n → file ≠ [] → length (fgets_scan n file).2 < length file.
Proof.
  revert n. induction file as [|c file IH]; intros n Hn Hne; [done|].
  destruct n as [|n]; [lia|]. cbn [fgets_scan].
  destruct (decide (c = LF)); [cbn; lia|].
  destruct (fgets_scan n file) as [l r] eqn:E. cbn.
  destruct n as [|n]; [cbn in E; injection E as <- <-; lia|].
  destruct file as [|c' file']; [cbn in E; injection E as <- <-; cbn; lia|].
  specialize (IH (S n)). rewrite E in IH. cbn in IH.
  assert (length r < S (length file')) by (apply IH; [lia|done]).
  cbn. lia.
Qed.

Lemma fgets_shorter (size : nat) (file buf file' : list ascii) :
  1 < size → fgets size file = Some (buf, file') →
  length file' < length file.
Proof.
  intros Hsize. destruct file as [|c file]; [done|].
  cbn [fgets]. intros [= E].
  pose proof (fgets_scan_shorter (size - 1) (c :: file)) as H.
  rewrite E in H. apply H; [lia|done].
Qed.

(** [smack_accesses_add_from_file] returns on every text: the fuel it
    is given is never used up. *)
Lemma add_from_file_total (h : smack_accesses) (file : list ascii) :
  is_Some (smack_accesses_add_from_file h file).
Proof.
  unfold smack_accesses_add_from_file.
  assert (∀ fuel file h, length file < fuel →
            is_Some (add_from_file_loop fuel h file)) as Hloop.
  { clear. induction fuel as [|fuel IH]; intros file h Hfuel; [lia|].
    rewrite add_from_file_loop_unfold.
    destruct (fgets (LOAD_LEN + 1) file) as [[buf file']|] eqn:E; [|done].
    apply fgets_shorter in E; [|unfold LOAD_LEN; lia].
    destruct (strcmp_eq buf [LF]); [apply IH; lia|].
    unfold line_step.
    destruct (strtok_r (c_str buf)) as [subject ptr1].
    destruct (strtok_r ptr1) as [object ptr2].
    destruct (strtok_r ptr2) as [access ptr3].
    destruct (strtok_r ptr3) as [access2 ptr4].
    destruct subject; [|done]. destruct object; [|done].
    destruct access; [|done]. destruct (strtok_r ptr4).1; [done|].
    destruct access2.
    - destruct (smack_accesses_add_modify _ _ _ _ _) as [ret h1].
      destruct (decide (ret = 0%Z)); [apply IH; lia | done].
    - destruct (smack_accesses_add _ _ _ _) as [ret h1].
      destruct (decide (ret = 0%Z)); [apply IH; lia | done]. }
  apply Hloop. lia.
Qed.

(** So does [smack_cipso_add_from_file]. *)
Lemma cipso_add_from_file_total (cipso : smack_cipso) (file : list ascii) :
  is_Some (smack_cipso_add_from_file cipso file).
Proof.
  unfold smack_cipso_add_from_file.
  assert (∀ fuel file cipso, length file < fuel →
            is_Some (cipso_add_loop fuel cipso file)) as Hloop.
  { clear. induction fuel as [|fuel IH]; intros file cipso Hfuel; [lia|].
    cbn [cipso_add_loop].
    destruct (fgets BUF_SIZE file) as [[buf file']|] eqn:E; [|done].
    apply fgets_shorter in E; [|unfold BUF_SIZE; lia].
    destruct (strtok_r (c_str buf)) as [lbl ptr1].
    destruct (strtok_r ptr1) as [lvl ptr2].
    destruct (strtok_r ptr2) as [cat ptr3].
    destruct lbl as [lbl|]; [|done]. destruct lvl as [lvl|]; [|done].
    destruct (get_label lbl) as [[n hv]|]; [|done].
    destruct (strtol lvl) as [val errno].
    destruct errno; [done|].
    destruct (_ || _); [done|].
    destruct (cipso_cats _ _ _ _ _); [apply IH; lia | done | done]. }
  apply Hloop. lia.
Qed.

(** * Further properties of the code *)

(** ** Label syntax and interning *)



(** X2.  In every engine the library builds, the label at index [i] has
    identifier [i], a valid string of the recorded length, and sits in the
    hash chain of its bucket; no two labels hold the same string; there
    are at most 65,536 labels; and every rule refers to an existing object
    label and carries masks of six bits. *)
Theorem reachable_engine_invariants (h : smack_accesses) :
  reachable h →
  (∀ i lab, labels h !! i = Some lab →
     id lab = i ∧ len lab = length (label lab) ∧
     valid_label (label lab) = true ∧ i ∈ chain h (bucket (label lab))) ∧
  NoDup (names h) ∧
  (labels_cnt h ≤ MAX_LABELS_CNT)%Z ∧
  (∀ lab r, lab ∈ labels h → r ∈ rules lab →
     object_id r < length (labels h) ∧
     (0 ≤ allow_code r ≤ 63)%Z ∧ (0 ≤ deny_code r ≤ 63)%Z).
Proof.
  intros Hwf%reachable_wf. split; [apply (wf_label h Hwf)|].
  split; [apply (wf_nodup h Hwf)|]. split; [apply (wf_count h Hwf)|].
  apply (wf_rules h Hwf).
Qed.

Lemma reachable_engine_invariants_witness :
  NoDup (names modify_engine) ∧ (labels_cnt modify_engine ≤ MAX_LABELS_CNT)%Z.
Proof.
  destruct (reachable_engine_invariants modify_engine modify_engine_reachable)
    as (_ & Hnd & Hcnt & _).
  split; [exact Hnd | exact Hcnt].
Defined.

(** ** Adding rules *)

(** X3.  A call of [accesses_add] returns 0 or -1.  When it returns -1
    no rule has been added or changed; the labels interned before keep
    their identifiers, and the only labels the failed call may leave
    behind are its own subject and object. *)
Theorem accesses_add_failure (h : smack_accesses) (s o a : list ascii)
    (d : option (list ascii)) :
  reachable h →
  ((accesses_add h s o a d).1 = 0%Z ∨ (accesses_add h s o a d).1 = (-1)%Z) ∧
  ((accesses_add h s o a d).1 ≠ 0%Z →
   rules_of (accesses_add h s o a d).2 = rules_of h ∧
   names h `prefix_of` names (accesses_add h s o a d).2 ∧
   ∀ x, x ∈ names (accesses_add h s o a d).2 →
        x ∈ names h ∨ x = c_str s ∨ x = c_str o).
Proof.
  intros Hwf%reachable_wf.
  destruct (accesses_add_spec h s o a d Hwf)
    as (ret & h' & -> & _ & Hpre & Hsub & _ & Hcases). cbn [fst snd].
  destruct Hcases as [(-> & Hrules & _)|(-> & _)].
  - split; [by right|]. by intros _.
  - split; [by left|]. by intros [].
Qed.

Lemma accesses_add_failure_witness :
  let h' := (accesses_add modify_engine (str "a") (str "d") (str "q") None).2 in
  rules_of h' = rules_of modify_engine ∧
  names modify_engine `prefix_of` names h'.
Proof.
  destruct (accesses_add_failure modify_engine (str "a") (str "d") (str "q")
              None modify_engine_reachable) as [_ H].
  destruct H as (Hrules & Hpre & _); [by vm_compute|].
  split; [exact Hrules | exact Hpre].
Defined.

(** X4.  [accesses_add] returns 0 exactly when the table is not full
    before either interning, both labels are valid, and the access strings
    parse (the deny string only when one is given). *)
Theorem accesses_add_succeeds_iff (h : smack_accesses) (s o a : list ascii)
    (d : option (list ascii)) :
  reachable h →
  ((accesses_add h s o a d).1 = 0%Z ↔
   labels_cnt h ≠ MAX_LABELS_CNT ∧ valid_label (c_str s) = true ∧
   labels_cnt (label_add h s).2 ≠ MAX_LABELS_CNT ∧
   valid_label (c_str o) = true ∧
   is_Some (str_to_access_code a) ∧
   (∀ ds, d = Some ds → is_Some (str_to_access_code ds))).
Proof.
  intros Hwf%reachable_wf. unfold accesses_add.
  destruct (label_add_spec h s Hwf)
    as (res1 & h1 & -> & Hwf1 & _ & _ & _ & Hres1). cbn [snd].
  destruct res1 as [sp|]; cycle 1.
  { destruct Hres1 as [-> Hc]. cbn [fst]. split; [done|].
    intros (Hmax & Hv & _). destruct Hc; congruence. }
  destruct Hres1 as (Hmax1 & Hv1 & _).
  destruct (label_add_spec h1 o Hwf1)
    as (res2 & h2 & -> & _ & _ & _ & _ & Hres2).
  destruct res2 as [op|]; cycle 1.
  { destruct Hres2 as [-> Hc]. cbn [fst]. split; [done|].
    intros (_ & _ & Hmax & Hv & _). destruct Hc; congruence. }
  destruct Hres2 as (Hmax2 & Hv2 & _).
  destruct (str_to_access_code a) as [ac|]; cycle 1.
  { cbn [fst]. split; [done|]. intros (_ & _ & _ & _ & [? [=]] & _). }
  destruct d as [ds|].
  - destruct (str_to_access_code ds) as [dc|] eqn:Ed; cbn [fst].
    + split; [|done]. intros _. do 4 (split; [done|]).
      split; [by eexists|]. intros ds' [= <-]. rewrite Ed. by eexists.
    + split; [done|]. intros (_ & _ & _ & _ & _ & Hd).
      destruct (Hd ds eq_refl) as [? Hd']. rewrite Ed in Hd'. done.
  - cbn [fst]. split; [|done]. intros _. do 4 (split; [done|]).
    split; [by eexists|]. by intros ds [=].
Qed.

Lemma accesses_add_succeeds_iff_witness :
  (accesses_add smack_accesses_new (str "a") (str "b") (str "rw")
     (Some (str "x"))).1 = 0%Z.
Proof.
  apply (accesses_add_succeeds_iff smack_accesses_new (str "a") (str "b")
           (str "rw") (Some (str "x")) (rtc_refl _ _)).
  split; [by vm_compute|]. split; [reflexivity|].
  split; [by vm_compute|]. split; [reflexivity|].
  split; [by eexists|]. intros ds [= <-]. by eexists.
Defined.

(** X5.  A successful [accesses_add], with or without a deny string,
    puts the new rule, with the masks as parsed, after the rules its
    subject already has and leaves the rules of every other subject as
    they are.  Nothing is merged: unless the table has just become full,
    the same call again succeeds and the subject then has the rule
    twice. *)
Theorem accesses_add_appends (h h' : smack_accesses) (s o a : list ascii)
    (d : option (list ascii)) :
  reachable h → accesses_add h s o a d = (0%Z, h') →
  ∃ allow deny,
    str_to_access_code a = Some allow ∧ deny_for d allow = Some deny ∧
    (∀ t, rules_for h' t =
          rules_for h t ++
          (if decide (t = c_str s)
           then [mk_arule (c_str s) (c_str o) allow deny] else [])) ∧
    (labels_cnt h' ≠ MAX_LABELS_CNT →
     ∃ h'', accesses_add h' s o a d = (0%Z, h'') ∧
       rules_for h'' (c_str s) =
       rules_for h (c_str s) ++
       [mk_arule (c_str s) (c_str o) allow deny;
        mk_arule (c_str s) (c_str o) allow deny]).
Proof.
  intros Hwf%reachable_wf Hadd.
  destruct (accesses_add_spec h s o a d Hwf)
    as (ret & h1 & E & Hwf' & _ & Hsub & _ & Hcases).
  rewrite Hadd in E. injection E as <- <-.
  destruct Hcases as [[? _]|(_ & Hvs & Hvo & ac & dc & Ha & Hd & Hrules)];
    [done|].
  exists ac, dc. split; [done|]. split; [done|]. split; [done|].
  intros Hroom.
  pose proof (Hrules (c_str s)) as Hs. rewrite decide_True in Hs by done.
  assert (c_str s ∈ names h' ∧ c_str o ∈ names h') as [Hsn Hon].
  { assert (mk_arule (c_str s) (c_str o) ac dc ∈ rules_for h' (c_str s))
      as Hr by (rewrite Hs; apply elem_of_app; right; apply list_elem_of_here).
    unfold rules_for in Hr. apply list_elem_of_filter in Hr as [_ Hr].
    by destruct (wf_rules_valid h' _ Hwf' Hr) as (_ & ? & ?). }
  assert (HU : (Z.of_nat (length (names h')) < MAX_LABELS_CNT)%Z).
  { pose proof (wf_count h' Hwf'). unfold names, labels_cnt in *.
    rewrite length_fmap. lia. }
  destruct (accesses_add_spec h' s o a d Hwf')
    as (ret & h2 & -> & _ & _ & _ & _ & Hcases).
  destruct Hcases
    as [(-> & _ & Hfail)|(-> & _ & _ & ac' & dc' & Ha' & Hd' & Hr2)].
  - exfalso.
    destruct Hfail as [Hf|[Hf|[(h3 & Hwf3 & Hf & Hsub3)|[Hf|[Hf|Hf]]]]].
    + done.
    + congruence.
    + apply (capacity h3 (names h') Hwf3); [|done..].
      intros x [Hx| ->]%Hsub3; done.
    + congruence.
    + congruence.
    + destruct Hf as (ac' & Ha' & Hf). congruence.
  - rewrite Ha in Ha'. injection Ha' as <-. rewrite Hd in Hd'.
    injection Hd' as <-. exists h2. split; [done|].
    by rewrite Hr2, decide_True, Hs, <-app_assoc by done.
Qed.

Lemma accesses_add_appends_witness :
  ∃ h' allow deny,
    accesses_add smack_accesses_new (str "a") (str "b") (str "rw")
      (Some (str "rwx")) = (0%Z, h') ∧
    str_to_access_code (str "rw") = Some allow ∧
    deny_for (Some (str "rwx")) allow = Some deny ∧
    ∃ h'', accesses_add h' (str "a") (str "b") (str "rw") (Some (str "rwx"))
           = (0%Z, h'') ∧
      rules_for h'' (c_str (str "a")) =
      rules_for smack_accesses_new (c_str (str "a")) ++
      [mk_arule (c_str (str "a")) (c_str (str "b")) allow deny;
       mk_arule (c_str (str "a")) (c_str (str "b")) allow deny].
Proof.
  set (h' := (accesses_add smack_accesses_new (str "a") (str "b") (str "rw")
                (Some (str "rwx"))).2).
  assert (accesses_add smack_accesses_new (str "a") (str "b") (str "rw")
            (Some (str "rwx")) = (0%Z, h')) as Hadd by reflexivity.
  destruct (accesses_add_appends smack_accesses_new h' (str "a") (str "b")
              (str "rw") (Some (str "rwx")) (rtc_refl _ _) Hadd)
    as (allow & deny & Ha & Hd & _ & Htwice).
  exists h', allow, deny. split; [exact Hadd|]. split; [exact Ha|].
  split; [exact Hd|]. apply Htwice. by vm_compute.
Defined.

(** ** Serialization *)

(** X6.  The loop around [write] delivers to its descriptor a prefix of
    the record and nothing to any other descriptor, whatever the calls of
    [write] do (short counts, [EINTR], errors); when it succeeds the whole
    record went out, each byte once, and it succeeds whenever no call
    fails with an error other than [EINTR]. *)
Theorem write_loop_delivers (fd : Z) (buf : list ascii) (sc : list wres)
    (log : list (Z * list ascii)) :
  ∃ ok w' p,
    write_loop fd buf sc log = (ok, w') ∧
    bytes_of (wlog w') = bytes_of log ++ (pair fd <$> p) ∧
    p `prefix_of` buf ∧ (ok = true → p = buf) ∧
    (WError ∉ sc → ok = true).
Proof.
  destruct (write_loop_spec fd buf sc log)
    as (ok & sc' & log' & p & E & Hb & Hp & Hok & Herr).
  exists ok, (mk_world sc' log'), p. do 4 (split; [done|]).
  intros H. by destruct (Herr H).
Qed.

Lemma write_loop_delivers_witness :
  ∃ w', write_loop 3 (str "a b rw----") [WTake 2; WEintr; WTake 0] []
        = (true, w') ∧
        bytes_of (wlog w') = pair 3%Z <$> str "a b rw----".
Proof.
  destruct (write_loop_delivers 3 (str "a b rw----")
              [WTake 2; WEintr; WTake 0] [])
    as (ok & w' & p & E & Hb & _ & Hok & Hgood).
  assert (ok = true) as ->.
  { apply Hgood. intros H.
    repeat (apply elem_of_cons in H as [H|H]; [discriminate H|]).
    by apply elem_of_nil in H. }
  exists w'. split; [exact E|]. rewrite Hb, (Hok eq_refl). reflexivity.
Defined.

(** X7.  With the load and change-rule interfaces open,
    [smack_accesses_apply] writes the rules in traversal order, each
    modify rule as a four-field record to change-rule and each other rule
    as a three-field record to the load interface.  What it has written is
    always a prefix of that stream; it is the whole stream when the call
    returns 0; and the call returns 0 when no [write] fails and the format
    negotiated fits the labels. *)
Theorem apply_delivers_all (fs : smackfs) (h : smack_accesses) (w : world)
    (load_fd : Z) (use_long : bool) (change_fd : nat) :
  reachable h → mnt_ok fs = true →
  open_smackfs_file (load2 fs) (load fs) = Some (load_fd, use_long) →
  change_rule fs = Opened change_fd →
  ∃ ret w' p,
    smack_accesses_apply fs h w = (ret, w') ∧
    bytes_of (wlog w') = bytes_of (wlog w) ++ p ∧
    p `prefix_of`
      bytes_of (apply_record load_fd (Z.of_nat change_fd) use_long
                  <$> rules_of h) ∧
    (ret = 0%Z →
     p = bytes_of (apply_record load_fd (Z.of_nat change_fd) use_long
                     <$> rules_of h) ∧
     negb use_long && has_long h = false) ∧
    (WError ∉ script w → negb use_long && has_long h = false → ret = 0%Z).
Proof.
  intros Hwf%reachable_wf Hmnt Hopen Hch.
  unfold smack_accesses_apply, accesses_apply.
  rewrite Hmnt, Hopen, Hch. cbn [negb].
  rewrite accesses_print_spec by done.
  destruct (negb use_long && has_long h).
  { exists (-1)%Z, w, []. rewrite app_nil_r. split; [done|]. split; [done|].
    split; [apply prefix_nil|]. split; [done|]. by intros _ [=]. }
  assert (Hrecs :
    arule_record false load_fd (Z.of_nat change_fd) use_long false
      <$> rules_of h =
    (λ r, Some (apply_record load_fd (Z.of_nat change_fd) use_long r))
      <$> rules_of h).
  { apply list_fmap_ext. intros i r _. unfold arule_record, apply_record.
    rewrite andb_true_r. cbn [line_end]. rewrite !app_nil_r.
    destruct (is_modify_rule r); [|done]. by rewrite decide_False by lia. }
  rewrite Hrecs.
  destruct (emit_spec
    ((λ r, Some (apply_record load_fd (Z.of_nat change_fd) use_long r))
       <$> rules_of h) w)
    as (ret & w' & p & -> & Hb & Hp & _ & Hzero & Hgood).
  rewrite until_none_all in Hp, Hzero.
  exists ret, w', p. do 3 (split; [done|]). split.
  - intros [-> _]%Hzero. done.
  - intros Hs _. apply Hgood; [done|].
    intros (r & ? & _)%list_elem_of_fmap. done.
Qed.

Lemma apply_delivers_all_witness :
  ∃ w',
    smack_accesses_apply
      {| mnt_ok := true; load2 := Opened 3; load := NoEntry;
         change_rule := Opened 4 |} modify_engine quiet = (0%Z, w') ∧
    bytes_of (wlog w') =
    bytes_of (apply_record 3 4 true <$> rules_of modify_engine).
Proof.
  destruct (apply_delivers_all
              {| mnt_ok := true; load2 := Opened 3; load := NoEntry;
                 change_rule := Opened 4 |} modify_engine quiet 3%Z true 4
              modify_engine_reachable eq_refl eq_refl eq_refl)
    as (ret & w' & p & E & Hb & _ & Hzero & Hgood).
  assert (ret = 0%Z) as ->
    by (apply Hgood; [apply not_elem_of_nil | reflexivity]).
  exists w'. split; [exact E|].
  destruct (Hzero eq_refl) as [-> _]. exact Hb.
Defined.

(** X8.  For every rule of an engine the library builds, the formatted
    text fits the buffer of [LOAD_LEN + 1] bytes in each of the three
    formats, so [snprintf] never truncates a record and the line feed
    [smack_accesses_save] appends is stored inside the buffer; the record
    written is the formatted text as it is. *)
Theorem record_fits_buffer (h : smack_accesses) (lab : smack_label)
    (r : smack_rule) :
  reachable h → lab ∈ labels h → r ∈ rules lab →
  (∀ a, length (modify_text (rule_view h lab r)) ≤ LOAD_LEN ∧
        length (load_text true (rule_view h lab r) a) ≤ LOAD_LEN ∧
        length (load_text false (rule_view h lab r) a) ≤ LOAD_LEN) ∧
  ∀ clear load_fd change_fd use_long add_lf,
    rule_record h clear load_fd change_fd use_long add_lf lab r =
    arule_record clear load_fd change_fd use_long add_lf (rule_view h lab r).
Proof.
  intros Hwf%reachable_wf Hlab Hr. split; [|intros; by apply rule_record_wf].
  assert (rule_view h lab r ∈ rules_of h) as Hin.
  { unfold rules_of, rules_from. apply list_elem_of_bind. exists lab.
    split; [|done]. apply list_elem_of_fmap. by exists r. }
  destruct (wf_rules_valid h _ Hwf Hin) as ((Hs & Ho & _) & _).
  apply valid_label_length in Hs, Ho.
  intros a. unfold modify_text, load_text, KERNEL_MODIFY_FORMAT,
    KERNEL_LONG_FORMAT, KERNEL_SHORT_FORMAT.
  rewrite !length_app, !pad_right_length, short_access_length,
    !access_code_to_str_length. cbn [length].
  unfold LOAD_LEN, ACC_LEN, SMACK_LABEL_LEN in *. lia.
Qed.

Lemma record_fits_buffer_witness :
  let r := mk_rule 3 4 2 in
  let lab := mk_label 1 0 (str "a") [mk_rule 1 62 1; r] in
  labels modify_engine !! 0 = Some lab ∧
  length (modify_text (rule_view modify_engine lab r)) ≤ LOAD_LEN.
Proof.
  intros r lab.
  assert (labels modify_engine !! 0 = Some lab) as Hlab
    by (vm_compute; reflexivity).
  split; [exact Hlab|].
  refine (proj1 (proj1 (record_fits_buffer modify_engine lab r
    modify_engine_reachable _ _) 0%Z)).
  - exact (list_elem_of_lookup_2 _ 0 _ Hlab).
  - apply list_elem_of_further, list_elem_of_here.
Defined.

(** X9.  In the short format a load record of an engine whose
    [has_long] is not set is exactly 53 bytes long (two columns of 23, one
    of 5, two spaces), and its access column shows the first five
    permissions only: the lock bit of the code does not reach the
    record. *)
Theorem short_record_columns (h : smack_accesses) (r : arule) (a b : Z) :
  reachable h → has_long h = false → r ∈ rules_of h →
  (0 ≤ a ≤ 63)%Z → (0 ≤ b ≤ 63)%Z →
  length (load_text false r a) = 53 ∧
  (Z.land a 31 = Z.land b 31 → load_text false r a = load_text false r b).
Proof.
  intros Hwf%reachable_wf Hlong Hr Ha Hb.
  apply rules_of_elem in Hr as (lab & r0 & Hlab & Hr0 & ->).
  assert (¬ (SHORT_LABEL_LEN < len lab ∨
             SHORT_LABEL_LEN < len (deref h (object_id r0)))) as Hshort.
  { intros H. pose proof (wf_long_rules h Hwf lab r0 Hlab Hr0 H). congruence. }
  rewrite (wf_len h lab), wf_deref_len in Hshort by done.
  unfold load_text, KERNEL_SHORT_FORMAT. cbn [rule_view r_subject r_object].
  split.
  - rewrite !length_app, !pad_right_length, short_access_length.
    cbn [length]. unfold SHORT_LABEL_LEN in Hshort. lia.
  - intros Hab. do 4 f_equal.
    assert (∀ c, (0 ≤ c ≤ 63)%Z →
              take 5 (access_code_to_str c)
              = take 5 (access_code_to_str (Z.land c 31))) as Hlow.
    { intros c Hc.
      exact (proj1 (bool_decide_eq_true _)
        (six_bits (λ c, bool_decide
           (take 5 (access_code_to_str c)
            = take 5 (access_code_to_str (Z.land c 31)))) eq_refl c Hc)). }
    by rewrite (Hlow a Ha), (Hlow b Hb), Hab.
Qed.

Lemma short_record_columns_witness :
  let r := mk_arule (str "a") (str "b") 1 62 in
  length (load_text false r 1) = 53 ∧
  load_text false r 1 = load_text false r 33.
Proof.
  destruct (short_record_columns modify_engine
              (mk_arule (str "a") (str "b") 1 62) 1 33
              modify_engine_reachable) as [Hlen Hsame].
  - reflexivity.
  - apply (bool_decide_unpack _). vm_compute. exact I.
  - lia.
  - lia.
  - split; [exact Hlen | apply Hsame; reflexivity].
Defined.

(** X10.  Saving an engine to a valid descriptor on which no [write]
    fails returns 0 and writes one line per rule, in traversal order: the
    four fields of a modify rule or the three fields of any other rule in
    the long format, then a line feed. *)
Theorem save_writes_lines (h : smack_accesses) (fd : Z) (w : world) :
  reachable h → (0 ≤ fd)%Z → WError ∉ script w →
  ∃ w', smack_accesses_save h fd w = (0%Z, w') ∧
    delivered fd (wlog w') = delivered fd (wlog w) ++ save_text (rules_of h).
Proof. intros Hwf%reachable_wf. by apply save_spec. Qed.

Lemma save_writes_lines_witness :
  ∃ w', smack_accesses_save modify_engine 5 quiet = (0%Z, w') ∧
    delivered 5 (wlog w') = str "a b r-----" ++ [LF] ++
                            str "a c rw---- --x---" ++ [LF].
Proof.
  destruct (save_writes_lines modify_engine 5 quiet modify_engine_reachable)
    as (w' & E & Hd); [lia | apply not_elem_of_nil |].
  exists w'. split; [exact E|]. rewrite Hd. reflexivity.
Defined.

(** ** Bulk loading *)

Lemma line_step_ext (K K' : smack_accesses → option (Z * smack_accesses))
    (h : smack_accesses) (buf : list ascii) :
  (∀ a, K a = K' a) → line_step K h buf = line_step K' h buf.
Proof.
  intros HK. unfold line_step.
  destruct (strtok_r (c_str buf)) as [subject ptr1].
  destruct (strtok_r ptr1) as [object ptr2].
  destruct (strtok_r ptr2) as [access ptr3].
  destruct (strtok_r ptr3) as [access2 ptr4].
  destruct subject; [|done]. destruct object; [|done].
  destruct access; [|done]. destruct (strtok_r ptr4).1; [done|].
  destruct access2.
  - destruct (smack_accesses_add_modify _ _ _ _ _) as [ret h1].
    by rewrite HK.
  - destruct (smack_accesses_add _ _ _ _) as [ret h1]. by rewrite HK.
Qed.

(** The result of the loop does not depend on the fuel, once there is
    more of it than characters to read. *)
Lemma add_from_file_loop_fuel (fuel1 fuel2 : nat) (h : smack_accesses)
    (file : list ascii) :
  length file < fuel1 → length file < fuel2 →
  add_from_file_loop fuel1 h file = add_from_file_loop fuel2 h file.
Proof.
  revert fuel2 h file.
  induction fuel1 as [|fuel1 IH]; intros fuel2 h file H1 H2; [lia|].
  destruct fuel2 as [|fuel2]; [lia|].
  rewrite !add_from_file_loop_unfold.
  destruct (fgets (LOAD_LEN + 1) file) as [[buf file']|] eqn:E; [|done].
  apply fgets_shorter in E; [|unfold LOAD_LEN; lia].
  destruct (strcmp_eq buf [LF]); [apply IH; lia|].
  apply line_step_ext. intros a. apply IH; lia.
Qed.

Lemma add_from_file_rest (fuel : nat) (h : smack_accesses)
    (rest : list ascii) :
  length rest < fuel →
  add_from_file_loop fuel h rest = smack_accesses_add_from_file h rest.
Proof.
  intros H. unfold smack_accesses_add_from_file.
  apply add_from_file_loop_fuel; lia.
Qed.

Lemma skip_delims_head (s : list ascii) (c : ascii) (rest : list ascii) :
  skip_delims s = c :: rest → is_delim c = false.
Proof.
  induction s as [|x s IH]; cbn; [done|].
  destruct (is_delim x) eqn:Hx; [exact IH|]. by intros [= <- _].
Qed.

Lemma fields_skip_delims (s : list ascii) :
  fields (skip_delims s) = fields s.
Proof.
  unfold fields. induction s as [|x s IH]; [done|]. cbn.
  destruct (is_delim x) eqn:Hx; [exact IH|]. cbn. by rewrite Hx.
Qed.

Lemma split_fields_span (s cur : list ascii) :
  split_fields s cur =
  match cur ++ (span_token s).1 with
  | [] => fields (span_token s).2
  | t => t :: fields (span_token s).2
  end.
Proof.
  unfold fields. revert cur. induction s as [|c s IH]; intros cur.
  - cbn. rewrite app_nil_r. by destruct cur.
  - cbn [split_fields span_token]. destruct (is_delim c).
    + cbn. rewrite app_nil_r. by destruct cur.
    + rewrite IH. destruct (span_token s) as [t r]. cbn [fst snd].
      rewrite <-app_assoc. cbn [app]. by destruct cur.
Qed.

(** [strtok_r] returns the first field and leaves the text of the
    others. *)
Lemma strtok_r_fields (s : list ascii) :
  match fields s with
  | [] => strtok_r s = (None, [])
  | t :: ts => ∃ r, strtok_r s = (Some t, r) ∧ fields r = ts
  end.
Proof.
  rewrite <-fields_skip_delims. unfold strtok_r.
  destruct (skip_delims s) as [|c rest] eqn:E; [done|].
  apply skip_delims_head in E.
  unfold fields at 1. rewrite split_fields_span. cbn [app].
  cbn [span_token]. rewrite E.
  destruct (span_token rest) as [t r]. cbn [fst snd]. by exists r.
Qed.


(** The tokens the loop takes from a buffer are its fields, and it
    wants three or four of them. *)
Lemma line_step_by_fields (K : smack_accesses → option (Z * smack_accesses))
    (h : smack_accesses) (buf : list ascii) :
  line_step K h buf =
  match fields (c_str buf) with
  | [subject; object; access] =>
      let '(ret, h1) := smack_accesses_add h subject object access in
      if decide (ret = 0%Z) then K h1 else Some ((-1)%Z, h1)
  | [subject; object; access; access2] =>
      let '(ret, h1) :=
        smack_accesses_add_modify h subject object access access2 in
      if decide (ret = 0%Z) then K h1 else Some ((-1)%Z, h1)
  | _ => Some ((-1)%Z, h)
  end.
Proof.
  unfold line_step.
  assert (Hnil : strtok_r [] = (None, [])) by done.
  pose proof (strtok_r_fields (c_str buf)) as H1.
  destruct (fields (c_str buf)) as [|f1 fs1].
  { rewrite H1, !Hnil. done. }
  destruct H1 as (r1 & -> & <-).
  pose proof (strtok_r_fields r1) as H2.
  destruct (fields r1) as [|f2 fs2].
  { rewrite H2, !Hnil. done. }
  destruct H2 as (r2 & -> & <-).
  pose proof (strtok_r_fields r2) as H3.
  destruct (fields r2) as [|f3 fs3].
  { rewrite H3, !Hnil. done. }
  destruct H3 as (r3 & -> & <-).
  pose proof (strtok_r_fields r3) as H4.
  destruct (fields r3) as [|f4 fs4].
  { rewrite H4, !Hnil. done. }
  destruct H4 as (r4 & -> & <-).
  pose proof (strtok_r_fields r4) as H5.
  destruct (fields r4) as [|f5 fs5].
  { rewrite H5. done. }
  destruct H5 as (r5 & -> & _). done.
Qed.

(** X11.  A line that is just a line feed is skipped: loading a text
    that begins with one is loading the rest. *)
Theorem blank_line_skipped (h : smack_accesses) (rest : list ascii) :
  smack_accesses_add_from_file h (LF :: rest) =
  smack_accesses_add_from_file h rest.
Proof.
  unfold smack_accesses_add_from_file at 1. cbn [length].
  rewrite add_from_file_loop_unfold.
  assert (fgets (LOAD_LEN + 1) (LF :: rest) = Some ([LF], rest)) as ->.
  { rewrite fgets_nonempty by done.
    replace (LOAD_LEN + 1 - 1) with (S (LOAD_LEN - 1))
      by (unfold LOAD_LEN; lia).
    cbn [fgets_scan]. by rewrite decide_True. }
  assert (strcmp_eq [LF] [LF] = true) as -> by done.
  apply add_from_file_rest. lia.
Qed.



Lemma add_from_file_loop_ret (fuel : nat) (h : smack_accesses)
    (file : list ascii) (ret : Z) (h' : smack_accesses) :
  add_from_file_loop fuel h file = Some (ret, h') →
  ret = 0%Z ∨ ret = (-1)%Z.
Proof.
  revert h file. induction fuel as [|fuel IH]; intros h file; [done|].
  rewrite add_from_file_loop_unfold.
  destruct (fgets (LOAD_LEN + 1) file) as [[buf file']|];
    [|intros [= <- _]; by left].
  destruct (strcmp_eq buf [LF]); [apply IH|].
  rewrite line_step_by_fields.
  destruct (fields (c_str buf)) as [|f1 [|f2 [|f3 [|f4 [|f5 fs]]]]];
    try (intros [= <- _]; by right).
  - destruct (smack_accesses_add _ _ _ _) as [ret0 h1].
    destruct (decide (ret0 = 0%Z)); [apply IH | intros [= <- _]; by right].
  - destruct (smack_accesses_add_modify _ _ _ _ _) as [ret0 h1].
    destruct (decide (ret0 = 0%Z)); [apply IH | intros [= <- _]; by right].
Qed.

Lemma add_step_rules (h h' : smack_accesses) (t : list ascii) :
  wf h → add_step h h' → rules_for h t `prefix_of` rules_for h' t.
Proof.
  intros Hwf (s & o & a & d & ->).
  destruct (accesses_add_spec h s o a d Hwf)
    as (ret & h' & -> & _ & _ & _ & _ & Hcases). cbn [snd].
  destruct Hcases as [(_ & Hr & _)|(_ & _ & _ & ac & dc & _ & _ & Hr)].
  - unfold rules_for. by rewrite Hr.
  - rewrite Hr. by apply prefix_app_r.
Qed.

Lemma add_steps_rules (h h' : smack_accesses) (t : list ascii) :
  wf h → rtc add_step h h' → rules_for h t `prefix_of` rules_for h' t.
Proof.
  intros Hwf Hsteps. induction Hsteps as [h|h h1 h2 Hstep _ IH]; [done|].
  destruct (add_step_wf h h1 Hwf Hstep) as (Hwf1 & _).
  etrans; [by apply add_step_rules | by apply IH].
Qed.

(** X13.  Bulk loading returns 0 or -1, and whichever it returns it
    only adds: the labels interned before keep their identifiers, and for
    every subject the rules it had come first, in the same order, in the
    engine the call leaves.  The rules of the lines read before a bad line
    stay. *)
Theorem add_from_file_extends (h h' : smack_accesses) (file : list ascii)
    (ret : Z) :
  reachable h → smack_accesses_add_from_file h file = Some (ret, h') →
  (ret = 0%Z ∨ ret = (-1)%Z) ∧
  names h `prefix_of` names h' ∧
  ∀ t, rules_for h t `prefix_of` rules_for h' t.
Proof.
  intros Hwf%reachable_wf Hload.
  split; [by eapply add_from_file_loop_ret|].
  pose proof (add_from_file_loop_steps _ _ _ _ _ Hload) as Hsteps.
  destruct (add_steps_wf h h' Hwf Hsteps) as (_ & Hpre & _).
  split; [done|]. intros t. by apply add_steps_rules.
Qed.

Lemma add_from_file_extends_witness :
  ∃ h', smack_accesses_add_from_file modify_engine
          (str "x y rw" ++ LF :: str "bad line") = Some ((-1)%Z, h') ∧
    names modify_engine `prefix_of` names h' ∧
    rules_for h' (str "x") = [mk_arule (str "x") (str "y") 3 60].
Proof.
  set (file := str "x y rw" ++ LF :: str "bad line").
  set (h' := match smack_accesses_add_from_file modify_engine file with
             | Some (_, h') => h' | None => modify_engine end).
  assert (smack_accesses_add_from_file modify_engine file
          = Some ((-1)%Z, h')) as Hload by (vm_compute; reflexivity).
  destruct (add_from_file_extends modify_engine h' file (-1)
              modify_engine_reachable Hload) as (_ & Hpre & _).
  exists h'. split; [exact Hload|]. split; [exact Hpre|].
  vm_compute. reflexivity.
Defined.

(** ** The CIPSO store *)

Lemma cipso_cats_spec (n : nat) :
  ∀ (i : nat) (cat : option (list ascii)) (ptr : list ascii)
    (m m' : cipso_mapping) (j : nat),
    cipso_cats n i cat ptr m = CatsDone m' j →
    m_label m' = m_label m ∧ level m' = level m ∧
    length (cats m') = length (cats m) ∧
    (i ≤ length (cats m) → j ≤ length (cats m)) ∧
    (Forall (λ v, 0 ≤ v ≤ CAT_MAX_VALUE)%Z (cats m) →
     Forall (λ v, 0 ≤ v ≤ CAT_MAX_VALUE)%Z (cats m')).
Proof.
  induction n as [|n IH]; intros i cat ptr m m' j H.
  - cbn in H. destruct cat; inversion H; subst; tauto.
  - destruct cat as [tok|]; [|inversion H; subst; tauto].
    cbn [cipso_cats] in H.
    destruct (strtol tok) as [val errno].
    destruct errno; [discriminate|].
    destruct (bool_decide (val < 0)%Z) eqn:Hlo; [discriminate|].
    destruct (bool_decide (CAT_MAX_VALUE < val)%Z) eqn:Hhi; [discriminate|].
    cbn [orb] in H.
    apply bool_decide_eq_false in Hlo, Hhi.
    destruct (decide (i < length (cats m))) as [Hi|]; [|discriminate].
    destruct (strtok_r ptr) as [cat' ptr'].
    apply IH in H as (Hl & Hv & Hlen & Hj & Hc).
    cbn [set_cat m_label level cats] in *.
    rewrite length_insert in Hlen, Hj.
    repeat split; try done.
    + intros _. apply Hj. lia.
    + intros Hall. apply Hc.
      apply Forall_insert; [done|lia].
Qed.

Lemma cipso_add_loop_wf (fuel : nat) :
  ∀ (c c' : smack_cipso) (file : list ascii) (ret : Z),
    cipso_wf c →
    cipso_add_loop fuel c file = Some (CipsoRet ret c') →
    (ret = 0%Z ∨ ret = (-1)%Z) ∧ cipso_wf c' ∧
    mappings c `prefix_of` mappings c' ∧
    (cipso_has_long c = true → cipso_has_long c' = true).
Proof.
  induction fuel as [|fuel IH]; intros c c' file ret Hwf H; [discriminate|].
  cbn [cipso_add_loop] in H.
  destruct (fgets BUF_SIZE file) as [[buf file']|];
    [|inversion H; subst; auto].
  destruct (strtok_r (c_str buf)) as [lbl ptr].
  destruct (strtok_r ptr) as [lvl ptr1].
  destruct (strtok_r ptr1) as [cat ptr2].
  destruct lbl as [lbl|]; [|inversion H; subst; auto].
  destruct lvl as [lvl|]; [|inversion H; subst; auto].
  destruct (get_label lbl) as [[n hv]|] eqn:Hg; [|inversion H; subst; auto].
  apply get_label_Some in Hg as (Hvalid & Hn & _ & Htake).
  set (c1 := if decide (SHORT_LABEL_LEN < n)
             then {| cipso_has_long := true; mappings := mappings c |}
             else c) in H.
  assert (Hm1 : mappings c1 = mappings c)
    by (unfold c1; by destruct (decide _)).
  assert (Hl1 : cipso_has_long c = true → cipso_has_long c1 = true)
    by (unfold c1; by destruct (decide _)).
  assert (Hn1 : SHORT_LABEL_LEN < n → cipso_has_long c1 = true)
    by (unfold c1; destruct (decide _); [done|lia]).
  assert (Hwf1 : cipso_wf c1).
  { destruct Hwf as [Hall Hlong]. split; rewrite Hm1; [done|].
    intros Hex. apply Hl1, Hlong, Hex. }
  assert (Hbase : (-1 = 0 ∨ -1 = -1)%Z ∧ cipso_wf c1 ∧
                  mappings c `prefix_of` mappings c1 ∧
                  (cipso_has_long c = true → cipso_has_long c1 = true)).
  { rewrite Hm1. auto. }
  clearbody c1.
  destruct (strtol lvl) as [val errno].
  destruct errno; [inversion H; subst; exact Hbase|].
  destruct (bool_decide (val < 0)%Z) eqn:Hlo; [inversion H; subst; exact Hbase|].
  destruct (bool_decide (LEVEL_MAX < val)%Z) eqn:Hhi;
    [inversion H; subst; exact Hbase|].
  cbn [orb] in H.
  apply bool_decide_eq_false in Hlo, Hhi.
  match type of H with
  | match cipso_cats ?a ?b ?c ?d ?e with _ => _ end = _ =>
      destruct (cipso_cats a b c d e) as [m j| |] eqn:Hcats
  end; [|inversion H; subst; exact Hbase|discriminate].
  apply cipso_cats_spec in Hcats as (Hl & Hv & Hlen & Hj & Hc).
  cbn [m_label level cats calloc_mapping] in Hl, Hv, Hlen, Hj, Hc.
  apply IH in H as (Hret & Hwf' & Hpre & Hlong').
  - cbn [mappings cipso_has_long] in Hpre, Hlong'.
    split; [done|]. split; [done|]. split; [|auto].
    rewrite <- Hm1. etrans; [|exact Hpre]. by apply prefix_app_r.
  - destruct Hwf1 as [Hall Hlong]. split; cbn [mappings cipso_has_long].
    + apply Forall_app. split; [done|].
      apply Forall_singleton. unfold mapping_ok.
      cbn [m_label level cats ncats].
      rewrite Hl, Hv, Hlen, Htake, length_replicate.
      split; [done|]. split; [lia|]. split; [done|]. split.
      * apply Hj. lia.
      * apply Hc. apply Forall_replicate. unfold CAT_MAX_VALUE. lia.
    + intros [Hex|Hex]%Exists_app; [by apply Hlong|].
      apply Exists_cons in Hex as [Hex|Hex]; [|by apply Exists_nil in Hex].
      cbn [m_label] in Hex. rewrite Hl, Htake, <- Hn in Hex.
      by apply Hn1.
Qed.

Lemma strtok_r_Some_fields (s t r : list ascii) :
  strtok_r s = (Some t, r) → fields s = t :: fields r.
Proof.
  intros H. pose proof (strtok_r_fields s) as F.
  destruct (fields s) as [|t' ts].
  - rewrite H in F. discriminate.
  - destruct F as (r' & F & <-). rewrite H in F. by injection F as <- <-.
Qed.

Lemma strtok_r_count (s : list ascii) :
  match (strtok_r s).1 with
  | None => 0
  | Some _ => S (length (fields (strtok_r s).2))
  end = length (fields s).
Proof.
  pose proof (strtok_r_fields s) as F.
  destruct (fields s) as [|t ts].
  - by rewrite F.
  - destruct F as (r & -> & <-). done.
Qed.

(** A store past the end of [cats] is at the index just after its last
    element, and it takes more category tokens than the array has room
    for. *)
Lemma cipso_cats_overrun (n : nat) :
  ∀ (i : nat) (cat : option (list ascii)) (ptr : list ascii)
    (m : cipso_mapping) (j : nat),
    cipso_cats n i cat ptr m = CatsOverrun j →
    i ≤ length (cats m) →
    j = length (cats m) ∧
    length (cats m) - i <
    match cat with None => 0 | Some _ => S (length (fields ptr)) end.
Proof.
  induction n as [|n IH]; intros i cat ptr m j H Hi.
  - cbn [cipso_cats] in H. by destruct cat.
  - destruct cat as [tok|]; [|discriminate].
    cbn [cipso_cats] in H.
    destruct (strtol tok) as [val errno].
    destruct errno; [discriminate|].
    destruct (bool_decide (val < 0)%Z || bool_decide (CAT_MAX_VALUE < val)%Z);
      [discriminate|].
    destruct (decide (i < length (cats m))) as [Hlt|Hge].
    + pose proof (strtok_r_count ptr) as Hc.
      destruct (strtok_r ptr) as [cat' ptr'].
      cbn [fst snd] in Hc.
      apply IH in H as [Hj Hn];
        cbn [set_cat cats] in *; rewrite length_insert in *; [|lia].
      split; [done|]. lia.
    + injection H as <-. split; lia.
Qed.

Lemma fgets_scan_split (n : nat) :
  ∀ file, (fgets_scan n file).1 ++ (fgets_scan n file).2 = file ∧
          length (fgets_scan n file).1 ≤ n.
Proof.
  induction n as [|n IH]; intros file; cbn [fgets_scan].
  - by destruct file.
  - destruct file as [|c rest]; [cbn; split; [done|lia]|].
    destruct (decide (c = LF)); [cbn; split; [done|lia]|].
    destruct (IH rest) as [E L].
    destruct (fgets_scan n rest) as [l r]. cbn [fst snd app length] in *.
    split; [by rewrite E|lia].
Qed.

Lemma fgets_split (size : nat) (file buf file' : list ascii) :
  fgets size file = Some (buf, file') →
  file = buf ++ file' ∧ length buf ≤ size - 1.
Proof.
  unfold fgets. destruct file as [|c rest]; [discriminate|].
  intros H. injection H as H.
  destruct (fgets_scan_split (size - 1) (c :: rest)) as [E L].
  rewrite H in E, L. by cbn [fst snd] in *.
Qed.

Lemma cipso_add_loop_overrun (fuel : nat) :
  ∀ (c : smack_cipso) (file : list ascii) (i : nat),
    cipso_add_loop fuel c file = Some (CipsoOverrun i) →
    i = Z.to_nat CAT_MAX_VALUE ∧
    ∃ before buf after,
      file = before ++ buf ++ after ∧ length buf < BUF_SIZE ∧
      Z.to_nat CAT_MAX_VALUE + 2 < length (fields (c_str buf)).
Proof.
  induction fuel as [|fuel IH]; intros c file i H; [discriminate|].
  cbn [cipso_add_loop] in H.
  destruct (fgets BUF_SIZE file) as [[buf file']|] eqn:Hf; [|discriminate].
  apply fgets_split in Hf as [-> Hlen].
  destruct (strtok_r (c_str buf)) as [lbl ptr] eqn:E1.
  destruct (strtok_r ptr) as [lvl ptr1] eqn:E2.
  destruct (strtok_r ptr1) as [cat ptr2] eqn:E3.
  destruct lbl as [lbl|]; [|discriminate].
  destruct lvl as [lvl|]; [|discriminate].
  destruct (get_label lbl) as [[n hv]|]; [|discriminate].
  destruct (strtol lvl) as [val errno].
  destruct errno; [discriminate|].
  destruct (bool_decide (val < 0)%Z || bool_decide (LEVEL_MAX < val)%Z);
    [discriminate|].
  match type of H with
  | match cipso_cats ?a ?b ?c ?d ?e with _ => _ end = _ =>
      destruct (cipso_cats a b c d e) as [m j| |j] eqn:Hcats
  end; [|discriminate|].
  - apply IH in H as (Hi & before & buf' & after & -> & Hb & Hfields).
    split; [done|]. exists (buf ++ before), buf', after.
    split; [by rewrite <- app_assoc|done].
  - injection H as <-.
    apply cipso_cats_overrun in Hcats as [Hj Hn];
      cbn [cats calloc_mapping] in *; rewrite length_replicate in *; [|lia].
    split; [done|]. exists [], buf, file'.
    split; [done|]. split; [unfold BUF_SIZE in *; lia|].
    destruct cat as [cat|]; [|lia].
    rewrite (strtok_r_Some_fields _ _ _ E1), (strtok_r_Some_fields _ _ _ E2),
      (strtok_r_Some_fields _ _ _ E3).
    cbn [length]. lia.
Qed.

(** X14 ([smack_cipso_add_from_file]): every call ends in one of two
    ways.  Either it reaches a store past the end of the array [cats],
    which has 63 elements: the index is then 63, and the text holds a
    piece shorter than the buffer with more than 65 fields, that is a line
    with a label, a level and more than 63 categories.  Or it returns, 0
    or -1, and then the mappings it found are kept in front of the ones it
    added, every mapping has a valid label, a level from 0 to 255 and at
    most 63 categories counted, each from 0 to 63, and [has_long] is set
    as soon as one label is longer than 23 bytes, and never cleared. *)
Theorem cipso_add_from_file_wf (c : smack_cipso) (file : list ascii) :
  cipso_wf c →
  is_Some (smack_cipso_add_from_file c file) ∧
  (∀ i, smack_cipso_add_from_file c file = Some (CipsoOverrun i) →
     i = Z.to_nat CAT_MAX_VALUE ∧
     ∃ before buf after,
       file = before ++ buf ++ after ∧ length buf < BUF_SIZE ∧
       Z.to_nat CAT_MAX_VALUE + 2 < length (fields (c_str buf))) ∧
  (∀ ret c', smack_cipso_add_from_file c file = Some (CipsoRet ret c') →
     (ret = 0%Z ∨ ret = (-1)%Z) ∧ cipso_wf c' ∧
     mappings c `prefix_of` mappings c' ∧
     (cipso_has_long c = true → cipso_has_long c' = true)).
Proof.
  intros Hwf. split; [apply cipso_add_from_file_total|]. split.
  - intros i H. by eapply cipso_add_loop_overrun.
  - intros ret c' H. by eapply cipso_add_loop_wf.
Qed.

Lemma cipso_wf_new : cipso_wf smack_cipso_new.
Proof.
  split; cbn.
  - constructor.
  - by intros ?%Exists_nil.
Qed.

Lemma cipso_add_from_file_wf_witness :
  (∃ c',
     smack_cipso_add_from_file smack_cipso_new
       (str "Secret 3 1 5" ++ [LF] ++ str "^ 0" ++ [LF])
     = Some (CipsoRet 0 c') ∧
     cipso_wf c' ∧ length (mappings c') = 2) ∧
  smack_cipso_add_from_file smack_cipso_new (cipso_line 64)
  = Some (CipsoOverrun 63) ∧
  65 < length (fields (cipso_line 64)).
Proof.
  split; [|split; [vm_compute; reflexivity|vm_compute; lia]].
  eexists. split; [vm_compute; reflexivity|].
  split; [|reflexivity].
  refine (proj1 (proj2 (proj2 (proj2
            (cipso_add_from_file_wf smack_cipso_new
               (str "Secret 3 1 5" ++ [LF] ++ str "^ 0" ++ [LF])
               cipso_wf_new)) 0%Z _ _))).
  vm_compute; reflexivity.
Defined.

Lemma small_range (P : Z → bool) (n : Z) :
  forallb P (seqZ 0 n) = true → ∀ a, (0 ≤ a < n)%Z → P a = true.
Proof.
  intros H a Ha. rewrite List.forallb_forall in H.
  apply H, list_elem_of_In, elem_of_seqZ. lia.
Qed.

Lemma num_field_length (v : Z) :
  (0 ≤ v ≤ 255)%Z → length (CIPSO_NUM_LEN_STR v) = NUM_LEN.
Proof.
  intros Hv.
  pose (P := λ v, bool_decide (length (CIPSO_NUM_LEN_STR v) = NUM_LEN)).
  assert (Hall : forallb P (seqZ 0 256) = true) by (vm_compute; reflexivity).
  assert (H : P v = true) by (apply (small_range P 256 Hall); lia).
  unfold P in H. by apply bool_decide_eq_true in H.
Qed.

Lemma inserts_front {A} (text buf : list A) :
  length text ≤ length buf →
  list_inserts 0 text buf = text ++ drop (length text) buf.
Proof.
  intros H. rewrite <- (take_drop (length text) buf) at 1.
  apply list_inserts_0_r. rewrite length_take. lia.
Qed.

Lemma sprintf_at_end (content tail f : list ascii) :
  length f < length tail →
  sprintf_at (content ++ tail) (length content) f =
  (content ++ f) ++ NUL :: drop (S (length f)) tail.
Proof.
  intros H. unfold sprintf_at.
  pose proof (list_inserts_app_r (f ++ [NUL]) content tail 0) as E.
  rewrite Nat.add_0_r in E. rewrite E, inserts_front.
  - rewrite length_app. cbn [length]. rewrite <- !app_assoc.
    cbn [app]. by replace (length f + 1) with (S (length f)) by lia.
  - rewrite length_app. cbn [length]. lia.
Qed.

Lemma sprintf_at_length (buf : list ascii) (offset : nat) (f : list ascii) :
  length (sprintf_at buf offset f) = length buf.
Proof. apply length_inserts. Qed.

Lemma cipso_pack_cats_length (m : cipso_mapping) (k : nat) :
  ∀ i buf offset,
    length (cipso_pack_cats m k i buf offset).1 = length buf.
Proof.
  induction k as [|k IH]; intros i buf offset; [done|].
  cbn [cipso_pack_cats]. by rewrite IH, sprintf_at_length.
Qed.

Lemma cipso_pack_cats_spec (m : cipso_mapping) (k : nat) :
  ∀ i content tail,
    Forall (λ v, 0 ≤ v ≤ CAT_MAX_VALUE)%Z (cats m) →
    i + k ≤ length (cats m) →
    NUM_LEN * k < length tail →
    ∃ tail',
      cipso_pack_cats m k i (content ++ tail) (length content) =
      ((content ++ mjoin (CIPSO_NUM_LEN_STR <$> take k (drop i (cats m))))
         ++ tail',
       length (content ++
               mjoin (CIPSO_NUM_LEN_STR <$> take k (drop i (cats m))))).
Proof.
  induction k as [|k IH]; intros i content tail Hall Hik Htail.
  - exists tail. cbn [cipso_pack_cats take fmap list_fmap mjoin list_join].
    by rewrite app_nil_r.
  - cbn [cipso_pack_cats].
    destruct (lookup_lt_is_Some_2 (cats m) i) as [v Hv]; [lia|].
    rewrite Hv. change (default 0%Z (Some v)) with v.
    assert (Hlen : length (CIPSO_NUM_LEN_STR v) = NUM_LEN).
    { apply num_field_length.
      rewrite Forall_lookup in Hall. specialize (Hall i v Hv).
      unfold CAT_MAX_VALUE in Hall. lia. }
    assert (Hfit : length (CIPSO_NUM_LEN_STR v) < length tail)
      by (rewrite Hlen; unfold NUM_LEN in *; lia).
    rewrite (sprintf_at_end content tail _ Hfit).
    replace (length content + NUM_LEN)
      with (length (content ++ CIPSO_NUM_LEN_STR v))
      by (rewrite length_app, Hlen; done).
    destruct (IH (S i) (content ++ CIPSO_NUM_LEN_STR v)
                (NUL :: drop (S (length (CIPSO_NUM_LEN_STR v))) tail))
      as [tail' E]; [done|lia| |].
    { cbn [length]. rewrite length_drop, Hlen. unfold NUM_LEN in *. lia. }
    exists tail'. rewrite E.
    rewrite (drop_S _ _ _ Hv). cbn [take fmap list_fmap mjoin list_join].
    by rewrite <- !app_assoc.
Qed.

Lemma c_str_terminated (s rest : list ascii) :
  NUL ∉ s → c_str (s ++ NUL :: rest) = s.
Proof.
  induction s as [|c s IH]; intros H; cbn [c_str app].
  - by destruct (decide (NUL = NUL)).
  - destruct (decide (c = NUL)) as [->|_].
    + exfalso. apply H. left.
    + f_equal. apply IH. intros ?. apply H. by right.
Qed.

Lemma label_field_facts (use_long : bool) (l : list ascii) :
  valid_label l = true →
  (NUL ∉ (if use_long then l else pad_right 23 l)) ∧
  length (if use_long then l else pad_right 23 l) ≤ SMACK_LABEL_LEN.
Proof.
  intros Hv.
  pose proof (valid_label_length l Hv) as Hlen.
  pose proof (token_no_NUL l (valid_label_token l Hv)) as Hn.
  destruct use_long; [split; [done|lia]|]. split.
  - unfold pad_right. intros [H|H]%elem_of_app; [done|].
    apply elem_of_replicate in H as [H _]. discriminate.
  - rewrite pad_right_length. unfold SMACK_LABEL_LEN in *. lia.
Qed.

Lemma cipso_fill_spec (use_long : bool) (m : cipso_mapping)
    (buf : list ascii) :
  mapping_ok m → length buf = CIPSO_MAX_SIZE →
  ∃ buf' offset,
    cipso_fill use_long m buf = (buf', offset) ∧
    length buf' = CIPSO_MAX_SIZE ∧
    take offset buf' = cipso_record use_long m.
Proof.
  intros (Hvalid & Hlevel & Hcl & Hnc & Hall) Hbuf.
  assert (Hmax : CIPSO_MAX_SIZE = 1224) by reflexivity.
  destruct (cipso_fill use_long m buf) as [buf' offset] eqn:E.
  exists buf', offset. split; [done|]. split.
  { change buf' with (buf', offset).1. rewrite <- E. unfold cipso_fill.
    unfold snprintf.
    by rewrite cipso_pack_cats_length, !sprintf_at_length, length_inserts. }
  unfold cipso_fill, snprintf in E. unfold cipso_record.
  destruct (label_field_facts use_long _ Hvalid) as [Hnul Hflen].
  set (f := if use_long then m_label m else pad_right 23 (m_label m)) in *.
  replace (SMACK_LABEL_LEN + 1 - 1) with SMACK_LABEL_LEN in E by lia.
  rewrite take_ge in E by lia.
  rewrite inserts_front in E
    by (rewrite length_app; cbn [length]; unfold SMACK_LABEL_LEN in *; lia).
  set (tail0 := drop (length (f ++ [NUL])) buf) in E.
  assert (Ht0 : 1224 - 256 ≤ length tail0).
  { unfold tail0. rewrite length_drop, length_app. cbn [length].
    unfold SMACK_LABEL_LEN in *. lia. }
  clearbody tail0.
  rewrite <- app_assoc in E. cbn [app] in E.
  rewrite c_str_terminated in E by done.
  replace (f ++ NUL :: tail0) with ((f ++ [NUL]) ++ tail0) in E
    by (by rewrite <- app_assoc).
  replace (length f + 1) with (length (f ++ [NUL])) in E
    by (rewrite length_app; done).
  assert (Hl1 : length (CIPSO_NUM_LEN_STR (level m)) = NUM_LEN).
  { apply num_field_length. unfold LEVEL_MAX in Hlevel. lia. }
  assert (Hl2 : length (CIPSO_NUM_LEN_STR (Z.of_nat (ncats m))) = NUM_LEN).
  { apply num_field_length. unfold CAT_MAX_VALUE in Hcl.
    change (Z.to_nat 63) with 63 in Hcl. lia. }
  assert (Hf1 : length (CIPSO_NUM_LEN_STR (level m)) < length tail0)
    by (rewrite Hl1; unfold NUM_LEN; lia).
  rewrite (sprintf_at_end _ tail0 _ Hf1) in E. clear Hf1.
  set (tail1 := NUL :: drop _ tail0) in E.
  assert (Ht1 : 1224 - 260 ≤ length tail1).
  { unfold tail1. cbn [length]. rewrite length_drop, Hl1.
    unfold NUM_LEN. lia. }
  clearbody tail1.
  replace (length (f ++ [NUL]) + NUM_LEN)
    with (length ((f ++ [NUL]) ++ CIPSO_NUM_LEN_STR (level m))) in E
    by (rewrite (length_app _ (CIPSO_NUM_LEN_STR _)), Hl1; done).
  assert (Hf2 : length (CIPSO_NUM_LEN_STR (Z.of_nat (ncats m)))
                < length tail1)
    by (rewrite Hl2; unfold NUM_LEN; lia).
  rewrite (sprintf_at_end _ tail1 _ Hf2) in E. clear Hf2.
  set (tail2 := NUL :: drop _ tail1) in E.
  assert (Ht2 : 1224 - 264 ≤ length tail2).
  { unfold tail2. cbn [length]. rewrite length_drop, Hl2.
    unfold NUM_LEN. lia. }
  clearbody tail2.
  match type of E with
  | cipso_pack_cats _ _ _ (?c ++ _) (?n + NUM_LEN) = _ =>
      replace (n + NUM_LEN) with (length c) in E
        by (rewrite (length_app _ (CIPSO_NUM_LEN_STR _)), Hl2; done);
      destruct (cipso_pack_cats_spec m (ncats m) 0 c tail2)
        as [tail' E']
  end; [done|lia| |].
  { unfold CAT_MAX_VALUE in Hcl. change (Z.to_nat 63) with 63 in Hcl.
    unfold NUM_LEN. lia. }
  rewrite E' in E. inversion E as [[Eb Eo]].
  rewrite take_app_length. rewrite drop_0.
  by rewrite <- !app_assoc.
Qed.

Lemma cipso_apply_loop_spec (fd : Z) (use_long : bool)
    (ms : list cipso_mapping) :
  ∀ buf w,
    Forall mapping_ok ms → length buf = CIPSO_MAX_SIZE →
    cipso_apply_loop fd use_long ms buf w =
    write_each fd (cipso_record use_long <$> ms) w.
Proof.
  induction ms as [|m ms IH]; intros buf w Hall Hbuf; [done|].
  apply Forall_cons in Hall as [Hm Hall].
  destruct (cipso_fill_spec use_long m buf Hm Hbuf)
    as (buf' & offset & E & Hlen & Hrec).
  change (cipso_apply_loop fd use_long (m :: ms) buf w) with
    (let '(buf, offset) := cipso_fill use_long m buf in
     match write_once fd (take offset buf) w with
     | (false, w') => ((-1)%Z, w')
     | (true, w') => cipso_apply_loop fd use_long ms buf w'
     end).
  rewrite E, Hrec. cbn [fmap list_fmap write_each].
  destruct (write_once fd (cipso_record use_long m) w) as [[] w'];
    [|done].
  by apply IH.
Qed.

(** X15 ([smack_cipso_apply]): for a store as
    [smack_cipso_add_from_file] builds them and an interface that opens,
    the call hands the kernel one [write] for each mapping, in order,
    stopping at the first that fails; the bytes of each are the label
    (padded to 23 columns on the short interface), a NUL, and the level,
    the count and the categories in fields of four columns.  What an
    earlier mapping left in the buffer never shows. *)
Theorem cipso_apply_records (fs : cipsofs) (c : smack_cipso) (w : world)
    (fd : Z) (use_long : bool) :
  cipso_wf c →
  cipso_mnt_ok fs = true →
  open_smackfs_file (cipso2 fs) (cipso fs) = Some (fd, use_long) →
  (use_long = false → cipso_has_long c = false) →
  smack_cipso_apply fs c w =
  write_each fd (cipso_record use_long <$> mappings c) w.
Proof.
  intros [Hall _] Hmnt Hopen Hlong. unfold smack_cipso_apply.
  rewrite Hmnt, Hopen. cbn [negb].
  assert (E : negb use_long && cipso_has_long c = false).
  { destruct use_long; [done|]. by rewrite Hlong. }
  rewrite E. apply cipso_apply_loop_spec; [done|].
  apply length_replicate.
Qed.

Lemma cipso_apply_records_witness :
  let fs := mk_cipsofs true (Opened 4) NoEntry in
  ∃ c,
    smack_cipso_add_from_file smack_cipso_new (str "Secret 3 1 5" ++ [LF])
    = Some (CipsoRet 0 c) ∧
    smack_cipso_apply fs c quiet =
    (0%Z, mk_world []
            [(4%Z, str "Secret" ++ [NUL] ++ str "3   2   1   5   ")]).
Proof.
  cbv zeta. eexists. split; [vm_compute; reflexivity|].
  rewrite (cipso_apply_records _ _ quiet 4 true);
    [vm_compute; reflexivity| |reflexivity|reflexivity|discriminate].
  refine (proj1 (proj2 (cipso_add_loop_wf 20 smack_cipso_new _
                          (str "Secret 3 1 5" ++ [LF]) 0
                          cipso_wf_new _))).
  vm_compute; reflexivity.
Defined.

(** X16 ([smack_cipso_apply] after [smack_cipso_add_from_file]): a
    store holding a label longer than 23 bytes is refused by a kernel
    that has the short interface only: the call returns -1 and writes
    nothing. *)
Theorem cipso_apply_long_on_short (fs : cipsofs) (c : smack_cipso)
    (w : world) :
  cipso_wf c →
  Exists (λ m, SHORT_LABEL_LEN < length (m_label m)) (mappings c) →
  cipso2 fs = NoEntry →
  smack_cipso_apply fs c w = ((-1)%Z, w).
Proof.
  intros [_ Hlong] Hex H2. unfold smack_cipso_apply.
  destruct (cipso_mnt_ok fs); [|done]. cbn [negb].
  unfold open_smackfs_file. rewrite H2.
  destruct (cipso fs); [|done|done].
  cbn [negb andb]. by rewrite (Hlong Hex).
Qed.

Lemma cipso_apply_long_on_short_witness :
  let fs := mk_cipsofs true NoEntry (Opened 4) in
  ∃ c,
    smack_cipso_add_from_file smack_cipso_new
      (str "ALabelOfTwentyFourBytes_ 3" ++ [LF])
    = Some (CipsoRet 0 c) ∧
    smack_cipso_apply fs c quiet = ((-1)%Z, quiet).
Proof.
  cbv zeta. eexists. split; [vm_compute; reflexivity|].
  apply cipso_apply_long_on_short; [|apply Exists_cons_hd|reflexivity].
  - refine (proj1 (proj2 (cipso_add_loop_wf 40 smack_cipso_new _
                            (str "ALabelOfTwentyFourBytes_ 3" ++ [LF]) 0
                            cipso_wf_new _))).
    vm_compute; reflexivity.
  - vm_compute. lia.
Defined.

(** ** Asking the kernel and writing a label *)




(** X18 ([smack_have_access]): a subject or an object that is no valid
    label, an access string that does not parse, or a label longer than
    23 bytes where only the short interface exists, make the call return
    -1 without writing anything. *)
Theorem have_access_rejects (fs : accessfs) (s o a : list ascii)
    (w : world) :
  valid_label (c_str s) = false ∨ valid_label (c_str o) = false ∨
  str_to_access_code a = None ∨
  (access2 fs = NoEntry ∧
   (SHORT_LABEL_LEN < length (c_str s) ∨
    SHORT_LABEL_LEN < length (c_str o))) →
  smack_have_access fs s o a w = ((-1)%Z, w).
Proof.
  intros H. unfold smack_have_access.
  destruct (access_mnt_ok fs); [|done]. cbn [negb].
  rewrite !get_label_spec.
  destruct (valid_label (c_str s)) eqn:Hs;
    [|by destruct (valid_label (c_str o))].
  destruct (valid_label (c_str o)) eqn:Ho; [|done].
  destruct (open_smackfs_file (access2 fs) (access fs))
    as [[fd use_long]|] eqn:Hopen; [|done].
  destruct H as [H|[H|[H|[H2 H]]]]; [done|done| |].
  - rewrite H. by destruct (negb use_long && _).
  - unfold open_smackfs_file in Hopen. rewrite H2 in Hopen.
    destruct (access fs); inversion Hopen; subst. cbn [negb andb].
    assert (E : bool_decide (SHORT_LABEL_LEN < length (c_str s)) ||
                bool_decide (SHORT_LABEL_LEN < length (c_str o)) = true).
    { apply orb_true_iff.
      destruct H; [left|right]; by apply bool_decide_eq_true. }
    by rewrite E.
Qed.

Lemma have_access_rejects_witness :
  let fs := mk_accessfs true (Opened 5) NoEntry (ReadBytes [ "1"%char ]) in
  smack_have_access fs (str "User") (str "-System") (str "rx") quiet =
  ((-1)%Z, quiet).
Proof.
  cbv zeta. apply have_access_rejects. right. left. reflexivity.
Defined.

(** X19 ([smack_set_label_for_self], [smack_revoke_subject]): a string
    that is no valid label makes either call return -1 without writing;
    a valid one is handed to the kernel whole and without its
    terminator, in one [write], and the call returns 0 when that
    [write] does not fail. *)
Theorem label_writers (attr : open_result) (lbl : list ascii) (w : world) :
  (valid_label (c_str lbl) = false →
   smack_set_label_for_self attr lbl w = ((-1)%Z, w) ∧
   ∀ mnt, smack_revoke_subject mnt attr lbl w = ((-1)%Z, w)) ∧
  (valid_label (c_str lbl) = true →
   ∀ fd ok w',
     attr = Opened fd →
     write_once (Z.of_nat fd) (c_str lbl) w = (ok, w') →
     smack_set_label_for_self attr lbl w
     = (if ok then 0%Z else (-1)%Z, w') ∧
     smack_revoke_subject true attr lbl w
     = (if ok then 0%Z else (-1)%Z, w')).
Proof.
  unfold smack_set_label_for_self, smack_revoke_subject.
  destruct (get_label lbl) as [[n hv]|] eqn:Hg.
  - apply get_label_Some in Hg as (Hv & _ & _ & Htake).
    rewrite Htake. split; [congruence|].
    intros _ fd ok w' -> Hw. rewrite Hw. cbn [negb]. by destruct ok.
  - rewrite get_label_spec in Hg.
    destruct (valid_label (c_str lbl)); [done|].
    split; [|done]. intros _. split; [done|]. by intros [].
Qed.

Lemma label_writers_witness :
  smack_set_label_for_self (Opened 3) (str "User" ++ NUL :: str "tail") quiet
  = (0%Z, mk_world [] [(3%Z, str "User")]) ∧
  smack_revoke_subject true (Opened 3) (str "a/b") quiet = ((-1)%Z, quiet).
Proof.
  split.
  - refine (proj1 (proj2 (label_writers (Opened 3)
                            (str "User" ++ NUL :: str "tail") quiet)
                     eq_refl 3 true _ eq_refl eq_refl)).
  - refine (proj2 (proj1 (label_writers (Opened 3) (str "a/b") quiet)
                     eq_refl) true).
Defined.
